(** * AITaskManager: the natural-language task parser of [src/App.js]

    A shallow embedding of [parseNaturalLanguage] (App.js, lines 62-232), of
    the JavaScript built-ins it calls and of the task list that the
    component keeps (lines 237-392), followed by the properties of the
    parser that the specification states and by further properties of the
    parser and of the task list.

    Modelling choices.
    - A JavaScript string is the list of its code units, each below 256.
      White space is that of [\s] and [trim] in this range: the ASCII white
      space and the no-break space U+00A0.  The case conversions are those
      of the ASCII letters, which is all that the patterns and the keyword
      tables hold; the capital letters of the other code units lie in part
      outside this range, so the properties that depend on the capital
      letter of the title are stated for texts of ASCII characters and
      white space.
    - Regular expressions are a syntax tree run by a backtracking matcher
      with continuations, as in the ECMAScript definition: leftmost match,
      greedy quantifiers, ordered alternatives, numbered captures.
    - A [Date] is a whole number of days since 1970-01-01 or the invalid
      date; the parser only builds dates at midnight, and local time is
      taken to be UTC.  [toISOString] raises [RangeError] on the invalid
      date, so the parser returns in an error monad.
    - The clock is a parameter: [today] is the day the parser reads from
      [new Date()] and resets to midnight. *)

From Stdlib Require Import ZArith NArith Ascii String Bool Lia List.
From Stdlib Require Import Permutation Sorted.
Import ListNotations.

(** ** Strings *)

Module JSString.

Definition t := list ascii.

Definition code (c : ascii) : N := N_of_ascii c.

Definition inRange (lo hi : N) (c : ascii) : bool :=
  (N.leb lo (code c) && N.leb (code c) hi)%bool.

Definition isDigit (c : ascii) : bool := inRange 48 57 c.
Definition isUpper (c : ascii) : bool := inRange 65 90 c.
Definition isLower (c : ascii) : bool := inRange 97 122 c.

(** [\w]: letters, digits and the underscore. *)
Definition isWordChar (c : ascii) : bool :=
  isDigit c || isUpper c || isLower c || N.eqb (code c) 95.

(** [\s] and the characters [trim] strips: tab, line feed, vertical tab,
    form feed, carriage return, space and the no-break space U+00A0. *)
Definition isWhiteSpace (c : ascii) : bool :=
  inRange 9 13 c || N.eqb (code c) 32 || N.eqb (code c) 160.

Definition toLowerChar (c : ascii) : ascii :=
  if isUpper c then ascii_of_N (code c + 32) else c.

Definition toUpperChar (c : ascii) : ascii :=
  if isLower c then ascii_of_N (code c - 32) else c.

Definition toLowerCase (s : t) : t := map toLowerChar s.
Definition toUpperCase (s : t) : t := map toUpperChar s.

Fixpoint startsWith (s p : t) : bool :=
  match p, s with
  | [], _ => true
  | _ :: _, [] => false
  | a :: p', b :: s' => Ascii.eqb a b && startsWith s' p'
  end.

(** [s.includes(p)]: [p] occurs in [s] at some index. *)
Fixpoint includes (s p : t) : bool :=
  startsWith s p ||
  match s with
  | [] => false
  | _ :: s' => includes s' p
  end.

Fixpoint trimStart (s : t) : t :=
  match s with
  | c :: s' => if isWhiteSpace c then trimStart s' else s
  | [] => []
  end.

(** [a === b] on strings. *)
Fixpoint eqb (a b : t) : bool :=
  match a, b with
  | [], [] => true
  | c :: a', d :: b' => Ascii.eqb c d && eqb a' b'
  | _, _ => false
  end.

Definition trimEnd (s : t) : t := rev (trimStart (rev s)).

Definition trim (s : t) : t := trimEnd (trimStart s).

(** [s.charAt(0)] is the empty string when [s] is empty. *)
Definition charAt0 (s : t) : t :=
  match s with
  | c :: _ => [c]
  | [] => []
  end.

(** [s.slice(1)]. *)
Definition slice1 (s : t) : t := tl s.

(** [s.padStart(2, '0')]. *)
Definition padStart2 (s : t) : t :=
  match s with
  | [] => ["0"; "0"]%char
  | [c] => ["0"%char; c]
  | _ => s
  end.

Definition digitChar (d : N) : ascii := ascii_of_N (48 + d).

Fixpoint digitsRev (fuel : nat) (n : N) : t :=
  match fuel with
  | O => []
  | S fuel' =>
      digitChar (N.modulo n 10) ::
      (if N.ltb n 10 then [] else digitsRev fuel' (N.div n 10))
  end.

(** [n.toString()] for a non-negative integer. *)
Definition numberToString (n : N) : t :=
  rev (digitsRev (S (N.to_nat (N.log2 n))) n).

Definition digitValue (c : ascii) : N := code c - 48.

(** [parseInt(s)] on a string of decimal digits, as the captures are. *)
Definition parseInt (s : t) : N :=
  fold_left (fun acc c => (acc * 10 + digitValue c)%N) s 0%N.

End JSString.

Coercion list_ascii_of_string : string >-> list.

(** ** Regular expressions *)

Module RegExp.
Import JSString.

Inductive regex : Type :=
| Empty
| Char (c : ascii)
| Class (p : ascii -> bool)
| Seq (r1 r2 : regex)
| Alt (r1 r2 : regex)
| Quant (lo : nat) (hi : option nat) (r : regex)
| Group (i : nat) (r : regex)
| WordBoundary.

(** The literal text [s], one [Char] after the other. *)
Fixpoint lit (s : list ascii) : regex :=
  match s with
  | [] => Empty
  | c :: s' => Seq (Char c) (lit s')
  end.

(** [r1|r2|...|rn], tried in this order. *)
Fixpoint alts (r : regex) (rs : list regex) : regex :=
  match rs with
  | [] => r
  | r' :: rs' => Alt r (alts r' rs')
  end.

(** The alternatives of a group that are plain words. *)
Definition words (w : string) (ws : list string) : regex :=
  alts (lit w) (map (fun v : string => lit v) ws).

Definition digit : regex := Class isDigit.
Definition space : regex := Class isWhiteSpace.
Definition opt (r : regex) : regex := Quant 0 (Some 1%nat) r.
Definition plus (r : regex) : regex := Quant 1 None r.
Definition star (r : regex) : regex := Quant 0 None r.

(** The matcher's state: the input already passed (most recent code unit
    first), the input still ahead, and the captures made so far. *)
Record MatchState : Type := mkState {
  consumed : list ascii;
  remaining : list ascii;
  captures : list (nat * list ascii)
}.

Definition Continuation := MatchState -> option MatchState.

Definition step (x : MatchState) (c : ascii) (rest : list ascii) : MatchState :=
  mkState (c :: consumed x) rest (captures x).

(** With the [i] flag both sides are canonicalised to upper case. *)
Definition charEq (icase : bool) (a b : ascii) : bool :=
  if icase then Ascii.eqb (toUpperChar a) (toUpperChar b) else Ascii.eqb a b.

Definition wordBefore (x : MatchState) : bool :=
  match consumed x with
  | c :: _ => isWordChar c
  | [] => false
  end.

Definition wordAhead (x : MatchState) : bool :=
  match remaining x with
  | c :: _ => isWordChar c
  | [] => false
  end.

(** [\b] holds where exactly one neighbour is a word character. *)
Definition atBoundary (x : MatchState) : bool := xorb (wordBefore x) (wordAhead x).

(** The text matched between state [x] and a later state [y]. *)
Definition between (x y : MatchState) : list ascii :=
  firstn (length (remaining x) - length (remaining y)) (remaining x).

Definition setCapture (i : nat) (s : list ascii) (y : MatchState) : MatchState :=
  mkState (consumed y) (remaining y) ((i, s) :: captures y).

Definition reached (hi : option nat) (count : nat) : bool :=
  match hi with
  | Some h => Nat.leb h count
  | None => false
  end.

(** One code unit of the class [p]. *)
Definition charMatcher (p : ascii -> bool) (x : MatchState) (k : Continuation)
  : option MatchState :=
  match remaining x with
  | d :: rest => if p d then k (step x d rest) else None
  | [] => None
  end.

(** The greedy quantifier [{lo,hi}] over the matcher [m], after [count]
    rounds: one more round first, then the rest of the pattern.  A round
    that consumes nothing is refused once [lo] rounds are done, so
    [lo] plus the length of the input bounds the number of rounds. *)
Fixpoint repeatMatcher (m : MatchState -> Continuation -> option MatchState)
  (lo : nat) (hi : option nat) (k : Continuation) (fuel count : nat)
  (x : MatchState) {struct fuel} : option MatchState :=
  let stop := if Nat.leb lo count then k x else None in
  match fuel with
  | O => stop
  | S fuel' =>
      if reached hi count then stop
      else
        match
          m x (fun y =>
                 if Nat.ltb (length (remaining y)) (length (remaining x))
                    || Nat.ltb count lo
                 then repeatMatcher m lo hi k fuel' (S count) y
                 else None)
        with
        | Some z => Some z
        | None => stop
        end
  end.

Fixpoint matcher (icase : bool) (r : regex) (x : MatchState) (k : Continuation)
  {struct r} : option MatchState :=
  match r with
  | Empty => k x
  | Char c => charMatcher (charEq icase c) x k
  | Class p => charMatcher p x k
  | Seq r1 r2 => matcher icase r1 x (fun y => matcher icase r2 y k)
  | Alt r1 r2 =>
      match matcher icase r1 x k with
      | Some z => Some z
      | None => matcher icase r2 x k
      end
  | Quant lo hi r1 =>
      repeatMatcher (matcher icase r1) lo hi k (S (lo + length (remaining x))) O x
  | Group i r1 => matcher icase r1 x (fun y => k (setCapture i (between x y) y))
  | WordBoundary => if atBoundary x then k x else None
  end.

(** One attempt at the position between [before] and [s]. *)
Definition matchAt (icase : bool) (r : regex) (before s : list ascii)
  : option MatchState :=
  matcher icase r (mkState before s []) Some.

(** [RegExp.prototype.exec] without the [g] flag: the leftmost position
    at which the pattern matches. *)
Fixpoint searchFrom (icase : bool) (r : regex) (before s : list ascii)
  : option MatchState :=
  match matchAt icase r before s with
  | Some y => Some y
  | None =>
      match s with
      | [] => None
      | c :: s' => searchFrom icase r (c :: before) s'
      end
  end.

(** [s.match(re)] for a pattern without the [g] flag. *)
Definition exec (icase : bool) (r : regex) (s : list ascii) : option MatchState :=
  searchFrom icase r [] s.

Definition test (icase : bool) (r : regex) (s : list ascii) : bool :=
  match exec icase r s with
  | Some _ => true
  | None => false
  end.

(** [m[i]]: the most recent capture of group [i], [None] for undefined. *)
Fixpoint lookup (i : nat) (cs : list (nat * list ascii)) : option (list ascii) :=
  match cs with
  | [] => None
  | (j, s) :: cs' => if Nat.eqb i j then Some s else lookup i cs'
  end.

Definition capture (i : nat) (y : MatchState) : option (list ascii) :=
  lookup i (captures y).

(** [s.replace(re, repl)] for a pattern with the [g] flag and a literal
    replacement: every match, left to right without overlap, is replaced;
    after an empty match one code unit is copied. *)
Fixpoint replaceLoop (icase : bool) (r : regex) (repl : list ascii) (fuel : nat)
  (before s : list ascii) : list ascii :=
  match fuel with
  | O => s
  | S fuel' =>
      match matchAt icase r before s with
      | Some y =>
          if Nat.ltb (length (remaining y)) (length s)
          then repl ++ replaceLoop icase r repl fuel' (consumed y) (remaining y)
          else
            match s with
            | [] => repl
            | c :: s' => repl ++ c :: replaceLoop icase r repl fuel' (c :: before) s'
            end
      | None =>
          match s with
          | [] => []
          | c :: s' => c :: replaceLoop icase r repl fuel' (c :: before) s'
          end
      end
  end.

Definition replaceAll (icase : bool) (r : regex) (repl s : list ascii) : list ascii :=
  replaceLoop icase r repl (S (length s)) [] s.

(** *** A relational reading of the patterns

    [Matches icase r x y]: the pattern [r] can take the matcher from the
    state [x] to the state [y].  The matcher only returns states the
    relation allows. *)

Inductive iterate (R : MatchState -> MatchState -> Prop)
  : nat -> MatchState -> MatchState -> Prop :=
| iterate_O x : iterate R O x x
| iterate_S n x y z : R x y -> iterate R n y z -> iterate R (S n) x z.

Definition within (hi : option nat) (n : nat) : Prop :=
  match hi with
  | Some h => (n <= h)%nat
  | None => True
  end.

#[warnings="-register-all"]
Inductive Matches (icase : bool) : regex -> MatchState -> MatchState -> Prop :=
| Matches_Empty x : Matches icase Empty x x
| Matches_Char c x d rest :
    remaining x = d :: rest -> charEq icase c d = true ->
    Matches icase (Char c) x (step x d rest)
| Matches_Class p x d rest :
    remaining x = d :: rest -> p d = true ->
    Matches icase (Class p) x (step x d rest)
| Matches_Seq r1 r2 x y z :
    Matches icase r1 x y -> Matches icase r2 y z -> Matches icase (Seq r1 r2) x z
| Matches_AltL r1 r2 x y : Matches icase r1 x y -> Matches icase (Alt r1 r2) x y
| Matches_AltR r1 r2 x y : Matches icase r2 x y -> Matches icase (Alt r1 r2) x y
| Matches_Quant lo hi r n x y :
    iterate (Matches icase r) n x y -> (lo <= n)%nat -> within hi n ->
    Matches icase (Quant lo hi r) x y
| Matches_Group i r x y :
    Matches icase r x y -> Matches icase (Group i r) x (setCapture i (between x y) y)
| Matches_WordBoundary x : atBoundary x = true -> Matches icase WordBoundary x x.

(** From [x] to [y] the matcher passed over the text [pre]. *)
Definition spans (x y : MatchState) (pre : list ascii) : Prop :=
  remaining x = pre ++ remaining y /\ consumed y = rev pre ++ consumed x.

(** *** What the matcher does on the simple shapes *)

(** The state [n] code units after [x]. *)
Definition advance (x : MatchState) (n : nat) : MatchState :=
  mkState (rev (firstn n (remaining x)) ++ consumed x) (skipn n (remaining x))
    (captures x).

(** [s] starts with the word [w], compared as the literals of a pattern are. *)
Fixpoint startsWithLit (icase : bool) (w s : list ascii) : bool :=
  match w, s with
  | [], _ => true
  | _ :: _, [] => false
  | c :: w', d :: s' => charEq icase c d && startsWithLit icase w' s'
  end.

(** The quantifier [{lo,hi}] over the class [p], by recursion on the input:
    as many code units of the class as allowed, one fewer each time the
    rest of the pattern refuses. *)
Fixpoint greedyRun (p : ascii -> bool) (lo : nat) (hi : option nat)
  (k : Continuation) (caps : list (nat * list ascii)) (count : nat)
  (before s : list ascii) : option MatchState :=
  let stop := if Nat.leb lo count then k (mkState before s caps) else None in
  if reached hi count then stop
  else
    match s with
    | c :: s' =>
        if p c then
          match greedyRun p lo hi k caps (S count) (c :: before) s' with
          | Some z => Some z
          | None => stop
          end
        else stop
    | [] => stop
    end.

(** The longest prefix of [s] in the class [p], and what follows it. *)
Fixpoint takeWhile (p : ascii -> bool) (s : list ascii) : list ascii :=
  match s with
  | c :: s' => if p c then c :: takeWhile p s' else []
  | [] => []
  end.

Fixpoint dropWhile (p : ascii -> bool) (s : list ascii) : list ascii :=
  match s with
  | c :: s' => if p c then dropWhile p s' else s
  | [] => []
  end.

(** The alternatives [w1|w2|...] of plain words: the first word that the
    input starts with and after which the rest of the pattern succeeds. *)
Fixpoint tryWords (icase : bool) (ws : list (list ascii)) (x : MatchState)
  (k : Continuation) : option MatchState :=
  match ws with
  | [] => None
  | w :: ws' =>
      match
        (if startsWithLit icase w (remaining x)
         then k (advance x (length w)) else None)
      with
      | Some z => Some z
      | None => tryWords icase ws' x k
      end
  end.

Definition isLetter (c : ascii) : bool := isUpper c || isLower c.

(** The text [t] is the word [w], compared as the literals of a pattern. *)
Definition sameWord (icase : bool) (w t : list ascii) : bool :=
  startsWithLit icase w t && Nat.eqb (length t) (length w).

Definition isKeyword (icase : bool) (ws : list (list ascii)) (t : list ascii) : bool :=
  existsb (fun w => sameWord icase w t) ws.

(** The word at the start of [s]: its longest prefix of word characters. *)
Definition wordRun (s : list ascii) : list ascii := takeWhile isWordChar s.

Definition wordHead (s : list ascii) : bool :=
  match s with
  | c :: _ => isWordChar c
  | [] => false
  end.

(** A whole word of the list [ws] stands at the position between [before]
    and [s]: no word character precedes it, and the word run ahead is one of
    the words. *)
Definition wholeWordAt (ws : list (list ascii)) (before s : list ascii) : bool :=
  negb (wordHead before) && isKeyword true ws (wordRun s).

(** None of the words [ws] stands as a whole word anywhere in [s], read
    after the text [before] (most recent code unit first). *)
Definition noWholeWord (ws : list (list ascii)) (before s : list ascii) : Prop :=
  forall p q, s = p ++ q -> wholeWordAt ws (rev p ++ before) q = false.

(** Every match of the pattern starts with a letter. *)
Fixpoint firstLetter (r : regex) : bool :=
  match r with
  | Char c => isLetter c
  | Seq r1 _ => firstLetter r1
  | Alt r1 r2 => firstLetter r1 && firstLetter r2
  | Group _ r1 => firstLetter r1
  | _ => false
  end.

End RegExp.

(** ** Exceptions *)

Inductive Exception : Type := RangeError.

Inductive Result (A : Type) : Type :=
| Ok (a : A)
| Throw (e : Exception).

Arguments Ok {A} a.
Arguments Throw {A} e.

Definition bind {A B : Type} (m : Result A) (f : A -> Result B) : Result B :=
  match m with
  | Ok a => f a
  | Throw e => Throw e
  end.

Notation "x <- m ;; k" := (bind m (fun x => k))
  (at level 61, m at next level, right associativity).

(** ** Dates *)

Module JSDate.
Open Scope Z_scope.

(** A time value, in days since the epoch; [None] is the invalid date. *)
Definition t := option Z.

(** A time value is at most 8.64e15 ms, that is 100,000,000 days, away
    from the epoch. *)
Definition maxDay : Z := 100000000.

Definition TimeClip (d : Z) : t :=
  if Z.abs d <=? maxDay then Some d else None.

Definition DaysInYear (y : Z) : Z :=
  if (y mod 4 =? 0) && (negb (y mod 100 =? 0) || (y mod 400 =? 0))
  then 366 else 365.

Definition DayFromYear (y : Z) : Z :=
  365 * (y - 1970) + (y - 1969) / 4 - (y - 1901) / 100 + (y - 1601) / 400.

(** The year [y] with [DayFromYear y <= d < DayFromYear (y + 1)]: an
    estimate from the mean length of a year, corrected by one. *)
Definition YearFromTime (d : Z) : Z :=
  let y0 := 1970 + (400 * d) / 146097 in
  if d <? DayFromYear y0 then y0 - 1
  else if DayFromYear (y0 + 1) <=? d then y0 + 1
  else y0.

Definition leapDays (y : Z) : Z := DaysInYear y - 365.

Definition InLeapYear (d : Z) : Z := leapDays (YearFromTime d).

Definition DayWithinYear (d : Z) : Z := d - DayFromYear (YearFromTime d).

(** Days of the year before the first of month [m] (0 is January). *)
Definition monthStart (leap m : Z) : Z :=
  if m <=? 0 then 0
  else if m =? 1 then 31
  else if m =? 2 then 59 + leap
  else if m =? 3 then 90 + leap
  else if m =? 4 then 120 + leap
  else if m =? 5 then 151 + leap
  else if m =? 6 then 181 + leap
  else if m =? 7 then 212 + leap
  else if m =? 8 then 243 + leap
  else if m =? 9 then 273 + leap
  else if m =? 10 then 304 + leap
  else 334 + leap.

Definition MonthFromTime (d : Z) : Z :=
  let w := DayWithinYear d in
  let leap := InLeapYear d in
  if w <? 31 then 0
  else if w <? 59 + leap then 1
  else if w <? 90 + leap then 2
  else if w <? 120 + leap then 3
  else if w <? 151 + leap then 4
  else if w <? 181 + leap then 5
  else if w <? 212 + leap then 6
  else if w <? 243 + leap then 7
  else if w <? 273 + leap then 8
  else if w <? 304 + leap then 9
  else if w <? 334 + leap then 10
  else 11.

Definition DateFromTime (d : Z) : Z :=
  DayWithinYear d - monthStart (InLeapYear d) (MonthFromTime d) + 1.

(** 1970-01-01 was a Thursday; 0 is Sunday. *)
Definition WeekDay (d : Z) : Z := (d + 4) mod 7.

(** The day number of [date] in month [month] of [year]; months outside
    0..11 carry into the year, days outside the month into the months. *)
Definition MakeDay (year month date : Z) : Z :=
  let ym := year + month / 12 in
  let mn := month mod 12 in
  DayFromYear ym + monthStart (leapDays ym) mn + date - 1.

(** Years 0..99 of the constructor mean 1900..1999. *)
Definition MakeFullYear (y : Z) : Z :=
  if (0 <=? y) && (y <=? 99) then 1900 + y else y.

(** [new Date(year, month, date)]. *)
Definition create (year month date : Z) : t :=
  TimeClip (MakeDay (MakeFullYear year) month date).

Definition getFullYear (d : Z) : Z := YearFromTime d.
Definition getDate (d : Z) : Z := DateFromTime d.
Definition getDay (d : Z) : Z := WeekDay d.

(** [d.setDate(dt)] on a valid date. *)
Definition setDate (d dt : Z) : t :=
  TimeClip (MakeDay (YearFromTime d) (MonthFromTime d) dt).

(** [d.setFullYear(y)] on a valid date. *)
Definition setFullYear (d y : Z) : t :=
  TimeClip (MakeDay y (MonthFromTime d) (DateFromTime d)).

(** [d.toISOString()]: the ISO text of midnight of the day, which the day
    number stands for; the invalid date raises. *)
Definition toISOString (d : t) : Result Z :=
  match d with
  | Some z => Ok z
  | None => Throw RangeError
  end.

End JSDate.

(** ** The parser *)

Module Parser.
Import JSString RegExp JSDate.
Open Scope string_scope.
Open Scope Z_scope.

Inductive Category : Type := Work | Personal | Health | Finance | Shopping | Other.
Inductive Priority : Type := High | Medium | Low.
Inductive Recurring : Type := none | daily | weekly | monthly.

(** The object [parseNaturalLanguage] returns.  [dueDate] is the day whose
    midnight the ISO string denotes, [dueTime] the text ["HH:MM"]. *)
Record ParseResult : Type := mkResult {
  title : list ascii;
  category : Category;
  priority : Priority;
  dueDate : option Z;
  dueTime : option (list ascii);
  recurring : Recurring
}.

(** [keywords.some(keyword => lowerText.includes(keyword))] *)
Definition some (keywords : list string) (lowerText : list ascii) : bool :=
  existsb (fun keyword : string => includes lowerText keyword) keywords.

(** *** 1. Category detection *)

Definition categoryKeywords : list (Category * list string) :=
  [ (Work, ["meeting"; "presentation"; "report"; "project"; "client";
            "deadline"; "email"; "call"; "conference"]);
    (Personal, ["birthday"; "anniversary"; "family"; "friend"; "party";
                "dinner"; "lunch"; "movie"]);
    (Health, ["doctor"; "dentist"; "gym"; "workout"; "exercise"; "medicine";
              "appointment"; "health"; "hospital"]);
    (Finance, ["pay"; "bill"; "rent"; "mortgage"; "tax"; "invoice"; "budget";
               "bank"; "payment"]);
    (Shopping, ["buy"; "purchase"; "shop"; "store"; "grocery"; "groceries";
                "mall"; "order"; "get"]) ].

(** The [for ... of Object.entries(categoryKeywords)] loop with its [break]. *)
Fixpoint categoryLoop (entries : list (Category * list string))
  (lowerText : list ascii) : Category :=
  match entries with
  | [] => Other
  | (cat, keywords) :: rest =>
      if some keywords lowerText then cat else categoryLoop rest lowerText
  end.

Definition detectCategory (lowerText : list ascii) : Category :=
  categoryLoop categoryKeywords lowerText.

(** *** 2. Priority detection *)

Definition highPriorityKeywords : list string :=
  ["urgent"; "asap"; "important"; "critical"; "immediately"; "priority"; "must"].

Definition lowPriorityKeywords : list string :=
  ["maybe"; "someday"; "eventually"; "when possible"; "if time"].

Definition detectPriority (lowerText : list ascii) : Priority :=
  if some highPriorityKeywords lowerText then High
  else if some lowPriorityKeywords lowerText then Low
  else Medium.

(** *** 3. Date parsing *)

(** [const d = new Date(today); d.setDate(d.getDate() + n); d.toISOString()] *)
Definition plusDays (today n : Z) : Result Z :=
  toISOString (setDate today (getDate today + n)).

(** [(6 - today.getDay() + 7) % 7 || 7]; [%] truncates. *)
Definition daysUntilSaturday (today : Z) : Z :=
  let r := Z.rem (6 - getDay today + 7) 7 in
  if r =? 0 then 7 else r.

Definition days : list string :=
  ["sunday"; "monday"; "tuesday"; "wednesday"; "thursday"; "friday"; "saturday"].

(** [daysToAdd] of the weekday loop for the name at index [targetDay]. *)
Definition daysToAdd (today targetDay : Z) : Z :=
  let currentDay := getDay today in
  let r := Z.rem (targetDay - currentDay + 7) 7 in
  if r =? 0 then 7 else r.

(** The [for (let i = 0; i < days.length; i++)] loop from index [i] on,
    over the names from that index; it leaves at the first name found. *)
Fixpoint weekdayLoop (today : Z) (lowerText : list ascii) (names : list string)
  (i : Z) : Result (option Z) :=
  match names with
  | [] => Ok None
  | name :: rest =>
      if includes lowerText name then
        iso <- plusDays today (daysToAdd today i) ;;
        Ok (Some iso)
      else weekdayLoop today lowerText rest (i + 1)
  end.

(** The [if / else if] chain of the relative phrases (lines 102-139);
    [dueDate] starts as [null]. *)
Definition relativeDate (today : Z) (lowerText : list ascii) : Result (option Z) :=
  if includes lowerText "tomorrow" then
    iso <- plusDays today 1 ;; Ok (Some iso)
  else if includes lowerText "today" then
    iso <- toISOString (Some today) ;; Ok (Some iso)
  else if includes lowerText "next week" then
    iso <- plusDays today 7 ;; Ok (Some iso)
  else if includes lowerText "weekend" || includes lowerText "saturday"
          || includes lowerText "sunday" then
    iso <- plusDays today (daysUntilSaturday today) ;; Ok (Some iso)
  else weekdayLoop today lowerText days 0.

(** [m[i]] of a match in which group [i] took part. *)
Definition group (i : nat) (m : MatchState) : list ascii :=
  match capture i m with
  | Some s => s
  | None => []
  end.

(** [/in (\d+) days?/] *)
Definition inDaysPattern : regex :=
  Seq (lit "in ") (Seq (Group 1 (plus digit)) (Seq (lit " day") (opt (Char "s")))).

Definition inDaysMatch (lowerText : list ascii) : option MatchState :=
  exec false inDaysPattern lowerText.

(** Lines 142-148: a match replaces [dueDate]. *)
Definition inDaysRule (today : Z) (lowerText : list ascii) (dueDate : option Z)
  : Result (option Z) :=
  match inDaysMatch lowerText with
  | Some m =>
      let n := parseInt (group 1 m) in
      iso <- plusDays today (Z.of_N n) ;;
      Ok (Some iso)
  | None => Ok dueDate
  end.

Definition isSlashOrHyphen (c : ascii) : bool :=
  Ascii.eqb c "/" || Ascii.eqb c "-".

(** [/(\d{1,2})[/-](\d{1,2})/] *)
Definition datePattern : regex :=
  Seq (Group 1 (Quant 1 (Some 2%nat) digit))
    (Seq (Class isSlashOrHyphen) (Group 2 (Quant 1 (Some 2%nat) digit))).

Definition dateMatch (text : list ascii) : option MatchState :=
  exec false datePattern text.

(** Lines 153-159 for the captured numbers [m] and [d]: the date in the
    current year, moved one year on when it lies before today. *)
Definition specificDate (today : Z) (m d : N) : Result Z :=
  let month := Z.of_N m - 1 in
  let day := Z.of_N d in
  let specific := create (getFullYear today) month day in
  let specific :=
    match specific with
    | Some sd => if sd <? today then setFullYear sd (getFullYear sd + 1) else Some sd
    | None => None
    end in
  toISOString specific.

Definition specificDateRule (today : Z) (text : list ascii) (dueDate : option Z)
  : Result (option Z) :=
  match dateMatch text with
  | Some m =>
      iso <- specificDate today (parseInt (group 1 m)) (parseInt (group 2 m)) ;;
      Ok (Some iso)
  | None => Ok dueDate
  end.

Definition extractDate (today : Z) (text lowerText : list ascii) : Result (option Z) :=
  dueDate <- relativeDate today lowerText ;;
  dueDate <- inDaysRule today lowerText dueDate ;;
  specificDateRule today text dueDate.

(** *** 4. Time parsing *)

(** [/(\d{1,2})(?::(\d{2}))?\s*(am|pm)/i] *)
Definition time12Pattern : regex :=
  Seq (Group 1 (Quant 1 (Some 2%nat) digit))
    (Seq (opt (Seq (Char ":") (Group 2 (Quant 2 (Some 2%nat) digit))))
       (Seq (star space) (Group 3 (words "am" ["pm"])))).

(** [/(\d{1,2}):(\d{2})/] *)
Definition time24Pattern : regex :=
  Seq (Group 1 (Quant 1 (Some 2%nat) digit))
    (Seq (Char ":") (Group 2 (Quant 2 (Some 2%nat) digit))).

(** [`${hours.toString().padStart(2, '0')}:${minutes.toString().padStart(2, '0')}`] *)
Definition formatTime (hours minutes : N) : list ascii :=
  padStart2 (numberToString hours) ++ ":" ++ padStart2 (numberToString minutes).

(** Lines 170-177 for a match of the 12-hour pattern. *)
Definition time12 (m : MatchState) : list ascii :=
  let hours := parseInt (group 1 m) in
  let minutes :=
    match capture 2 m with
    | Some ((_ :: _) as s) => parseInt s
    | _ => 0%N
    end in
  let meridiem := toLowerCase (group 3 m) in
  let hours :=
    if JSString.eqb meridiem "pm" && negb (N.eqb hours 12) then (hours + 12)%N
    else hours in
  let hours :=
    if JSString.eqb meridiem "am" && N.eqb hours 12 then 0%N else hours in
  formatTime hours minutes.

(** Lines 183-187 for a match of the 24-hour pattern. *)
Definition time24 (m : MatchState) (dueTime : option (list ascii))
  : option (list ascii) :=
  let hours := parseInt (group 1 m) in
  let minutes := parseInt (group 2 m) in
  if N.leb 0 hours && N.ltb hours 24 && N.leb 0 minutes && N.ltb minutes 60
  then Some (formatTime hours minutes)
  else dueTime.

(** Lines 191-196: the word-based times replace [dueTime]. *)
Definition wordTime (lowerText : list ascii) (dueTime : option (list ascii))
  : option (list ascii) :=
  if includes lowerText "noon" then Some ("12:00" : list ascii)
  else if includes lowerText "midnight" then Some ("00:00" : list ascii)
  else if includes lowerText "morning" then Some ("09:00" : list ascii)
  else if includes lowerText "afternoon" then Some ("14:00" : list ascii)
  else if includes lowerText "evening" then Some ("18:00" : list ascii)
  else if includes lowerText "night" then Some ("20:00" : list ascii)
  else dueTime.

(** The numeric patterns, lines 165-188. *)
Definition numericTime (text : list ascii) : option (list ascii) :=
  let dueTime := None in
  let time12Match := exec true time12Pattern text in
  let dueTime :=
    match time12Match with
    | Some m => Some (time12 m)
    | None => dueTime
    end in
  let time24Match := exec false time24Pattern text in
  match time24Match, time12Match with
  | Some m, None => time24 m dueTime
  | _, _ => dueTime
  end.

Definition extractTime (text lowerText : list ascii) : option (list ascii) :=
  wordTime lowerText (numericTime text).

(** *** 5. Recurring pattern detection *)

Definition detectRecurring (lowerText : list ascii) : Recurring :=
  if includes lowerText "every day" || includes lowerText "daily" then daily
  else if includes lowerText "every week" || includes lowerText "weekly" then weekly
  else if includes lowerText "every month" || includes lowerText "monthly" then monthly
  else none.

(** *** 6. Clean title *)

Definition bounded (r : regex) : regex := Seq WordBoundary (Seq r WordBoundary).

(** A group of plain words between two word boundaries. *)
Definition wordGroup (w : list ascii) (ws : list (list ascii)) : regex :=
  bounded (Group 1 (alts (lit w) (map lit ws))).

(** [/\b(urgent|asap|important|critical|immediately|priority)\b/gi] *)
Definition priorityWords : regex :=
  bounded (Group 1
    (words "urgent" ["asap"; "important"; "critical"; "immediately"; "priority"])).

(** [/\b(tomorrow|today|next week|this weekend|in \d+ days?)\b/gi] *)
Definition dateWords : regex :=
  bounded (Group 1
    (alts (lit "tomorrow")
       [lit "today"; lit "next week"; lit "this weekend";
        Seq (lit "in ") (Seq (plus digit) (Seq (lit " day") (opt (Char "s"))))])).

(** [/\d{1,2}:\d{2}\s*(am|pm)?/gi] *)
Definition clockTimes : regex :=
  Seq (Quant 1 (Some 2%nat) digit)
    (Seq (Char ":")
       (Seq (Quant 2 (Some 2%nat) digit)
          (Seq (star space) (opt (Group 1 (words "am" ["pm"])))))).

(** [/\d{1,2}\s*(am|pm)/gi] *)
Definition meridiemTimes : regex :=
  Seq (Quant 1 (Some 2%nat) digit) (Seq (star space) (Group 1 (words "am" ["pm"]))).

(** [/\bat\s+/gi] and [/\bon\s+/gi] *)
Definition atWord : regex := Seq WordBoundary (Seq (lit "at") (plus space)).
Definition onWord : regex := Seq WordBoundary (Seq (lit "on") (plus space)).

(** [/\b(every day|daily|every week|weekly|every month|monthly)\b/gi] *)
Definition recurringWords : regex :=
  bounded (Group 1
    (words "every day" ["daily"; "every week"; "weekly"; "every month"; "monthly"])).

(** The chain of [replace] calls of lines 210-217. *)
Definition removeKeywords (text : list ascii) : list ascii :=
  let s := replaceAll true priorityWords [] text in
  let s := replaceAll true dateWords [] s in
  let s := replaceAll true clockTimes [] s in
  let s := replaceAll true meridiemTimes [] s in
  let s := replaceAll true atWord [] s in
  let s := replaceAll true onWord [] s in
  replaceAll true recurringWords [] s.

(** [.replace(/\s+/g, ' ').trim()] *)
Definition collapse (s : list ascii) : list ascii :=
  trim (replaceAll false (plus space) " " s).

(** [title.charAt(0).toUpperCase() + title.slice(1)] *)
Definition capitalize (s : list ascii) : list ascii :=
  toUpperCase (charAt0 s) ++ slice1 s.

Definition cleanTitle (text : list ascii) : list ascii :=
  capitalize (collapse (removeKeywords text)).

(** *** The parser, for the clock reading [today] *)

Definition parseNaturalLanguage (today : Z) (text : list ascii) : Result ParseResult :=
  let lowerText := toLowerCase text in
  let category := detectCategory lowerText in
  let priority := detectPriority lowerText in
  dueDate <- extractDate today text lowerText ;;
  let dueTime := extractTime text lowerText in
  let recurring := detectRecurring lowerText in
  let title := cleanTitle text in
  Ok (mkResult title category priority dueDate dueTime recurring).

End Parser.

(** ** Words of the specification

    The rule tables below follow the text of the specification; the theorems
    compare them with the code above. *)

Module Spec.
Import JSString JSDate Parser.
Open Scope string_scope.
Open Scope Z_scope.

(** The reading of the system clock: at or after the epoch and well
    before the end of the range of time values. *)
Definition clock (today : Z) : Prop := 0 <= today <= maxDay - 4000.

(** A relative-phrase rule: the phrases that trigger it and the days it
    adds to today. *)
Definition Rule : Type := (list string * Z)%type.

Definition triggers (lowerText : list ascii) (r : Rule) : bool :=
  some (fst r) lowerText.

(** Rules 1-5 of the date extractor in their declared order; rule 5 is one
    entry per weekday name, in index order. *)
Definition relativeRules (today : Z) : list Rule :=
  [ (["tomorrow"], 1);
    (["today"], 0);
    (["next week"], 7);
    (["weekend"; "saturday"; "sunday"], daysUntilSaturday today);
    (["sunday"], daysToAdd today 0);
    (["monday"], daysToAdd today 1);
    (["tuesday"], daysToAdd today 2);
    (["wednesday"], daysToAdd today 3);
    (["thursday"], daysToAdd today 4);
    (["friday"], daysToAdd today 5);
    (["saturday"], daysToAdd today 6) ].

(** First-match-wins and last-match-wins over an ordered rule list. *)
Definition firstMatching (rules : list Rule) (lowerText : list ascii) : option Rule :=
  find (triggers lowerText) rules.

Definition lastMatching (rules : list Rule) (lowerText : list ascii) : option Rule :=
  find (triggers lowerText) (rev rules).

Definition dateOf (today : Z) (r : option Rule) : option Z :=
  option_map (fun r => today + snd r) r.

(** The word-based times in their declared order. *)
Definition wordTimes : list (string * string) :=
  [ ("noon", "12:00"); ("midnight", "00:00"); ("morning", "09:00");
    ("afternoon", "14:00"); ("evening", "18:00"); ("night", "20:00") ].

Definition firstWordTime (lowerText : list ascii) : option (string * string) :=
  find (fun p : string * string => includes lowerText (fst p)) wordTimes.

(** The single words that the removal patterns of the title list. *)
Definition removedWords : list (list ascii) :=
  map list_ascii_of_string
    ["urgent"; "asap"; "important"; "critical"; "immediately"; "priority";
     "tomorrow"; "today"; "daily"; "weekly"; "monthly"].

Definition digitFree (s : list ascii) : Prop :=
  Forall (fun c => isDigit c = false) s.

(** A well-formed 24-hour time: ["HH:MM"] with HH below 24 and MM below 60. *)
Definition wellFormedTime (s : list ascii) : Prop :=
  exists h m : N, (h < 24)%N /\ (m < 60)%N /\ s = formatTime h m.

(** The offset to the coming day of the week [target], a full week when
    today is that day. *)
Definition offsetTo (today target : Z) : Z :=
  let o := (target - WeekDay today + 7) mod 7 in
  if o =? 0 then 7 else o.

End Spec.

(** ** The task list of the component

    The state of [App] and its event handlers (App.js, lines 32-37 and
    237-392).  A handler reads the state of the render it belongs to and
    sets the next one, so it is a function from state to state; the clock
    readings it makes are parameters. *)

Module App.
Import JSString JSDate Parser.
Open Scope string_scope.
Open Scope Z_scope.

(** A task: the parser's result spread between [id] and the two fields
    that [handleAddTask] adds.  [id] and [createdAt] are clock readings in
    milliseconds. *)
Record Task : Type := mkTask {
  id : Z;
  title : list ascii;
  category : Category;
  priority : Priority;
  dueDate : option Z;
  dueTime : option (list ascii);
  recurring : Recurring;
  completed : bool;
  createdAt : Z
}.

(** One field for each [useState]. *)
Record State : Type := mkApp {
  tasks : list Task;
  inputText : list ascii;
  filter : list ascii;
  sortBy : list ascii;
  editingTask : option Z;
  editText : list ascii
}.

Definition initial : State := mkApp [] [] "all" "date" None [].

Definition setTasks (v : list Task) (s : State) : State :=
  mkApp v (inputText s) (filter s) (sortBy s) (editingTask s) (editText s).

Definition setInputText (v : list ascii) (s : State) : State :=
  mkApp (tasks s) v (filter s) (sortBy s) (editingTask s) (editText s).

Definition setFilter (v : list ascii) (s : State) : State :=
  mkApp (tasks s) (inputText s) v (sortBy s) (editingTask s) (editText s).

Definition setSortBy (v : list ascii) (s : State) : State :=
  mkApp (tasks s) (inputText s) (filter s) v (editingTask s) (editText s).

Definition setEditingTask (v : option Z) (s : State) : State :=
  mkApp (tasks s) (inputText s) (filter s) (sortBy s) v (editText s).

Definition setEditText (v : list ascii) (s : State) : State :=
  mkApp (tasks s) (inputText s) (filter s) (sortBy s) (editingTask s) v.

(** [!s] on a string: the empty string is the only falsy one. *)
Definition isEmpty (s : list ascii) : bool :=
  match s with
  | [] => true
  | _ :: _ => false
  end.

(** [{ id: Date.now(), ...parsedData, completed: false, createdAt }] *)
Definition newTask (now created : Z) (parsedData : ParseResult) : Task :=
  mkTask now (Parser.title parsedData) (Parser.category parsedData)
    (Parser.priority parsedData) (Parser.dueDate parsedData)
    (Parser.dueTime parsedData) (Parser.recurring parsedData) false created.

(** [handleAddTask], lines 237-251.  [today] is the day the parser reads
    from the clock, [now] the reading of [Date.now()] and [created] that of
    the last [new Date()].  When the parser raises no state is set. *)
Definition handleAddTask (today now created : Z) (s : State) : Result State :=
  if isEmpty (trim (inputText s)) then Ok s
  else
    parsedData <- parseNaturalLanguage today (inputText s) ;;
    Ok (setInputText [] (setTasks (tasks s ++ [newTask now created parsedData]) s)).

(** [handleKeyPress], lines 256-260, for the key [e.key]. *)
Definition handleKeyPress (today now created : Z) (key : list ascii) (s : State)
  : Result State :=
  if JSString.eqb key "Enter" && negb (isEmpty (trim (inputText s)))
  then handleAddTask today now created s
  else Ok s.

(** [startEdit], lines 265-268. *)
Definition startEdit (task : Task) (s : State) : State :=
  setEditText (title task) (setEditingTask (Some (id task)) s).

(** [{ ...task, title: v }] *)
Definition withTitle (v : list ascii) (task : Task) : Task :=
  mkTask (id task) v (category task) (priority task) (dueDate task)
    (dueTime task) (recurring task) (completed task) (createdAt task).

(** [{ ...task, completed: v }] *)
Definition withCompleted (v : bool) (task : Task) : Task :=
  mkTask (id task) (title task) (category task) (priority task) (dueDate task)
    (dueTime task) (recurring task) v (createdAt task).

(** [task.id === editingTask]; [editingTask] is [null] or an id. *)
Definition isEditing (editingTask : option Z) (task : Task) : bool :=
  match editingTask with
  | Some e => id task =? e
  | None => false
  end.

(** [saveEdit], lines 273-283. *)
Definition saveEdit (s : State) : State :=
  if isEmpty (trim (editText s)) then s
  else
    setEditText []
      (setEditingTask None
         (setTasks
            (map (fun task =>
                    if isEditing (editingTask s) task
                    then withTitle (trim (editText s)) task
                    else task)
               (tasks s))
            s)).

(** [cancelEdit], lines 288-291. *)
Definition cancelEdit (s : State) : State :=
  setEditText [] (setEditingTask None s).

(** [toggleComplete], lines 296-300. *)
Definition toggleComplete (i : Z) (s : State) : State :=
  setTasks
    (map (fun task =>
            if id task =? i then withCompleted (negb (completed task)) task
            else task)
       (tasks s))
    s.

(** [deleteTask], lines 305-307. *)
Definition deleteTask (i : Z) (s : State) : State :=
  setTasks (List.filter (fun task => negb (id task =? i)) (tasks s)) s.

(** [getFilteredTasks], lines 312-316. *)
Definition getFilteredTasks (s : State) : list Task :=
  if JSString.eqb (filter s) "active"
  then List.filter (fun t => negb (completed t)) (tasks s)
  else if JSString.eqb (filter s) "completed"
  then List.filter (fun t => completed t) (tasks s)
  else tasks s.

(** [const order = { High: 0, Medium: 1, Low: 2 }] *)
Definition order (p : Priority) : Z :=
  match p with
  | High => 0
  | Medium => 1
  | Low => 2
  end.

Definition msPerDay : Z := 86400000.

(** The comparison function of [getSortedTasks], lines 324-336.  The
    difference of two dates is that of their time values in milliseconds;
    [localeCompare] is the collation of the host. *)
Definition compareTasks (localeCompare : Category -> Category -> Z)
  (sortBy : list ascii) (a b : Task) : Z :=
  if JSString.eqb sortBy "date" then
    match dueDate a with
    | None => 1
    | Some da =>
        match dueDate b with
        | None => -1
        | Some db => da * msPerDay - db * msPerDay
        end
    end
  else if JSString.eqb sortBy "priority" then order (priority a) - order (priority b)
  else if JSString.eqb sortBy "category" then localeCompare (category a) (category b)
  else 0.

(** [Array.prototype.sort] is stable, and for a comparison function that is
    consistent on the elements its result is the one stable sorting of
    them; it is computed here by insertion, an element going before the
    first one it does not compare greater than.  For other comparison
    functions the order is the engine's own. *)
Fixpoint insert {A : Type} (comparefn : A -> A -> Z) (x : A) (l : list A) : list A :=
  match l with
  | [] => [x]
  | y :: l' => if 0 <? comparefn x y then y :: insert comparefn x l' else x :: l
  end.

Fixpoint sort {A : Type} (comparefn : A -> A -> Z) (l : list A) : list A :=
  match l with
  | [] => []
  | x :: l' => insert comparefn x (sort comparefn l')
  end.

(** [getSortedTasks], lines 321-337. *)
Definition getSortedTasks (localeCompare : Category -> Category -> Z) (s : State)
  : list Task :=
  let filtered := getFilteredTasks s in
  sort (compareTasks localeCompare (sortBy s)) filtered.

Definition monthNames : list string :=
  ["Jan"; "Feb"; "Mar"; "Apr"; "May"; "Jun";
   "Jul"; "Aug"; "Sep"; "Oct"; "Nov"; "Dec"].

(** [date.toLocaleDateString('en-US', { month: 'short', day: 'numeric',
    year: 'numeric' })] for a day of the common era, as in "Nov 2, 2026". *)
Definition toLocaleDateString (d : Z) : list ascii :=
  (nth (Z.to_nat (MonthFromTime d)) monthNames "Jan" : list ascii)
  ++ " " ++ numberToString (Z.to_N (DateFromTime d))
  ++ ", " ++ numberToString (Z.to_N (YearFromTime d)).

(** [formatDate], lines 342-357, on the day [today] of the clock.  The
    argument is [null] or the day that the ISO string denotes. *)
Definition formatDate (today : Z) (dateString : option Z) : option (list ascii) :=
  match dateString with
  | None => None
  | Some date =>
      let tomorrow := setDate today (getDate today + 1) in
      let taskDate := date in
      if taskDate =? today then Some ("Today" : list ascii)
      else if match tomorrow with
              | Some t => taskDate =? t
              | None => false
              end
      then Some ("Tomorrow" : list ascii)
      else Some (toLocaleDateString date)
  end.

(** [stats], lines 388-392. *)
Record Stats : Type := mkStats {
  total : nat;
  active : nat;
  done : nat
}.

Definition stats (s : State) : Stats :=
  mkStats (length (tasks s))
    (length (List.filter (fun t => negb (completed t)) (tasks s)))
    (length (List.filter (fun t => completed t) (tasks s))).

End App.

(** ** Notions for the properties of the parser and of the task list *)

Module Notions.
Import JSString RegExp JSDate Parser.
Open Scope string_scope.

(** The place of a category, a priority and a recurrence in the order in
    which the parser tries them; the default comes last. *)
Definition categoryRank (c : Category) : nat :=
  match c with
  | Work => 0
  | Personal => 1
  | Health => 2
  | Finance => 3
  | Shopping => 4
  | Other => 5
  end.

Definition priorityRank (p : Priority) : nat :=
  match p with
  | High => 0
  | Low => 1
  | Medium => 2
  end.

Definition recurringRank (r : Recurring) : nat :=
  match r with
  | daily => 0
  | weekly => 1
  | monthly => 2
  | none => 3
  end.

(** [u] is [t] with some characters left out. *)
Inductive Subseq : list ascii -> list ascii -> Prop :=
| Subseq_nil : Subseq [] []
| Subseq_keep c u t : Subseq u t -> Subseq (c :: u) (c :: t)
| Subseq_drop c u t : Subseq u t -> Subseq u (c :: t).

(** A white-space character as the space that stands for it. *)
Definition asSpace (c : ascii) : ascii :=
  if isWhiteSpace c then " "%char else c.

Definition headSpace (s : list ascii) : bool :=
  match s with
  | c :: _ => isWhiteSpace c
  | [] => false
  end.

(** No two white-space characters in a row. *)
Fixpoint noDoubleSpace (s : list ascii) : bool :=
  match s with
  | c :: ((d :: _) as s') =>
      negb (isWhiteSpace c && isWhiteSpace d) && noDoubleSpace s'
  | _ => true
  end.

(** A tidy line of text: no white space at either end, no white space but
    the space character, no two spaces in a row, and no lower-case letter
    in front. *)
Definition tidy (s : list ascii) : Prop :=
  trim s = s
  /\ Forall (fun c => isWhiteSpace c = true -> c = " "%char) s
  /\ noDoubleSpace s = true
  /\ match s with
     | c :: _ => isLower c = false
     | [] => True
     end.

(** The hour of the day of the hour [h] of a 12-hour clock. *)
Definition hours24 (h : N) (pm : bool) : N :=
  (N.modulo h 12 + if pm then 12 else 0)%N.

(** The minutes of a match of the 12-hour pattern, 0 without the group. *)
Definition minutesOf (m : MatchState) : N :=
  match capture 2 m with
  | Some s => parseInt s
  | None => 0%N
  end.

(** A pattern that reads a text and the same text in other letter case
    alike: with the [i] flag every pattern, without it one whose literal
    characters are no letters and whose classes do not tell the cases
    apart. *)
Fixpoint caseBlind (icase : bool) (f : ascii -> ascii) (r : regex) : Prop :=
  match r with
  | Empty | WordBoundary => True
  | Char c => icase = true \/ isLetter c = false
  | Class p => forall d, p (f d) = p d
  | Seq r1 r2 | Alt r1 r2 => caseBlind icase f r1 /\ caseBlind icase f r2
  | Quant _ _ r1 | Group _ r1 => caseBlind icase f r1
  end.

(** The matcher's state on the text in the other letter case. *)
Definition mapState (f : ascii -> ascii) (x : MatchState) : MatchState :=
  mkState (map f (consumed x)) (map f (remaining x))
    (map (fun c : nat * list ascii => (fst c, map f (snd c))) (captures x)).

(** The text starts with a letter. *)
Definition letterHead (s : list ascii) : bool :=
  match s with
  | c :: _ => isLetter c
  | [] => false
  end.

(** The match [m], found after [before] (most recent code unit first) and
    followed by [rest], stands apart from the letters around it: no letter
    stands directly before it, and none directly after it unless the match
    ends in a character that is no word character. *)
Definition apart (before m rest : list ascii) : bool :=
  negb (letterHead before) && (negb (wordHead (rev m)) || negb (letterHead rest)).

(** Every match that [replace] deletes in [s] stands apart; the loop is
    that of [replaceLoop]. *)
Fixpoint apartLoop (icase : bool) (r : regex) (fuel : nat) (before s : list ascii)
  : bool :=
  match fuel with
  | O => true
  | S fuel' =>
      match matchAt icase r before s with
      | Some y =>
          if Nat.ltb (length (remaining y)) (length s)
          then apart before (between (mkState before s []) y) (remaining y)
               && apartLoop icase r fuel' (consumed y) (remaining y)
          else
            match s with
            | [] => true
            | c :: s' => apartLoop icase r fuel' (c :: before) s'
            end
      | None =>
          match s with
          | [] => true
          | c :: s' => apartLoop icase r fuel' (c :: before) s'
          end
      end
  end.

Definition matchesApart (r : regex) (s : list ascii) : bool :=
  apartLoop true r (S (length s)) [] s.

(** The clock times that the two time patterns of the title delete stand
    apart from the letters around them, each in the text its pass works on. *)
Definition clockTimesApart (text : list ascii) : Prop :=
  let s := replaceAll true dateWords [] (replaceAll true priorityWords [] text) in
  matchesApart clockTimes s = true
  /\ matchesApart meridiemTimes (replaceAll true clockTimes [] s) = true.

(** A text of ASCII characters and white space: [toUpperCase] changes
    none of its characters but the letters a to z. *)
Definition asciiText (s : list ascii) : Prop :=
  Forall (fun c => N.ltb (code c) 128 || isWhiteSpace c = true) s.

(** The continuation [k'] does on a state in upper case what [k] does on
    the state. *)
Definition commutes (k' k : Continuation) : Prop :=
  forall y, k' (mapState toUpperChar y) = option_map (mapState toUpperChar) (k y).

End Notions.

(** * Properties *)

(** ** Calendar arithmetic *)

Module DateFacts.
Import JSDate.
Open Scope Z_scope.

Lemma DayFromYear_next y : 365 <= DayFromYear (y + 1) - DayFromYear y <= 366.
Proof. unfold DayFromYear. Z.div_mod_to_equations. lia. Qed.

Lemma DayFromYear_next_exact y : DayFromYear (y + 1) = DayFromYear y + DaysInYear y.
Proof.
  unfold DayFromYear, DaysInYear.
  destruct (Z.eqb_spec (y mod 4) 0); destruct (Z.eqb_spec (y mod 100) 0);
    destruct (Z.eqb_spec (y mod 400) 0); cbn [andb orb negb];
    Z.div_mod_to_equations; lia.
Qed.

Lemma DayFromYear_mono y1 y2 : y1 <= y2 -> DayFromYear y1 <= DayFromYear y2.
Proof. unfold DayFromYear. intros H. Z.div_mod_to_equations. lia. Qed.

Lemma DayFromYear_lt y1 y2 : y1 < y2 -> DayFromYear y1 < DayFromYear y2.
Proof.
  intros H. pose proof (DayFromYear_next y1).
  pose proof (DayFromYear_mono (y1 + 1) y2 ltac:(lia)). lia.
Qed.

(** [YearFromTime] is the year ECMAScript defines: the last year that
    starts on or before the day. *)
Lemma YearFromTime_spec d :
  DayFromYear (YearFromTime d) <= d < DayFromYear (YearFromTime d + 1).
Proof.
  unfold YearFromTime.
  set (y0 := 1970 + 400 * d / 146097).
  assert (H1 : DayFromYear (y0 - 1) <= d)
    by (subst y0; unfold DayFromYear; Z.div_mod_to_equations; lia).
  assert (H2 : d < DayFromYear (y0 + 2))
    by (subst y0; unfold DayFromYear; Z.div_mod_to_equations; lia).
  destruct (d <? DayFromYear y0) eqn:E1.
  - apply Z.ltb_lt in E1. replace (y0 - 1 + 1) with y0 by lia. lia.
  - apply Z.ltb_ge in E1. destruct (DayFromYear (y0 + 1) <=? d) eqn:E2.
    + apply Z.leb_le in E2. replace (y0 + 1 + 1) with (y0 + 2) by lia. lia.
    + apply Z.leb_gt in E2. lia.
Qed.

Lemma YearFromTime_unique d y :
  DayFromYear y <= d < DayFromYear (y + 1) -> YearFromTime d = y.
Proof.
  intros H. pose proof (YearFromTime_spec d) as S.
  destruct (Z.lt_trichotomy (YearFromTime d) y) as [L | [E | G]]; [ | exact E | ].
  - pose proof (DayFromYear_mono (YearFromTime d + 1) y ltac:(lia)). lia.
  - pose proof (DayFromYear_mono (y + 1) (YearFromTime d) ltac:(lia)). lia.
Qed.

Lemma YearFromTime_epoch d : 0 <= d -> 1970 <= YearFromTime d.
Proof.
  intros H. pose proof (YearFromTime_spec d) as S.
  destruct (Z_lt_le_dec (YearFromTime d) 1970) as [L | G]; [ | exact G ].
  pose proof (DayFromYear_mono (YearFromTime d + 1) 1970 ltac:(lia)) as M.
  change (DayFromYear 1970) with 0 in M. lia.
Qed.

Lemma leapDays_range y : 0 <= leapDays y <= 1.
Proof. unfold leapDays, DaysInYear. destruct (_ && _); lia. Qed.

Lemma DayWithinYear_range d : 0 <= DayWithinYear d < 365 + InLeapYear d.
Proof.
  unfold DayWithinYear, InLeapYear, leapDays.
  pose proof (YearFromTime_spec d) as S.
  rewrite DayFromYear_next_exact in S. lia.
Qed.

Lemma monthStart_range leap m : 0 <= leap <= 1 -> 0 <= monthStart leap m <= 335.
Proof.
  intros H. unfold monthStart.
  repeat match goal with |- context [if ?c then _ else _] => destruct c end; lia.
Qed.

Lemma monthStart_leap l1 l2 m :
  0 <= l1 <= 1 -> 0 <= l2 <= 1 -> -1 <= monthStart l1 m - monthStart l2 m <= 1.
Proof.
  intros H1 H2. unfold monthStart.
  repeat match goal with |- context [if ?c then _ else _] => destruct c end; lia.
Qed.

Lemma MonthFromTime_range d : 0 <= MonthFromTime d <= 11.
Proof.
  unfold MonthFromTime.
  repeat match goal with |- context [if ?c then _ else _] => destruct c end; lia.
Qed.

(** A month in 0..11 and a date leave the year alone. *)
Lemma MakeDay_month y m dt :
  0 <= m <= 11 ->
  MakeDay y m dt = DayFromYear y + monthStart (leapDays y) m + dt - 1.
Proof.
  intros H. unfold MakeDay.
  rewrite (Z.div_small m 12), (Z.mod_small m 12) by lia.
  now rewrite Z.add_0_r.
Qed.

(** Setting the date of a day to its own date plus [n] moves it [n] days. *)
Lemma setDate_getDate d n : setDate d (getDate d + n) = TimeClip (d + n).
Proof.
  unfold setDate, getDate. f_equal.
  rewrite MakeDay_month by apply MonthFromTime_range.
  unfold DateFromTime, DayWithinYear, InLeapYear. lia.
Qed.

Lemma TimeClip_valid d : Z.abs d <= maxDay -> TimeClip d = Some d.
Proof. intros H. unfold TimeClip. apply Z.leb_le in H. now rewrite H. Qed.

Lemma TimeClip_invalid d : maxDay < Z.abs d -> TimeClip d = None.
Proof. intros H. unfold TimeClip. apply Z.leb_gt in H. now rewrite H. Qed.

Lemma TimeClip_some d z : TimeClip d = Some z -> z = d /\ Z.abs d <= maxDay.
Proof.
  unfold TimeClip. destruct (Z.abs d <=? maxDay) eqn:E; [ | discriminate ].
  intros [= <-]. apply Z.leb_le in E. now split.
Qed.

Lemma WeekDay_range d : 0 <= WeekDay d <= 6.
Proof. unfold WeekDay. pose proof (Z.mod_pos_bound (d + 4) 7). lia. Qed.

(** The first of month [m] of year [y] is the day ECMAScript's [MakeDay]
    looks for: its year, month and date are [y], [m] and 1. *)
Lemma MakeDay_first y m :
  0 <= m <= 11 ->
  let d := MakeDay y m 1 in
  YearFromTime d = y /\ MonthFromTime d = m /\ DateFromTime d = 1.
Proof.
  intros H d.
  assert (E : d = DayFromYear y + monthStart (leapDays y) m)
    by (subst d; rewrite MakeDay_month by exact H; lia).
  pose proof (leapDays_range y) as L.
  assert (Y : YearFromTime d = y).
  { apply YearFromTime_unique. rewrite DayFromYear_next_exact, E.
    unfold leapDays in *. unfold monthStart.
    repeat match goal with |- context [if ?c then _ else _] => destruct c end; lia. }
  assert (M : MonthFromTime d = m).
  { unfold MonthFromTime, DayWithinYear, InLeapYear. rewrite Y, E.
    replace (DayFromYear y + monthStart (leapDays y) m - DayFromYear y)
      with (monthStart (leapDays y) m) by lia.
    unfold monthStart.
    repeat match goal with
           | |- context [if ?a =? ?b then _ else _] => destruct (Z.eqb_spec a b)
           | |- context [if ?a <=? ?b then _ else _] => destruct (Z.leb_spec a b)
           | |- context [if ?a <? ?b then _ else _] => destruct (Z.ltb_spec a b)
           end; lia. }
  repeat split; [ exact Y | exact M | ].
  unfold DateFromTime, DayWithinYear, InLeapYear. rewrite M, Y, E. lia.
Qed.

End DateFacts.

(** ** The date stage *)

Module DateStage.
Import JSString RegExp JSDate Parser Spec DateFacts.
Open Scope string_scope.
Open Scope Z_scope.

Lemma plusDays_clip today n : plusDays today n = toISOString (TimeClip (today + n)).
Proof. unfold plusDays. now rewrite setDate_getDate. Qed.

Lemma plusDays_ok today n :
  Z.abs (today + n) <= maxDay -> plusDays today n = Ok (today + n).
Proof. intros H. now rewrite plusDays_clip, TimeClip_valid. Qed.

Lemma plusDays_throw today n :
  maxDay < Z.abs (today + n) -> plusDays today n = Throw RangeError.
Proof. intros H. now rewrite plusDays_clip, TimeClip_invalid. Qed.

(** The code's [%] on a positive left operand is the spec's [mod]. *)
Lemma daysToAdd_offsetTo today i :
  0 <= i <= 6 -> daysToAdd today i = offsetTo today i.
Proof.
  intros H. unfold daysToAdd, offsetTo, getDay.
  pose proof (WeekDay_range today).
  now rewrite Z.rem_mod_nonneg by lia.
Qed.

Lemma daysUntilSaturday_offsetTo today : daysUntilSaturday today = offsetTo today 6.
Proof.
  unfold daysUntilSaturday, offsetTo, getDay.
  pose proof (WeekDay_range today).
  now rewrite Z.rem_mod_nonneg by lia.
Qed.

Lemma offsetTo_range today i : 1 <= offsetTo today i <= 7.
Proof.
  unfold offsetTo.
  pose proof (Z.mod_pos_bound (i - WeekDay today + 7) 7 ltac:(lia)).
  destruct (Z.eqb_spec ((i - WeekDay today + 7) mod 7) 0); lia.
Qed.

(** The day reached is the day of the week aimed at. *)
Lemma offsetTo_weekday today i :
  0 <= i <= 6 -> WeekDay (today + offsetTo today i) = i.
Proof.
  intros H. unfold offsetTo, WeekDay.
  destruct (Z.eqb_spec ((i - (today + 4) mod 7 + 7) mod 7) 0);
    Z.div_mod_to_equations; lia.
Qed.

Section Clock.
Variable today : Z.
Hypothesis now : clock today.

Lemma plusDays_week n : 0 <= n <= 7 -> plusDays today n = Ok (today + n).
Proof.
  intros H. apply plusDays_ok. unfold clock, maxDay in *. lia.
Qed.

Lemma weekdayLoop_offset lowerText names i :
  0 <= i -> i + Z.of_nat (length names) <= 7 ->
  exists d, weekdayLoop today lowerText names i = Ok d.
Proof.
  revert i. induction names as [ | name rest IH ]; intros i H0 H7; simpl.
  - now exists None.
  - destruct (includes lowerText name).
    + rewrite daysToAdd_offsetTo, plusDays_week.
      * simpl. eauto.
      * pose proof (offsetTo_range today i). lia.
      * simpl length in H7. lia.
    + apply IH; simpl length in H7; lia.
Qed.

(** The chain of relative phrases is the first matching rule of the
    declared list. *)
Lemma relativeDate_first lowerText :
  relativeDate today lowerText
  = Ok (dateOf today (firstMatching (relativeRules today) lowerText)).
Proof.
  assert (R : forall i, 0 <= offsetTo today i <= 7)
    by (intros i; pose proof (offsetTo_range today i); lia).
  unfold relativeDate, firstMatching, relativeRules, triggers, some, days.
  cbn [find existsb fst snd weekdayLoop].
  change (0 + 1) with 1. change (1 + 1) with 2. change (2 + 1) with 3.
  change (3 + 1) with 4. change (4 + 1) with 5. change (5 + 1) with 6.
  rewrite daysUntilSaturday_offsetTo, !daysToAdd_offsetTo by lia.
  rewrite !orb_false_r.
  repeat
    match goal with
    | |- context [includes lowerText ?w] =>
        destruct (includes lowerText w) eqn:?;
        cbn [orb andb dateOf option_map snd]
    end;
    rewrite ?plusDays_week by (apply R || lia);
    cbn [bind toISOString];
    try reflexivity.
  now rewrite Z.add_0_r.
Qed.

Lemma relativeDate_ok lowerText : exists d, relativeDate today lowerText = Ok d.
Proof. rewrite relativeDate_first. eauto. Qed.

End Clock.

End DateStage.

(** ** The matcher *)

Module RegExpFacts.
Import JSString RegExp.

Lemma within_O hi : within hi O.
Proof. destruct hi; simpl; lia. Qed.

Lemma reached_false hi count :
  reached hi count = false -> within hi count -> within hi (S count).
Proof.
  destruct hi as [ h | ]; simpl; [ | trivial ].
  intros H _. apply Nat.leb_gt in H. lia.
Qed.

(** Soundness of the quantifier, given soundness of its body. *)
Lemma repeatMatcher_sound (R : MatchState -> MatchState -> Prop) m lo hi k :
  (forall x k' z, m x k' = Some z -> exists y, R x y /\ k' y = Some z) ->
  forall fuel count x z,
    within hi count ->
    repeatMatcher m lo hi k fuel count x = Some z ->
    exists n y,
      iterate R n x y /\ (lo <= count + n)%nat /\ within hi (count + n)
      /\ k y = Some z.
Proof.
  intros Hm. induction fuel as [ | fuel IH ]; intros count x z W H.
  - simpl in H. destruct (Nat.leb_spec lo count); [ | discriminate ].
    exists O, x. rewrite Nat.add_0_r. repeat split; trivial. constructor.
  - simpl in H.
    assert (Stop : (if Nat.leb lo count then k x else None) = Some z ->
                   exists n y, iterate R n x y /\ (lo <= count + n)%nat
                               /\ within hi (count + n) /\ k y = Some z).
    { intros E. destruct (Nat.leb_spec lo count); [ | discriminate ].
      exists O, x. rewrite Nat.add_0_r. repeat split; trivial. constructor. }
    destruct (reached hi count) eqn:Rc; [ now apply Stop | ].
    destruct (m x _) as [ z' | ] eqn:E; [ | now apply Stop ].
    injection H as ->.
    apply Hm in E. destruct E as (y & Rxy & E).
    destruct (_ || _); [ | discriminate ].
    apply IH in E; [ | now apply reached_false ].
    destruct E as (n & y' & It & Lo & Hi & K).
    exists (S n), y'. rewrite Nat.add_succ_r. repeat split; trivial.
    econstructor; eassumption.
Qed.

(** The matcher only succeeds along a match of the pattern. *)
Theorem matcher_sound icase r :
  forall x k z,
    matcher icase r x k = Some z ->
    exists y, Matches icase r x y /\ k y = Some z.
Proof.
  induction r as [ | c | p | r1 IH1 r2 IH2 | r1 IH1 r2 IH2 | lo hi r IH | i r IH | ];
    intros x k z H; cbn [matcher] in H.
  - exists x. split; [ constructor | exact H ].
  - unfold charMatcher in H. destruct (remaining x) as [ | d rest ] eqn:E; [ discriminate | ].
    destruct (charEq icase c d) eqn:C; [ | discriminate ].
    exists (step x d rest). split; [ now constructor | exact H ].
  - unfold charMatcher in H. destruct (remaining x) as [ | d rest ] eqn:E; [ discriminate | ].
    destruct (p d) eqn:C; [ | discriminate ].
    exists (step x d rest). split; [ now constructor | exact H ].
  - apply IH1 in H. destruct H as (y & M1 & H).
    apply IH2 in H. destruct H as (y' & M2 & H).
    exists y'. split; [ econstructor; eassumption | exact H ].
  - destruct (matcher icase r1 x k) as [ z' | ] eqn:E.
    + injection H as ->. apply IH1 in E. destruct E as (y & M & E).
      exists y. split; [ now apply Matches_AltL | exact E ].
    + apply IH2 in H. destruct H as (y & M & K).
      exists y. split; [ now apply Matches_AltR | exact K ].
  - apply (repeatMatcher_sound (Matches icase r)) in H;
      [ | exact IH | apply within_O ].
    destruct H as (n & y & It & Lo & Hi & K).
    exists y. split; [ | exact K ]. now apply Matches_Quant with n.
  - apply IH in H. destruct H as (y & M & E).
    exists (setCapture i (between x y) y). split; [ now constructor | exact E ].
  - destruct (atBoundary x) eqn:B; [ | discriminate ].
    exists x. split; [ now constructor | exact H ].
Qed.

Lemma spans_refl x : spans x x [].
Proof. now split. Qed.

Lemma spans_trans x y z p q : spans x y p -> spans y z q -> spans x z (p ++ q).
Proof.
  intros [R1 C1] [R2 C2]. split.
  - now rewrite R1, R2, app_assoc.
  - now rewrite C2, C1, rev_app_distr, app_assoc.
Qed.

Lemma spans_step x d rest : remaining x = d :: rest -> spans x (step x d rest) [d].
Proof. intros E. split; simpl; trivial. Qed.

Lemma iterate_spans (R : MatchState -> MatchState -> Prop) :
  (forall x y, R x y -> exists pre, spans x y pre) ->
  forall n x y, iterate R n x y -> exists pre, spans x y pre.
Proof.
  intros HR. induction n as [ | n IH ]; intros x y It; inversion It; subst.
  - exists []. apply spans_refl.
  - match goal with H : R x ?w |- _ => apply HR in H; destruct H as (p & Sp) end.
    match goal with H : iterate R n _ y |- _ => apply IH in H; destruct H as (q & Sq) end.
    exists (p ++ q). eapply spans_trans; eassumption.
Qed.

Theorem Matches_spans icase r :
  forall x y, Matches icase r x y -> exists pre, spans x y pre.
Proof.
  induction r as [ | c | p | r1 IH1 r2 IH2 | r1 IH1 r2 IH2 | lo hi r IH | i r IH | ];
    intros x y M; inversion M; subst.
  - exists []. apply spans_refl.
  - exists [d]. now apply spans_step.
  - exists [d]. now apply spans_step.
  - match goal with H : Matches icase r1 _ _ |- _ => apply IH1 in H; destruct H as (p & Sp) end.
    match goal with H : Matches icase r2 _ _ |- _ => apply IH2 in H; destruct H as (q & Sq) end.
    exists (p ++ q). eapply spans_trans; eassumption.
  - now apply IH1.
  - now apply IH2.
  - eapply iterate_spans; eassumption.
  - match goal with H : Matches icase r _ _ |- _ => apply IH in H; destruct H as (p & Sp) end.
    exists p. exact Sp.
  - exists []. apply spans_refl.
Qed.

(** The text of a capture is the text the group passed over. *)
Lemma between_spans x y pre : spans x y pre -> between x y = pre.
Proof.
  intros [E _]. unfold between. rewrite E, length_app.
  replace (length pre + length (remaining y) - length (remaining y))%nat
    with (length pre) by lia.
  now rewrite firstn_app, Nat.sub_diag, firstn_all, app_nil_r.
Qed.

(** Every result of a search is a match at some position of the input. *)
Lemma searchFrom_sound icase r :
  forall s before y,
    searchFrom icase r before s = Some y ->
    exists b a, rev before ++ s = rev b ++ a
                /\ Matches icase r (mkState b a []) y.
Proof.
  induction s as [ | c s IH ]; intros before y H; simpl in H.
  - destruct (matchAt icase r before []) as [ z | ] eqn:E; [ | discriminate ].
    injection H as ->. apply matcher_sound in E. destruct E as (y' & M & [= ->]).
    now exists before, [].
  - destruct (matchAt icase r before (c :: s)) as [ z | ] eqn:E.
    + injection H as ->. apply matcher_sound in E. destruct E as (y' & M & [= ->]).
      now exists before, (c :: s).
    + apply IH in H. destruct H as (b & a & E' & M).
      exists b, a. split; [ | exact M ]. rewrite <- E'. simpl.
      now rewrite <- app_assoc.
Qed.

Lemma exec_sound icase r s y :
  exec icase r s = Some y ->
  exists b a, s = rev b ++ a /\ Matches icase r (mkState b a []) y.
Proof. intros H. now apply searchFrom_sound in H. Qed.

(** A quantified class passes over code units of the class, as many as
    the bounds allow, and leaves the captures alone. *)
Lemma iterate_Class icase p :
  forall n x y,
    iterate (Matches icase (Class p)) n x y ->
    exists pre, spans x y pre /\ length pre = n
                /\ Forall (fun c => p c = true) pre
                /\ captures y = captures x.
Proof.
  induction n as [ | n IH ]; intros x y It; inversion It; subst.
  - exists []. repeat split; trivial.
  - match goal with H : Matches _ (Class p) x _ |- _ => inversion H; subst end.
    match goal with H : iterate _ n _ y |- _ => apply IH in H;
      destruct H as (q & Sq & Len & All & Caps) end.
    exists (d :: q). split; [ | split; [ | split ] ].
    + change (d :: q) with ([d] ++ q).
      eapply spans_trans; [ apply spans_step | ]; eassumption.
    + simpl. now rewrite Len.
    + now constructor.
    + now rewrite Caps.
Qed.

Lemma Matches_Quant_Class icase lo hi p x y :
  Matches icase (Quant lo hi (Class p)) x y ->
  exists pre, spans x y pre /\ (lo <= length pre)%nat /\ within hi (length pre)
              /\ Forall (fun c => p c = true) pre
              /\ captures y = captures x.
Proof.
  intros M. inversion M; subst.
  match goal with H : iterate _ _ x y |- _ => apply iterate_Class in H;
    destruct H as (pre & Sp & Len & All & Caps) end.
  exists pre. subst n. repeat split; trivial; apply Sp.
Qed.

End RegExpFacts.

(** ** The patterns of the date stage *)

Module DatePatterns.
Import JSString RegExp JSDate Parser Spec DateFacts DateStage RegExpFacts.
Open Scope string_scope.

Lemma digitValue_digit c : isDigit c = true -> (digitValue c <= 9)%N.
Proof.
  destruct c as [[] [] [] [] [] [] [] []]; try discriminate;
    intros _; vm_compute; discriminate.
Qed.

(** One or two digits read as a number below 100. *)
Lemma parseInt_two s :
  Forall (fun c => isDigit c = true) s -> (length s <= 2)%nat ->
  (parseInt s <= 99)%N.
Proof.
  intros All Len. unfold parseInt.
  destruct s as [ | c1 [ | c2 [ | c3 s ] ] ]; simpl in *; try lia.
  - inversion All as [ | ? ? D1 _ ]; subst. apply digitValue_digit in D1. lia.
  - inversion All as [ | ? ? D1 All' ]; subst.
    inversion All' as [ | ? ? D2 _ ]; subst.
    apply digitValue_digit in D1, D2. lia.
Qed.

(** The captures of the M/D pattern: one or two digits each. *)
Lemma dateMatch_groups text m :
  dateMatch text = Some m ->
  (Forall (fun c => isDigit c = true) (group 1 m) /\ 1 <= length (group 1 m) <= 2)%nat
  /\ (Forall (fun c => isDigit c = true) (group 2 m) /\ 1 <= length (group 2 m) <= 2)%nat.
Proof.
  intros H. apply exec_sound in H. destruct H as (b & a & _ & M).
  unfold datePattern in M.
  inversion M as [ | | | ? ? ? y1 ? M1 M2 | | | | | ]; subst; clear M.
  inversion M1 as [ | | | | | | | ? ? ? z1 Q1 | ]; subst; clear M1.
  inversion M2 as [ | | | ? ? ? y2 ? M3 M4 | | | | | ]; subst; clear M2.
  inversion M3; subst; clear M3.
  inversion M4 as [ | | | | | | | ? ? ? z2 Q2 | ]; subst; clear M4.
  apply Matches_Quant_Class in Q1, Q2.
  destruct Q1 as (p1 & S1 & Lo1 & Hi1 & D1 & C1).
  destruct Q2 as (p2 & S2 & Lo2 & Hi2 & D2 & C2).
  unfold group, capture. cbn [captures setCapture].
  rewrite (between_spans _ _ _ S2), C2. cbn [captures setCapture step].
  rewrite (between_spans _ _ _ S1). cbn [lookup Nat.eqb].
  repeat split; trivial.
Qed.

Lemma dateMatch_numbers text m :
  dateMatch text = Some m ->
  (parseInt (group 1 m) <= 99)%N /\ (parseInt (group 2 m) <= 99)%N.
Proof.
  intros H. apply dateMatch_groups in H. destruct H as [[D1 L1] [D2 L2]].
  split; apply parseInt_two; trivial; lia.
Qed.

End DatePatterns.

(** ** The M/D rule and the order of the date rules *)

Module DateRules.
Import JSString RegExp JSDate Parser Spec DateFacts DateStage RegExpFacts DatePatterns.
Open Scope string_scope.
Open Scope Z_scope.

Lemma DayFromYear_eight y : DayFromYear (y + 8) <= DayFromYear y + 2928.
Proof. unfold DayFromYear. Z.div_mod_to_equations. lia. Qed.

(** The date the constructor builds from a one- or two-digit pair lies
    within ten years of today. *)
Lemma create_near today m d :
  clock today -> (m <= 99)%N -> (d <= 99)%N ->
  exists sd, create (getFullYear today) (Z.of_N m - 1) (Z.of_N d) = Some sd
             /\ today - 800 <= sd <= today + 3400.
Proof.
  intros [T0 T1] Hm Hd. unfold create, getFullYear, MakeFullYear.
  pose proof (YearFromTime_epoch today T0) as Y0.
  pose proof (YearFromTime_spec today) as YS.
  set (Y := YearFromTime today) in *.
  replace ((0 <=? Y) && (Y <=? 99)) with false
    by (symmetry; apply andb_false_iff; right; apply Z.leb_gt; lia).
  set (sd := MakeDay Y (Z.of_N m - 1) (Z.of_N d)).
  assert (B : today - 800 <= sd <= today + 3400).
  { subst sd. unfold MakeDay.
    set (q := (Z.of_N m - 1) / 12).
    assert (Q : -1 <= q <= 8) by (subst q; Z.div_mod_to_equations; lia).
    pose proof (monthStart_range (leapDays (Y + q)) ((Z.of_N m - 1) mod 12)
                  (leapDays_range _)).
    pose proof (DayFromYear_mono (Y - 1) (Y + q) ltac:(lia)).
    pose proof (DayFromYear_mono (Y + q) (Y + 8) ltac:(lia)).
    pose proof (DayFromYear_eight Y).
    pose proof (DayFromYear_next (Y - 1)) as N1.
    replace (Y - 1 + 1) with Y in N1 by lia.
    pose proof (DayFromYear_next Y).
    lia. }
  exists sd. split; [ | exact B ].
  apply TimeClip_valid. unfold maxDay in *. lia.
Qed.

(** Moving a day to the same month and date of the next year moves it by
    about a year. *)
Lemma setFullYear_next sd :
  exists z, setFullYear sd (getFullYear sd + 1) = TimeClip z
            /\ sd + 364 <= z <= sd + 367.
Proof.
  unfold setFullYear, getFullYear.
  rewrite MakeDay_month by apply MonthFromTime_range.
  eexists. split; [ reflexivity | ].
  unfold DateFromTime, DayWithinYear, InLeapYear.
  pose proof (DayFromYear_next (YearFromTime sd)).
  pose proof (monthStart_leap (leapDays (YearFromTime sd + 1))
                (leapDays (YearFromTime sd)) (MonthFromTime sd)
                (leapDays_range _) (leapDays_range _)).
  lia.
Qed.

(** The M/D rule never raises on a one- or two-digit pair. *)
Lemma specificDate_total today m d :
  clock today -> (m <= 99)%N -> (d <= 99)%N ->
  exists z, specificDate today m d = Ok z /\ Z.abs z <= maxDay.
Proof.
  intros Now Hm Hd. unfold specificDate.
  destruct (create_near today m d Now Hm Hd) as (sd & -> & B).
  destruct Now as [T0 T1]. unfold maxDay in *.
  destruct (sd <? today).
  - destruct (setFullYear_next sd) as (z & -> & Bz).
    exists z. rewrite TimeClip_valid by (unfold maxDay; lia).
    split; [ reflexivity | lia ].
  - exists sd. split; [ reflexivity | lia ].
Qed.

(** Month 13 is January of the year after the current one. *)
Lemma specificDate_13_5 today :
  clock today ->
  exists z, specificDate today 13 5 = Ok z
            /\ YearFromTime z = YearFromTime today + 1
            /\ MonthFromTime z = 0 /\ DateFromTime z = 5.
Proof.
  intros [T0 T1]. unfold specificDate, create, getFullYear, MakeFullYear.
  pose proof (YearFromTime_epoch today T0) as Y0.
  pose proof (YearFromTime_spec today) as YS.
  set (Y := YearFromTime today) in *.
  replace ((0 <=? Y) && (Y <=? 99)) with false
    by (symmetry; apply andb_false_iff; right; apply Z.leb_gt; lia).
  change (Z.of_N 13 - 1) with 12. change (Z.of_N 5) with 5.
  assert (E : MakeDay Y 12 5 = DayFromYear (Y + 1) + 4).
  { unfold MakeDay. change (12 / 12) with 1. change (12 mod 12) with 0.
    change (monthStart (leapDays (Y + 1)) 0) with 0. lia. }
  rewrite E.
  pose proof (DayFromYear_next Y). pose proof (DayFromYear_next (Y + 1)).
  unfold maxDay in *.
  rewrite TimeClip_valid by (unfold maxDay; lia).
  replace (DayFromYear (Y + 1) + 4 <? today) with false
    by (symmetry; apply Z.ltb_ge; lia).
  exists (DayFromYear (Y + 1) + 4).
  assert (YZ : YearFromTime (DayFromYear (Y + 1) + 4) = Y + 1)
    by (apply YearFromTime_unique; lia).
  assert (W : DayWithinYear (DayFromYear (Y + 1) + 4) = 4)
    by (unfold DayWithinYear; rewrite YZ; lia).
  repeat split; trivial.
  - unfold MonthFromTime. rewrite W. reflexivity.
  - unfold DateFromTime, MonthFromTime. rewrite W. reflexivity.
Qed.

(** The date stage, rule by rule: the M/D rule, else the "in N days"
    rule, else the first matching relative phrase. *)
Lemma extractDate_order today text :
  clock today ->
  match inDaysMatch (toLowerCase text) with
  | Some mi => today + Z.of_N (parseInt (group 1 mi)) <= maxDay
  | None => True
  end ->
  extractDate today text (toLowerCase text)
  = match dateMatch text with
    | Some m =>
        iso <- specificDate today (parseInt (group 1 m)) (parseInt (group 2 m)) ;;
        Ok (Some iso)
    | None =>
        match inDaysMatch (toLowerCase text) with
        | Some mi => Ok (Some (today + Z.of_N (parseInt (group 1 mi))))
        | None =>
            Ok (dateOf today (firstMatching (relativeRules today) (toLowerCase text)))
        end
    end.
Proof.
  intros Now Rep. unfold extractDate.
  rewrite (relativeDate_first today Now). cbn [bind].
  unfold inDaysRule, specificDateRule.
  destruct (inDaysMatch (toLowerCase text)) as [ mi | ].
  - rewrite plusDays_ok by (destruct Now; lia). cbn [bind].
    now destruct (dateMatch text).
  - cbn [bind]. now destruct (dateMatch text).
Qed.

Lemma parse_of_date today text d :
  extractDate today text (toLowerCase text) = Ok d ->
  parseNaturalLanguage today text
  = Ok (mkResult (cleanTitle text) (detectCategory (toLowerCase text))
          (detectPriority (toLowerCase text)) d
          (extractTime text (toLowerCase text))
          (detectRecurring (toLowerCase text))).
Proof. intros H. unfold parseNaturalLanguage. now rewrite H. Qed.

Lemma parse_inversion today text r :
  parseNaturalLanguage today text = Ok r ->
  extractDate today text (toLowerCase text) = Ok (dueDate r)
  /\ dueTime r = extractTime text (toLowerCase text)
  /\ title r = cleanTitle text
  /\ priority r = detectPriority (toLowerCase text)
  /\ category r = detectCategory (toLowerCase text)
  /\ recurring r = detectRecurring (toLowerCase text).
Proof.
  unfold parseNaturalLanguage.
  destruct (extractDate today text (toLowerCase text)) as [ d | e ];
    cbn [bind]; [ | discriminate ].
  intros [= <-]. cbn. repeat split.
Qed.

(** The date stage returns whenever the day of an "in N days" pattern, if
    the input has one, is within the range of dates. *)
Lemma extractDate_returns today text :
  clock today ->
  match inDaysMatch (toLowerCase text) with
  | Some mi => today + Z.of_N (parseInt (group 1 mi)) <= maxDay
  | None => True
  end ->
  exists d, extractDate today text (toLowerCase text) = Ok d.
Proof.
  intros Now Rep. rewrite (extractDate_order today text Now Rep).
  destruct (dateMatch text) as [ m | ] eqn:Md.
  - destruct (dateMatch_numbers text m Md) as [Hm Hd].
    destruct (specificDate_total today _ _ Now Hm Hd) as (z & -> & _).
    now eexists.
  - destruct (inDaysMatch (toLowerCase text)); now eexists.
Qed.

(** The day [dt] of a month is [dt - 1] days after its first, and the
    months beyond December belong to the years that follow. *)
Lemma MakeDay_from_first y m dt : MakeDay y m dt = MakeDay y m 1 + (dt - 1).
Proof. unfold MakeDay. lia. Qed.

Lemma MakeDay_first_carry y m :
  let base := MakeDay y m 1 in
  YearFromTime base = y + m / 12
  /\ MonthFromTime base = m mod 12
  /\ DateFromTime base = 1.
Proof.
  assert (E : MakeDay y m 1 = MakeDay (y + m / 12) (m mod 12) 1).
  { unfold MakeDay. rewrite Z.mod_mod by lia.
    replace (m mod 12 / 12) with 0 by (Z.div_mod_to_equations; lia).
    now rewrite Z.add_0_r. }
  cbv zeta. rewrite E. apply MakeDay_first. Z.div_mod_to_equations; lia.
Qed.

(** The M/D rule on the numbers [m] and [d]: the day [d] counted from the
    first of the month that [m] names, its excess carried into the years;
    moved to the same month and date of the next year when that day lies
    before today. *)
Lemma specificDate_overflow today m d :
  clock today -> (m <= 99)%N -> (d <= 99)%N ->
  exists base z,
    YearFromTime base = YearFromTime today + (Z.of_N m - 1) / 12
    /\ MonthFromTime base = (Z.of_N m - 1) mod 12
    /\ DateFromTime base = 1
    /\ specificDate today m d = Ok z
    /\ Z.abs z <= maxDay
    /\ (today <= base + (Z.of_N d - 1) -> z = base + (Z.of_N d - 1))
    /\ (base + (Z.of_N d - 1) < today ->
        exists base',
          YearFromTime base' = YearFromTime (base + (Z.of_N d - 1)) + 1
          /\ MonthFromTime base' = MonthFromTime (base + (Z.of_N d - 1))
          /\ DateFromTime base' = 1
          /\ z = base' + (DateFromTime (base + (Z.of_N d - 1)) - 1)).
Proof.
  intros Now Hm Hd.
  destruct (create_near today m d Now Hm Hd) as (sd & C & B).
  unfold specificDate. rewrite C.
  unfold create, getFullYear, MakeFullYear in C.
  destruct Now as [T0 T1].
  pose proof (YearFromTime_epoch today T0) as Y0.
  set (Y := YearFromTime today) in *.
  replace ((0 <=? Y) && (Y <=? 99)) with false in C
    by (symmetry; apply andb_false_iff; right; apply Z.leb_gt; lia).
  apply TimeClip_some in C. destruct C as [Esd _].
  rewrite MakeDay_from_first in Esd.
  destruct (MakeDay_first_carry Y (Z.of_N m - 1)) as (By & Bm & Bd).
  set (base := MakeDay Y (Z.of_N m - 1) 1) in *.
  exists base. rewrite <- Esd.
  destruct (Z.ltb_spec sd today) as [ Lt | Ge ].
  - destruct (setFullYear_next sd) as (z' & Ez & Bz).
    assert (V : Z.abs z' <= maxDay) by (unfold maxDay in *; lia).
    rewrite (TimeClip_valid _ V) in Ez. rewrite Ez.
    exists z'. cbn [toISOString].
    repeat split; trivial; [ lia | ]. intros _.
    unfold setFullYear in Ez. apply TimeClip_some in Ez. destruct Ez as [Ez _].
    pose proof (MonthFromTime_range sd) as Mr.
    destruct (MakeDay_first (getFullYear sd + 1) (MonthFromTime sd) Mr)
      as (Cy & Cm & Cd).
    exists (MakeDay (getFullYear sd + 1) (MonthFromTime sd) 1).
    split; [ exact Cy | split; [ exact Cm | split; [ exact Cd | ] ] ].
    rewrite Ez. apply MakeDay_from_first.
  - exists sd. cbn [toISOString]. unfold maxDay in *.
    repeat split; trivial; [ lia | lia ].
Qed.

End DateRules.

(** * The claims of the specification *)

Import JSString RegExp JSDate Parser Spec.
Import DateFacts DateStage RegExpFacts DatePatterns DateRules.
Open Scope string_scope.
Open Scope Z_scope.

(** The examples run on day 20759, Monday 2 November 2026. *)

(** C9. Parsing the empty string raises nothing and returns category Other,
    priority Medium, no due date, no due time, recurrence none and the empty
    title, whatever the clock reads. *)
Theorem parse_empty_string today :
  parseNaturalLanguage today []
  = Ok (mkResult [] Other Medium None None none).
Proof. reflexivity. Qed.

(** C2, as the code has it: the relative phrases form one [if / else if]
    chain, so the FIRST matching rule of the declared order gives the date;
    it is the due date returned when neither the "in N days" nor the M/D
    pattern occurs. *)
Theorem relative_phrases_first_match today text :
  clock today ->
  inDaysMatch (toLowerCase text) = None ->
  dateMatch text = None ->
  exists r,
    parseNaturalLanguage today text = Ok r
    /\ relativeDate today (toLowerCase text) = Ok (dueDate r)
    /\ dueDate r
       = dateOf today (firstMatching (relativeRules today) (toLowerCase text)).
Proof.
  intros Now In Md.
  pose proof (extractDate_order today text Now) as E.
  rewrite In, Md in E. specialize (E I).
  eexists. split; [ apply parse_of_date, E | ].
  split; [ apply relativeDate_first, Now | reflexivity ].
Qed.

Lemma relative_phrases_first_match_witness :
  exists r,
    parseNaturalLanguage 20759 "tomorrow next week" = Ok r
    /\ relativeDate 20759 (toLowerCase "tomorrow next week") = Ok (dueDate r)
    /\ dueDate r
       = dateOf 20759
           (firstMatching (relativeRules 20759) (toLowerCase "tomorrow next week")).
Proof.
  apply (relative_phrases_first_match 20759 "tomorrow next week");
    [ unfold clock, maxDay; lia | reflexivity | reflexivity ].
Defined.

(** C2 as stated fails: with both "tomorrow" and "next week" in the input the
    last matching rule would give today + 7, the parser returns today + 1. *)
Lemma relative_phrases_last_match_counterexample :
  includes (toLowerCase "tomorrow next week") "tomorrow" = true
  /\ includes (toLowerCase "tomorrow next week") "next week" = true
  /\ dateOf 20759
       (lastMatching (relativeRules 20759) (toLowerCase "tomorrow next week"))
     = Some (20759 + 7)
  /\ exists r,
       parseNaturalLanguage 20759 "tomorrow next week" = Ok r
       /\ dueDate r = Some (20759 + 1)
       /\ dueDate r <> Some (20759 + 7).
Proof.
  repeat split; try reflexivity.
  eexists. split; [ vm_compute; reflexivity | ].
  split; [ reflexivity | discriminate ].
Qed.

(** C3, as the code has it: the M/D rule, evaluated last, gives the due date
    whenever its pattern occurs; otherwise the "in N days" rule gives
    today + N whatever relative phrases occur; otherwise the relative phrases
    decide.  This holds when the day the "in N days" rule computes, if the
    rule matches, is within the range of dates. *)
Theorem later_date_rules_overwrite today text :
  clock today ->
  match inDaysMatch (toLowerCase text) with
  | Some mi => today + Z.of_N (parseInt (group 1 mi)) <= maxDay
  | None => True
  end ->
  exists r,
    parseNaturalLanguage today text = Ok r
    /\ match dateMatch text with
       | Some m =>
           exists z,
             specificDate today (parseInt (group 1 m)) (parseInt (group 2 m)) = Ok z
             /\ dueDate r = Some z
       | None =>
           match inDaysMatch (toLowerCase text) with
           | Some mi => dueDate r = Some (today + Z.of_N (parseInt (group 1 mi)))
           | None =>
               dueDate r
               = dateOf today
                   (firstMatching (relativeRules today) (toLowerCase text))
           end
       end.
Proof.
  intros Now Rep.
  pose proof (extractDate_order today text Now Rep) as E.
  destruct (dateMatch text) as [ m | ] eqn:Md.
  - destruct (dateMatch_numbers text m Md) as [Hm Hd].
    destruct (specificDate_total today _ _ Now Hm Hd) as (z & Z1 & _).
    rewrite Z1 in E. cbn [bind] in E.
    eexists. split; [ apply parse_of_date, E | ].
    exists z. now split.
  - destruct (inDaysMatch (toLowerCase text)) as [ mi | ];
      (eexists; split; [ apply parse_of_date, E | reflexivity ]).
Qed.

Lemma later_date_rules_overwrite_witness :
  exists r,
    parseNaturalLanguage 20759 "tomorrow in 3 days" = Ok r
    /\ dueDate r = Some (20759 + 3).
Proof.
  destruct (later_date_rules_overwrite 20759 "tomorrow in 3 days") as (r & E & D);
    [ unfold clock, maxDay; lia | vm_compute; discriminate | ].
  exists r. split; [ exact E | exact D ].
Defined.

(** C3 as stated fails twice: with an M/D pattern in the input the "in N
    days" rule does not give the date, and when today + N is past the last
    date [toISOString] raises before any due date is set. *)
Lemma later_date_rules_counterexample :
  includes (toLowerCase "tomorrow in 3 days 5/12") "tomorrow" = true
  /\ (exists mi, inDaysMatch (toLowerCase "tomorrow in 3 days 5/12") = Some mi
                 /\ parseInt (group 1 mi) = 3%N)
  /\ (exists r, parseNaturalLanguage 20759 "tomorrow in 3 days 5/12" = Ok r
                /\ dueDate r = Some 20950
                /\ dueDate r <> Some (20759 + 3))
  /\ (exists mi, inDaysMatch (toLowerCase "tomorrow in 999999999 days") = Some mi
                 /\ parseInt (group 1 mi) = 999999999%N)
  /\ parseNaturalLanguage 20759 "tomorrow in 999999999 days" = Throw RangeError.
Proof.
  split; [ reflexivity | ].
  split; [ eexists; split; vm_compute; reflexivity | ].
  split; [ eexists; split; [ vm_compute; reflexivity | split; [ reflexivity | discriminate ] ] | ].
  split; [ eexists; split; vm_compute; reflexivity | ].
  vm_compute. reflexivity.
Qed.

(** C5, as the code has it: an input with "weekend", "saturday" or "sunday",
    none of "tomorrow", "today", "next week", and neither an "in N days" nor
    an M/D pattern is due on the coming Saturday, today plus
    ((6 - weekday + 7) mod 7) days with 0 replaced by 7: one to seven days
    ahead, never today. *)
Theorem weekend_is_next_saturday today text :
  clock today ->
  includes (toLowerCase text) "weekend" || includes (toLowerCase text) "saturday"
    || includes (toLowerCase text) "sunday" = true ->
  includes (toLowerCase text) "tomorrow" = false ->
  includes (toLowerCase text) "today" = false ->
  includes (toLowerCase text) "next week" = false ->
  inDaysMatch (toLowerCase text) = None ->
  dateMatch text = None ->
  exists r,
    parseNaturalLanguage today text = Ok r
    /\ dueDate r = Some (today + offsetTo today 6)
    /\ 1 <= offsetTo today 6 <= 7
    /\ WeekDay (today + offsetTo today 6) = 6
    /\ dueDate r <> Some today.
Proof.
  intros Now W T1 T2 T3 In Md.
  pose proof (extractDate_order today text Now) as E.
  rewrite In, Md in E. specialize (E I).
  eexists. split; [ apply parse_of_date, E | ].
  set (r := mkResult _ _ _ _ _ _).
  pose proof (offsetTo_range today 6) as R.
  assert (D' : dueDate r = Some (today + offsetTo today 6)).
  { subst r. cbn [dueDate]. unfold firstMatching, relativeRules, triggers, some.
    cbn [find existsb fst]. rewrite T1, T2, T3. cbn [orb].
    destruct (includes (toLowerCase text) "weekend"),
      (includes (toLowerCase text) "saturday"),
      (includes (toLowerCase text) "sunday");
      try discriminate W; cbn [orb dateOf option_map snd];
      now rewrite daysUntilSaturday_offsetTo. }
  repeat split; try apply R; trivial.
  - apply offsetTo_weekday. lia.
  - rewrite D'. intros [= H]. lia.
Qed.

Lemma weekend_is_next_saturday_witness :
  exists r,
    parseNaturalLanguage 20759 "Dinner this weekend" = Ok r
    /\ dueDate r = Some (20759 + offsetTo 20759 6)
    /\ 1 <= offsetTo 20759 6 <= 7
    /\ WeekDay (20759 + offsetTo 20759 6) = 6
    /\ dueDate r <> Some 20759.
Proof.
  apply (weekend_is_next_saturday 20759 "Dinner this weekend");
    [ unfold clock, maxDay; lia | reflexivity .. ].
Defined.

(** C5 as stated fails: a later rule replaces the Saturday. *)
Lemma weekend_overwritten_counterexample :
  includes (toLowerCase "weekend in 3 days") "weekend" = true
  /\ includes (toLowerCase "weekend in 3 days") "tomorrow" = false
  /\ includes (toLowerCase "weekend in 3 days") "today" = false
  /\ includes (toLowerCase "weekend in 3 days") "next week" = false
  /\ offsetTo 20759 6 = 5
  /\ exists r,
       parseNaturalLanguage 20759 "weekend in 3 days" = Ok r
       /\ dueDate r = Some (20759 + 3)
       /\ dueDate r <> Some (20759 + offsetTo 20759 6).
Proof.
  repeat split; try reflexivity.
  eexists. split; [ vm_compute; reflexivity | ].
  split; [ reflexivity | discriminate ].
Qed.

(** C6, as the code has it: when no earlier relative phrase matches and
    neither an "in N days" nor an M/D pattern occurs, the first weekday name
    found in index order decides: the due date is today plus
    ((index - weekday + 7) mod 7) days with 0 replaced by 7, a day of the week
    [index]; the names after it are not looked at. *)
Theorem weekday_loop_first_name today text i name :
  clock today ->
  includes (toLowerCase text) "tomorrow" = false ->
  includes (toLowerCase text) "today" = false ->
  includes (toLowerCase text) "next week" = false ->
  includes (toLowerCase text) "weekend" = false ->
  includes (toLowerCase text) "saturday" = false ->
  includes (toLowerCase text) "sunday" = false ->
  nth_error days i = Some name ->
  includes (toLowerCase text) name = true ->
  (forall j earlier, (j < i)%nat -> nth_error days j = Some earlier ->
                     includes (toLowerCase text) earlier = false) ->
  inDaysMatch (toLowerCase text) = None ->
  dateMatch text = None ->
  exists r,
    parseNaturalLanguage today text = Ok r
    /\ weekdayLoop today (toLowerCase text) days 0 = Ok (dueDate r)
    /\ dueDate r = Some (today + offsetTo today (Z.of_nat i))
    /\ 1 <= offsetTo today (Z.of_nat i) <= 7
    /\ WeekDay (today + offsetTo today (Z.of_nat i)) = Z.of_nat i.
Proof.
  intros Now T1 T2 T3 T4 T5 T6 Nth Found Early In Md.
  pose proof (extractDate_order today text Now) as E.
  rewrite In, Md in E. specialize (E I).
  eexists. split; [ apply parse_of_date, E | ].
  cbn [dueDate].
  split.
  { rewrite <- (relativeDate_first today Now). unfold relativeDate.
    now rewrite T1, T2, T3, T4, T5, T6. }
  assert (I7 : (i < length days)%nat)
    by (apply nth_error_Some; rewrite Nth; discriminate).
  cbn [length days] in I7.
  split; [ | split;
             [ apply offsetTo_range | apply offsetTo_weekday; lia ] ].
  unfold firstMatching, relativeRules, triggers, some.
  cbn [find existsb fst]. rewrite T1, T2, T3, T4, T5, T6. cbn [orb].
  do 7 (destruct i as [ | i ];
        [ injection Nth as <-;
          try congruence;
          repeat match goal with
                 | |- context [includes (toLowerCase text) (list_ascii_of_string ?w)] =>
                     first
                       [ rewrite Found
                       | rewrite (Early 0%nat w) by (lia || reflexivity)
                       | rewrite (Early 1%nat w) by (lia || reflexivity)
                       | rewrite (Early 2%nat w) by (lia || reflexivity)
                       | rewrite (Early 3%nat w) by (lia || reflexivity)
                       | rewrite (Early 4%nat w) by (lia || reflexivity)
                       | rewrite (Early 5%nat w) by (lia || reflexivity) ];
                     cbn [orb]
                 end;
          cbn [dateOf option_map snd]; now rewrite daysToAdd_offsetTo by lia
        | ]).
  lia.
Qed.

Lemma weekday_loop_first_name_witness :
  exists r,
    parseNaturalLanguage 20759 "Call Ann friday or monday" = Ok r
    /\ weekdayLoop 20759 (toLowerCase "Call Ann friday or monday") days 0
       = Ok (dueDate r)
    /\ dueDate r = Some (20759 + offsetTo 20759 (Z.of_nat 1))
    /\ 1 <= offsetTo 20759 (Z.of_nat 1) <= 7
    /\ WeekDay (20759 + offsetTo 20759 (Z.of_nat 1)) = Z.of_nat 1.
Proof.
  apply (weekday_loop_first_name 20759 "Call Ann friday or monday" 1 "monday");
    [ unfold clock, maxDay; lia | reflexivity .. | | reflexivity | reflexivity ].
  intros j earlier Lt Nth.
  assert (j = 0)%nat as -> by lia.
  simpl in Nth. injection Nth as <-. reflexivity.
Defined.

(** C6 as stated fails: a later rule replaces the weekday's date. *)
Lemma weekday_overwritten_counterexample :
  includes (toLowerCase "friday in 3 days") "tomorrow" = false
  /\ includes (toLowerCase "friday in 3 days") "today" = false
  /\ includes (toLowerCase "friday in 3 days") "next week" = false
  /\ includes (toLowerCase "friday in 3 days") "weekend" = false
  /\ includes (toLowerCase "friday in 3 days") "saturday" = false
  /\ includes (toLowerCase "friday in 3 days") "sunday" = false
  /\ weekdayLoop 20759 (toLowerCase "friday in 3 days") days 0
     = Ok (Some (20759 + offsetTo 20759 5))
  /\ offsetTo 20759 5 = 4
  /\ exists r,
       parseNaturalLanguage 20759 "friday in 3 days" = Ok r
       /\ dueDate r = Some (20759 + 3)
       /\ dueDate r <> Some (20759 + offsetTo 20759 5).
Proof.
  repeat split; try reflexivity.
  eexists. split; [ vm_compute; reflexivity | ].
  split; [ reflexivity | discriminate ].
Qed.

(** C10, as the code has it.  On every pair the pattern can capture the M/D
    rule returns a day within the range of dates and never raises: the day
    [d] counted from the first of the month that [m] names, the months
    beyond December carried into the years after the current one and the
    days beyond the month into the months that follow, and moved to the
    same month and date of the next year when it lies before today.  The
    captures of every match are such pairs, so the rule returns that day on
    every input its pattern matches, and so does the parser whenever the
    day of an "in N days" pattern, if the input has one, is within the range
    of dates.  Month 13 with day 5 is 5 January of the year after the
    current one. *)
Theorem specific_date_rule_total today :
  clock today ->
  (forall m d : N,
      (m <= 99)%N -> (d <= 99)%N ->
      exists base z,
        YearFromTime base = YearFromTime today + (Z.of_N m - 1) / 12
        /\ MonthFromTime base = (Z.of_N m - 1) mod 12
        /\ DateFromTime base = 1
        /\ specificDate today m d = Ok z
        /\ Z.abs z <= maxDay
        /\ (today <= base + (Z.of_N d - 1) -> z = base + (Z.of_N d - 1))
        /\ (base + (Z.of_N d - 1) < today ->
            exists base',
              YearFromTime base' = YearFromTime (base + (Z.of_N d - 1)) + 1
              /\ MonthFromTime base' = MonthFromTime (base + (Z.of_N d - 1))
              /\ DateFromTime base' = 1
              /\ z = base' + (DateFromTime (base + (Z.of_N d - 1)) - 1)))
  /\ (forall text mt before,
         dateMatch text = Some mt ->
         (parseInt (group 1 mt) <= 99)%N /\ (parseInt (group 2 mt) <= 99)%N
         /\ exists z,
              specificDate today (parseInt (group 1 mt)) (parseInt (group 2 mt)) = Ok z
              /\ specificDateRule today text before = Ok (Some z)
              /\ Z.abs z <= maxDay)
  /\ (forall text mt,
         dateMatch text = Some mt ->
         match inDaysMatch (toLowerCase text) with
         | Some mi => today + Z.of_N (parseInt (group 1 mi)) <= maxDay
         | None => True
         end ->
         exists r z,
           parseNaturalLanguage today text = Ok r
           /\ specificDate today (parseInt (group 1 mt)) (parseInt (group 2 mt)) = Ok z
           /\ dueDate r = Some z /\ Z.abs z <= maxDay)
  /\ (exists r z,
         parseNaturalLanguage today "13/5" = Ok r
         /\ dueDate r = Some z
         /\ YearFromTime z = YearFromTime today + 1
         /\ MonthFromTime z = 0
         /\ DateFromTime z = 5).
Proof.
  intros Now. split; [ | split; [ | split ] ].
  - intros m d Hm Hd. now apply specificDate_overflow.
  - intros text mt before Md.
    destruct (dateMatch_numbers text mt Md) as [Hm Hd].
    split; [ exact Hm | split; [ exact Hd | ] ].
    destruct (specificDate_total today _ _ Now Hm Hd) as (z & Z1 & Z2).
    exists z. unfold specificDateRule. rewrite Md, Z1. now repeat split.
  - intros text mt Md In.
    destruct (dateMatch_numbers text mt Md) as [Hm Hd].
    destruct (specificDate_total today _ _ Now Hm Hd) as (z & Z1 & Z2).
    pose proof (extractDate_order today text Now In) as E.
    rewrite Md, Z1 in E. cbn [bind] in E.
    eexists. exists z. split; [ apply parse_of_date, E | now repeat split ].
  - destruct (specificDate_13_5 today Now) as (z & Z1 & Y & M & D).
    pose proof (extractDate_order today "13/5" Now I) as E.
    change (dateMatch "13/5")
      with (Some (mkState ["5"; "/"; "3"; "1"]%char []
                    [(2%nat, ["5"%char]); (1%nat, ["1"; "3"]%char)])) in E.
    cbv beta iota in E.
    change (parseInt _) with 13%N in E at 1.
    change (parseInt _) with 5%N in E.
    rewrite Z1 in E. cbn [bind] in E.
    eexists. exists z. split; [ apply parse_of_date, E | ].
    repeat split; trivial.
Qed.

Lemma specific_date_rule_total_witness :
  exists r z,
    parseNaturalLanguage 20759 "Dentist 14/40 in 3 days" = Ok r
    /\ specificDate 20759 14 40 = Ok z
    /\ dueDate r = Some z /\ Z.abs z <= maxDay.
Proof.
  assert (Now : clock 20759) by (unfold clock, maxDay; lia).
  destruct (specific_date_rule_total 20759 Now) as (_ & _ & P & _).
  apply (P "Dentist 14/40 in 3 days"
           (mkState (rev (list_ascii_of_string "Dentist 14/40"))
              (list_ascii_of_string " in 3 days")
              [(2%nat, list_ascii_of_string "40");
               (1%nat, list_ascii_of_string "14")])).
  - reflexivity.
  - vm_compute. discriminate.
Defined.

(** C10 as stated fails: the M/D pattern of "13/5 in 99999999 days" captures
    month 13 and day 5, which the M/D rule alone turns into 5 January of the
    next year, and the parser raises before it reaches that rule, at the
    "in N days" rule, whose day lies beyond the last date. *)
Lemma specific_date_overflow_counterexample :
  (exists mt,
      dateMatch "13/5 in 99999999 days" = Some mt
      /\ parseInt (group 1 mt) = 13%N /\ parseInt (group 2 mt) = 5%N)
  /\ specificDate 20759 13 5 = Ok 20823
  /\ YearFromTime 20823 = YearFromTime 20759 + 1
  /\ MonthFromTime 20823 = 0 /\ DateFromTime 20823 = 5
  /\ parseNaturalLanguage 20759 "13/5 in 99999999 days" = Throw RangeError
  /\ forall r, parseNaturalLanguage 20759 "13/5 in 99999999 days" <> Ok r.
Proof.
  split; [ eexists; split; [ vm_compute; reflexivity | split; reflexivity ] | ].
  repeat split; try (vm_compute; reflexivity).
  intros r P. vm_compute in P. discriminate.
Qed.

(** ** The time stage *)

Lemma firstWordTime_found lowerText kw :
  In kw (map fst wordTimes) -> includes lowerText kw = true ->
  exists first tm, firstWordTime lowerText = Some (first, tm).
Proof.
  intros Hin Hkw. unfold firstWordTime.
  destruct (find (fun p : string * string => includes lowerText (fst p)) wordTimes)
    as [ [first tm] | ] eqn:F; [ eauto | ].
  apply in_map_iff in Hin. destruct Hin as ([kw' tm'] & <- & Hin).
  apply (find_none _ _ F) in Hin. cbn [fst] in Hin, Hkw. congruence.
Qed.

(** The cascade of lines 191-196 is the first entry of the table found. *)
Lemma wordTime_first lowerText kw tm numeric :
  firstWordTime lowerText = Some (kw, tm) ->
  wordTime lowerText numeric = Some (list_ascii_of_string tm).
Proof.
  unfold firstWordTime, wordTimes, wordTime. cbn [find fst].
  repeat match goal with
         | |- context [includes lowerText ?w] => destruct (includes lowerText w)
         end;
    intros [= <- <-] || discriminate; reflexivity.
Qed.

(** C8. When the input contains a word-based time keyword, the first one of
    noon, midnight, morning, afternoon, evening, night found gives the due
    time, whatever the numeric patterns produced; "Meeting at 3pm in the
    evening" is due at 18:00, not at the 15:00 of its numeric pattern. *)
Theorem word_time_overrides today text kw :
  In kw (map fst wordTimes) ->
  includes (toLowerCase text) kw = true ->
  (exists first tm,
      firstWordTime (toLowerCase text) = Some (first, tm)
      /\ (forall numeric,
             wordTime (toLowerCase text) numeric = Some (list_ascii_of_string tm))
      /\ extractTime text (toLowerCase text) = Some (list_ascii_of_string tm)
      /\ (forall r, parseNaturalLanguage today text = Ok r ->
                    dueTime r = Some (list_ascii_of_string tm))
      /\ (forall d, extractDate today text (toLowerCase text) = Ok d ->
                    exists r, parseNaturalLanguage today text = Ok r
                              /\ dueTime r = Some (list_ascii_of_string tm)))
  /\ numericTime "Meeting at 3pm in the evening" = Some ("15:00" : list ascii)
  /\ parseNaturalLanguage today "Meeting at 3pm in the evening"
     = Ok (mkResult "Meeting in the evening" Work Medium None
             (Some ("18:00" : list ascii)) none).
Proof.
  intros Hin Hkw. split; [ | split; reflexivity ].
  destruct (firstWordTime_found _ _ Hin Hkw) as (first & tm & F).
  exists first, tm. split; [ exact F | ].
  split; [ intros numeric; now apply wordTime_first with first | ].
  split; [ now apply wordTime_first with first | ].
  split.
  - intros r P. apply parse_inversion in P. destruct P as (_ & T & _).
    rewrite T. now apply wordTime_first with first.
  - intros d E. eexists. split; [ apply parse_of_date, E | ].
    cbn [dueTime]. now apply wordTime_first with first.
Qed.

Lemma word_time_overrides_witness :
  exists r,
    parseNaturalLanguage 20759 "Standup 9:30 tomorrow afternoon" = Ok r
    /\ dueTime r = Some ("12:00" : list ascii)
    /\ numericTime "Standup 9:30 tomorrow afternoon" = Some ("09:30" : list ascii).
Proof.
  destruct (word_time_overrides 20759 "Standup 9:30 tomorrow afternoon" "afternoon")
    as [(first & tm & F & _ & _ & _ & P) _];
    [ simpl; tauto | reflexivity | ].
  destruct (P (Some 20760)) as (r & E & T); [ reflexivity | ].
  exists r. split; [ exact E | ]. split; [ | reflexivity ].
  rewrite T. vm_compute in F. injection F as _ <-. reflexivity.
Defined.

(** The 24-hour branch checks its numbers, and the word-based times are
    constants: what they produce is well formed. *)
Lemma time24_wellFormed m s : time24 m None = Some s -> wellFormedTime s.
Proof.
  unfold time24.
  rewrite !(proj2 (N.leb_le 0 _) (N.le_0_l _)).
  destruct (N.ltb_spec (parseInt (group 1 m)) 24);
    destruct (N.ltb_spec (parseInt (group 2 m)) 60);
    cbn [andb]; try discriminate.
  intros [= <-]. now exists (parseInt (group 1 m)), (parseInt (group 2 m)).
Qed.

Lemma wordTime_wellFormed lowerText s :
  wordTime lowerText None = Some s -> wellFormedTime s.
Proof.
  unfold wordTime.
  repeat match goal with
         | |- context [includes lowerText ?w] => destruct (includes lowerText w)
         end; try discriminate; intros [= <-].
  - now exists 12%N, 0%N.
  - now exists 0%N, 0%N.
  - now exists 9%N, 0%N.
  - now exists 14%N, 0%N.
  - now exists 18%N, 0%N.
  - now exists 20%N, 0%N.
Qed.

(** So is what the 12-hour branch produces from an hour in 1..12 and a
    minute below 60. *)
Lemma time12_wellFormed m :
  (1 <= parseInt (group 1 m) <= 12)%N ->
  match capture 2 m with
  | Some s => (parseInt s < 60)%N
  | None => True
  end ->
  wellFormedTime (time12 m).
Proof.
  intros Hh Hm. unfold time12, wellFormedTime.
  eexists. eexists. split; [ | split; [ | reflexivity ] ].
  - set (h := parseInt (group 1 m)) in *.
    destruct (JSString.eqb (toLowerCase (group 3 m)) "pm");
      destruct (JSString.eqb (toLowerCase (group 3 m)) "am");
      destruct (N.eqb_spec h 12); cbn [andb negb];
      try match goal with
          | |- context [N.eqb ?a 12] => destruct (N.eqb_spec a 12)
          end; lia.
  - destruct (capture 2 m) as [ [ | c s ] | ]; [ reflexivity | exact Hm | reflexivity ].
Qed.

Lemma formatTime_hour h m :
  (h < 24)%N ->
  exists a b, formatTime h m = a :: b :: ":"%char :: padStart2 (numberToString m)
              /\ In (a, b)
                   (map (fun k => match padStart2 (numberToString (N.of_nat k)) with
                                  | [x; y] => (x, y)
                                  | _ => ("?"%char, "?"%char)
                                  end) (seq 0 24)).
Proof.
  intros H.
  assert (K : exists k, (k < 24)%nat /\ h = N.of_nat k)
    by (exists (N.to_nat h); lia).
  destruct K as (k & L & ->). unfold formatTime.
  set (tail := padStart2 (numberToString m)).
  do 24 (destruct k as [ | k ];
         [ eexists; eexists; split; [ reflexivity | vm_compute; tauto ] | ]).
  lia.
Qed.

(** C7 fails on the code: the 12-hour branch takes any one- or two-digit
    hour and any two-digit minute, so "Call at 25pm" is due at 37:00, which
    is no time of day. *)
Theorem twelve_hour_branch_unchecked today :
  (exists m, exec true time12Pattern "Call at 25pm" = Some m
             /\ parseInt (group 1 m) = 25%N)
  /\ parseNaturalLanguage today "Call at 25pm"
     = Ok (mkResult "Call" Work Medium None (Some ("37:00" : list ascii)) none)
  /\ ~ wellFormedTime ("37:00" : list ascii).
Proof.
  split; [ eexists; split; vm_compute; reflexivity | ].
  split; [ reflexivity | ].
  intros (h & m & Hh & _ & E).
  destruct (formatTime_hour h m Hh) as (a & b & F & Hin).
  rewrite F in E. injection E as <- <- _.
  vm_compute in Hin. repeat (destruct Hin as [ Hin | Hin ]; [ discriminate | ]).
  exact Hin.
Qed.

(** ** The title *)

Module Cleaning.
Import JSString RegExp Parser Spec RegExpFacts.
Local Open Scope list_scope.
Local Open Scope nat_scope.

(** A quantified class is the greedy run over the input. *)
Lemma repeatMatcher_class m p lo hi k caps :
  (forall x k', m x k' = charMatcher p x k') ->
  forall s fuel count before,
    (length s < fuel)%nat ->
    repeatMatcher m lo hi k fuel count (mkState before s caps)
    = greedyRun p lo hi k caps count before s.
Proof.
  intros Hm. induction s as [ | c s IH ]; intros fuel count before Hf;
    (destruct fuel as [ | fuel ]; [ simpl in Hf; lia | ]);
    cbn [repeatMatcher greedyRun]; rewrite Hm; unfold charMatcher;
    cbn [remaining].
  - now destruct (reached hi count).
  - destruct (reached hi count); [ reflexivity | ].
    destruct (p c); [ | reflexivity ].
    cbn [step remaining consumed captures length].
    replace (Nat.ltb (length s) (S (length s))) with true
      by (symmetry; apply Nat.ltb_lt; lia).
    cbn [orb]. unfold step. cbn [consumed captures].
    rewrite IH by (simpl in Hf; lia). reflexivity.
Qed.

Lemma matcher_Quant_Class icase p lo hi before s caps k :
  matcher icase (Quant lo hi (Class p)) (mkState before s caps) k
  = greedyRun p lo hi k caps O before s.
Proof.
  cbn [matcher remaining]. apply repeatMatcher_class; [ reflexivity | lia ].
Qed.

(** With nothing after it, an unbounded run takes the whole of the
    longest prefix in the class. *)
Lemma greedyRun_longest p lo caps :
  forall s count before,
    greedyRun p lo None Some caps count before s
    = if Nat.leb lo (count + length (takeWhile p s))
      then Some (mkState (rev (takeWhile p s) ++ before) (dropWhile p s) caps)
      else None.
Proof.
  induction s as [ | c s IH ]; intros count before; cbn [greedyRun reached].
  - cbn [takeWhile dropWhile length rev app]. now rewrite Nat.add_0_r.
  - cbn [takeWhile dropWhile]. destruct (p c).
    + rewrite IH. cbn [length rev]. rewrite Nat.add_succ_r. cbn [Nat.add].
      rewrite <- app_assoc. cbn [app].
      destruct (Nat.leb_spec lo (S (count + length (takeWhile p s))));
        [ reflexivity | ].
      destruct (Nat.leb_spec lo count); [ lia | reflexivity ].
    + cbn [length rev app]. now rewrite Nat.add_0_r.
Qed.

(** [/\s+/] at a position: the run of white space there, if there is one. *)
Lemma matchAt_spaces before s :
  matchAt false (plus space) before s
  = match takeWhile isWhiteSpace s with
    | [] => None
    | _ :: _ =>
        Some (mkState (rev (takeWhile isWhiteSpace s) ++ before)
                (dropWhile isWhiteSpace s) [])
    end.
Proof.
  unfold matchAt, plus, space. rewrite matcher_Quant_Class, greedyRun_longest.
  now destruct (takeWhile isWhiteSpace s).
Qed.

Lemma dropWhile_length p s : (length (dropWhile p s) <= length s)%nat.
Proof.
  induction s as [ | c s IH ]; simpl; [ lia | ]. destruct (p c); simpl; lia.
Qed.

Lemma takeWhile_dropWhile p s : takeWhile p s ++ dropWhile p s = s.
Proof.
  induction s as [ | c s IH ]; simpl; [ reflexivity | ].
  destruct (p c); simpl; [ now rewrite IH | reflexivity ].
Qed.

Lemma forallb_dropWhile p s : forallb p (dropWhile p s) = forallb p s.
Proof.
  induction s as [ | c s IH ]; simpl; [ reflexivity | ].
  destruct (p c) eqn:E; simpl; [ exact IH | now rewrite E ].
Qed.

(** Collapsing the runs of white space keeps a text all white space, and
    keeps every other text not so. *)
Lemma collapse_spaces fuel :
  forall s before,
    (length s < fuel)%nat ->
    forallb isWhiteSpace
      (replaceLoop false (plus space) (" "%string : list ascii) fuel before s)
    = forallb isWhiteSpace s.
Proof.
  induction fuel as [ | fuel IH ]; intros s before Hf; [ lia | ].
  cbn [replaceLoop]. rewrite matchAt_spaces.
  destruct s as [ | c s ]; [ reflexivity | ].
  cbn [takeWhile]. destruct (isWhiteSpace c) eqn:W.
  - cbn [remaining consumed dropWhile]. rewrite W.
    pose proof (dropWhile_length isWhiteSpace s).
    replace (Nat.ltb (length (dropWhile isWhiteSpace s)) (length (c :: s)))
      with true by (symmetry; apply Nat.ltb_lt; simpl; lia).
    cbn [list_ascii_of_string app forallb].
    rewrite IH by (simpl in Hf; lia).
    rewrite forallb_dropWhile, W. reflexivity.
  - cbn [forallb]. rewrite W. reflexivity.
Qed.

Lemma trimStart_dropWhile s : trimStart s = dropWhile isWhiteSpace s.
Proof.
  induction s as [ | c s IH ]; simpl; [ reflexivity | ].
  now destruct (isWhiteSpace c).
Qed.

Lemma dropWhile_nil p s : dropWhile p s = [] <-> forallb p s = true.
Proof.
  induction s as [ | c s IH ]; simpl; [ tauto | ].
  destruct (p c); simpl; [ exact IH | ]. split; discriminate.
Qed.

Lemma forallb_rev p (s : list ascii) : forallb p (rev s) = forallb p s.
Proof.
  induction s as [ | c s IH ]; simpl; [ reflexivity | ].
  rewrite forallb_app, IH. simpl. rewrite andb_true_r. apply andb_comm.
Qed.

Lemma dropWhile_head p s c rest : dropWhile p s = c :: rest -> p c = false.
Proof.
  induction s as [ | d s IH ]; simpl; [ discriminate | ].
  destruct (p d) eqn:E; [ exact IH | ]. now intros [= <- _].
Qed.

(** [trim] leaves nothing exactly of the texts that are all white space. *)
Lemma trim_nil s : trim s = [] <-> forallb isWhiteSpace s = true.
Proof.
  unfold trim, trimEnd. rewrite !trimStart_dropWhile.
  split.
  - intros H. apply (f_equal (@rev ascii)) in H. rewrite rev_involutive in H.
    simpl in H. apply dropWhile_nil in H. rewrite forallb_rev in H.
    rewrite forallb_dropWhile in H. exact H.
  - intros H. apply dropWhile_nil in H. now rewrite H.
Qed.

Lemma collapse_nil s : collapse s = [] <-> forallb isWhiteSpace s = true.
Proof.
  unfold collapse, replaceAll. rewrite trim_nil, collapse_spaces by lia.
  tauto.
Qed.

Lemma capitalize_nil s : capitalize s = [] <-> s = [].
Proof.
  unfold capitalize. destruct s as [ | c s ]; simpl; [ tauto | ].
  split; discriminate.
Qed.

Lemma capitalize_length s : length (capitalize s) = length s.
Proof. destruct s; reflexivity. Qed.

End Cleaning.

Import Cleaning.

(** ** Removal of whole words *)

Module Keywords.
Import JSString RegExp Parser RegExpFacts Cleaning.
Local Open Scope list_scope.
Local Open Scope nat_scope.

Lemma matcher_lit icase w :
  forall before s caps k,
    matcher icase (lit w) (mkState before s caps) k
    = if startsWithLit icase w s
      then k (advance (mkState before s caps) (length w))
      else None.
Proof.
  induction w as [ | c w IH ]; intros before s caps k;
    cbn [lit matcher startsWithLit].
  - reflexivity.
  - unfold charMatcher. cbn [remaining].
    destruct s as [ | d rest ]; [ reflexivity | ].
    destruct (charEq icase c d); cbn [andb]; [ | reflexivity ].
    unfold step. cbn [consumed captures]. rewrite IH.
    destruct (startsWithLit icase w rest); [ | reflexivity ].
    f_equal. unfold advance.
    cbn [remaining consumed captures length firstn skipn rev].
    now rewrite <- app_assoc.
Qed.

Lemma matcher_alts_lit icase ws :
  forall w before s caps k,
    matcher icase (alts (lit w) (map lit ws)) (mkState before s caps) k
    = tryWords icase (w :: ws) (mkState before s caps) k.
Proof.
  induction ws as [ | w' ws IH ]; intros w before s caps k;
    cbn [map alts matcher tryWords].
  - rewrite matcher_lit. cbn [remaining].
    now destruct (if startsWithLit icase w s then _ else _).
  - rewrite matcher_lit, IH. reflexivity.
Qed.

Lemma matcher_words icase (w : string) (ws : list string) before s caps k :
  matcher icase (words w ws) (mkState before s caps) k
  = tryWords icase (map list_ascii_of_string (w :: ws)) (mkState before s caps) k.
Proof.
  unfold words.
  rewrite <- (map_map list_ascii_of_string lit). apply matcher_alts_lit.
Qed.

Lemma tryWords_some icase ws x k z :
  tryWords icase ws x k = Some z ->
  exists w, In w ws /\ startsWithLit icase w (remaining x) = true
            /\ k (advance x (length w)) = Some z.
Proof.
  induction ws as [ | w ws IH ]; cbn [tryWords]; [ discriminate | ].
  destruct (startsWithLit icase w (remaining x)) eqn:St.
  - destruct (k (advance x (length w))) as [ z' | ] eqn:K.
    + intros [= <-]. exists w. repeat split; trivial. now left.
    + intros H. destruct (IH H) as (w' & In' & H'). exists w'. split; [ now right | exact H' ].
  - intros H. destruct (IH H) as (w' & In' & H'). exists w'. split; [ now right | exact H' ].
Qed.

Lemma tryWords_none icase ws x k :
  tryWords icase ws x k = None ->
  forall w, In w ws -> startsWithLit icase w (remaining x) = true ->
            k (advance x (length w)) = None.
Proof.
  induction ws as [ | w ws IH ]; cbn [tryWords]; [ intros _ w [] | ].
  destruct (startsWithLit icase w (remaining x)) eqn:St.
  - destruct (k (advance x (length w))) as [ z' | ] eqn:K; [ discriminate | ].
    intros H w' [ <- | In' ] St'; [ exact K | now apply IH ].
  - intros H w' [ <- | In' ] St'; [ congruence | now apply IH ].
Qed.

(** *** Letters and word characters *)

Lemma upper_is_word d : isUpper (toUpperChar d) = true -> isWordChar d = true.
Proof.
  destruct d as [[] [] [] [] [] [] [] []]; vm_compute; trivial.
Qed.

Lemma letter_upper c : isLetter c = true -> isUpper (toUpperChar c) = true.
Proof.
  destruct c as [[] [] [] [] [] [] [] []]; vm_compute; trivial.
Qed.

Lemma charEq_letter c d :
  isLetter c = true -> charEq true c d = true -> isWordChar d = true.
Proof.
  intros L E. unfold charEq in E. apply Ascii.eqb_eq in E.
  apply upper_is_word. rewrite <- E. now apply letter_upper.
Qed.

Lemma wordRun_nil s : wordHead s = false -> wordRun s = [] /\ dropWhile isWordChar s = s.
Proof.
  unfold wordRun. destruct s as [ | c s ]; cbn [wordHead takeWhile dropWhile];
    [ now split | ].
  intros ->. now split.
Qed.

Lemma wordHead_dropWhile s : wordHead (dropWhile isWordChar s) = false.
Proof.
  destruct (dropWhile isWordChar s) as [ | c rest ] eqn:E; [ reflexivity | ].
  cbn [wordHead]. now apply dropWhile_head in E.
Qed.

Lemma wordRun_length s : length (wordRun s) + length (dropWhile isWordChar s) = length s.
Proof.
  unfold wordRun. rewrite <- length_app. now rewrite takeWhile_dropWhile.
Qed.

(** A word of letters at the start of [s] is part of the word run there. *)
Lemma startsWithLit_run w :
  forallb isLetter w = true ->
  forall s,
    startsWithLit true w s = true ->
    wordRun s = firstn (length w) s ++ wordRun (skipn (length w) s)
    /\ dropWhile isWordChar s = dropWhile isWordChar (skipn (length w) s)
    /\ length w <= length s
    /\ forallb isWordChar (firstn (length w) s) = true.
Proof.
  induction w as [ | c w IH ]; intros L s St.
  - simpl. repeat split; lia.
  - cbn [forallb] in L. apply andb_true_iff in L. destruct L as [Lc Lw].
    destruct s as [ | d s ]; [ discriminate | ].
    cbn [startsWithLit] in St. apply andb_true_iff in St. destruct St as [E St].
    pose proof (charEq_letter c d Lc E) as Wd.
    destruct (IH Lw s St) as (R & D & Len & All).
    cbn [length firstn skipn]. unfold wordRun in *. cbn [takeWhile dropWhile forallb].
    rewrite Wd. cbn [app andb]. rewrite R. repeat split; trivial. simpl. lia.
Qed.

Lemma startsWithLit_app icase w t u :
  startsWithLit icase w t = true -> startsWithLit icase w (t ++ u) = true.
Proof.
  revert t. induction w as [ | c w IH ]; intros t St; [ reflexivity | ].
  destruct t as [ | d t ]; [ discriminate | ].
  cbn [startsWithLit app] in *. apply andb_true_iff in St. destruct St as [E St].
  now rewrite E, IH.
Qed.

Lemma startsWithLit_firstn icase w s :
  startsWithLit icase w s = true ->
  startsWithLit icase w (firstn (length w) s) = true.
Proof.
  revert s. induction w as [ | c w IH ]; intros s St; [ reflexivity | ].
  destruct s as [ | d s ]; [ discriminate | ].
  cbn [startsWithLit length firstn] in *.
  apply andb_true_iff in St. destruct St as [E St].
  now rewrite E, IH.
Qed.

Lemma wordHead_rev t before :
  t <> [] -> forallb isWordChar t = true -> wordHead (rev t ++ before) = true.
Proof.
  intros Ne All. destruct (rev t) as [ | c r ] eqn:E.
  - apply (f_equal (@rev ascii)) in E. rewrite rev_involutive in E. now subst.
  - simpl. rewrite forallb_forall in All. apply All.
    apply in_rev. rewrite E. now left.
Qed.

Lemma skipn_takeWhile p s : skipn (length (takeWhile p s)) s = dropWhile p s.
Proof.
  induction s as [ | c s IH ]; cbn [takeWhile dropWhile]; [ reflexivity | ].
  destruct (p c); [ exact IH | reflexivity ].
Qed.

(** The word run of [s] is the word [w] exactly when [s] starts with [w]
    and no word character follows. *)
Lemma sameWord_run w s :
  forallb isLetter w = true ->
  sameWord true w (wordRun s) = true
  <-> startsWithLit true w s = true /\ wordHead (skipn (length w) s) = false.
Proof.
  intros L. unfold sameWord. rewrite andb_true_iff, Nat.eqb_eq. split.
  - intros [St Len].
    assert (St' : startsWithLit true w s = true).
    { rewrite <- (takeWhile_dropWhile isWordChar s). now apply startsWithLit_app. }
    split; [ exact St' | ].
    rewrite <- Len. unfold wordRun. rewrite skipn_takeWhile.
    apply wordHead_dropWhile.
  - intros [St Hd].
    destruct (startsWithLit_run w L s St) as (R & _ & Len & _).
    destruct (wordRun_nil _ Hd) as [Rn _].
    rewrite R, Rn, app_nil_r. split.
    + now apply startsWithLit_firstn.
    + rewrite length_firstn. lia.
Qed.

Lemma wordHead_app t before : t <> [] -> wordHead (t ++ before) = wordHead t.
Proof. destruct t; [ congruence | reflexivity ]. Qed.

Lemma wholeWordAt_true ws before s :
  wholeWordAt ws before s = true
  <-> wordHead before = false /\ isKeyword true ws (wordRun s) = true.
Proof.
  unfold wholeWordAt. rewrite andb_true_iff, negb_true_iff. tauto.
Qed.

(** *** One removal pass and the whole words of a list

    A pass whose matches start after a non-word character (or at the start)
    and do not end inside a word neither joins nor shortens a word of the
    text.  If moreover it matches wherever a word of the list stands as a
    whole word, none is left. *)

Section Pass.
Variable r : regex.
Variable K : list (list ascii).
Hypothesis K_nonempty : isKeyword true K [] = false.
Hypothesis edges :
  forall before s y,
    matchAt true r before s = Some y ->
    exists m, m <> [] /\ s = m ++ remaining y /\ consumed y = rev m ++ before
              /\ wordHead before = false
              /\ (wordHead (rev m) = false \/ wordHead (remaining y) = false).

Lemma pass_inside_word before s :
  wordHead before = true -> matchAt true r before s = None.
Proof.
  intros Hb. destruct (matchAt true r before s) as [ y | ] eqn:M; [ | reflexivity ].
  destruct (edges _ _ _ M) as (_ & _ & _ & _ & Hb' & _). congruence.
Qed.

(** After a word character the pass copies the word run it is in. *)
Lemma pass_run fuel :
  forall s before,
    length s < fuel -> wordHead before = true ->
    wordRun (replaceLoop true r [] fuel before s) = wordRun s.
Proof.
  induction fuel as [ | fuel IH ]; intros s before Hf Hb; [ lia | ].
  cbn [replaceLoop]. rewrite pass_inside_word by exact Hb.
  destruct s as [ | c s ]; [ reflexivity | ].
  unfold wordRun. cbn [takeWhile].
  destruct (isWordChar c) eqn:W; [ | reflexivity ].
  f_equal. apply IH; [ simpl in Hf; lia | exact W ].
Qed.

Lemma pass_clean fuel :
  forall s before out,
    length s < fuel ->
    wordHead before = wordHead out
    \/ (wordHead before = true /\ wordHead out = false /\ wordHead s = false) ->
    (forall p q, s = p ++ q ->
                 wholeWordAt K (rev p ++ before) q = true ->
                 matchAt true r (rev p ++ before) q <> None) ->
    noWholeWord K out (replaceLoop true r [] fuel before s).
Proof.
  induction fuel as [ | fuel IH ]; intros s before out Hf Inv Cov p q E; [ lia | ].
  cbn [replaceLoop] in E.
  destruct (matchAt true r before s) as [ y | ] eqn:M.
  - destruct (edges _ _ _ M) as (m & Ne & Es & Cy & Hb & Edge).
    assert (Lt : length (remaining y) < length s).
    { rewrite Es, length_app. destruct m; [ congruence | simpl; lia ]. }
    rewrite (proj2 (Nat.ltb_lt _ _) Lt) in E. cbn [app] in E.
    assert (Ho : wordHead out = false)
      by (destruct Inv as [I | (I & _)]; congruence).
    assert (Nr : rev m <> []).
    { intros R. apply (f_equal (@rev ascii)) in R. rewrite rev_involutive in R.
      now apply Ne. }
    apply (IH (remaining y) (consumed y) out); [ lia | | | exact E ].
    + rewrite Cy, (wordHead_app _ before Nr), Ho.
      destruct (wordHead (rev m)) eqn:Hm; [ right | now left ].
      destruct Edge as [Ed | Ed]; [ congruence | now repeat split ].
    + intros p' q' E' W. rewrite Cy in *.
      replace (rev p' ++ rev m ++ before) with (rev (m ++ p') ++ before) in *
        by now rewrite rev_app_distr, <- app_assoc.
      apply (Cov (m ++ p') q'); [ | exact W ].
      now rewrite Es, E', app_assoc.
  - destruct s as [ | c s ].
    + symmetry in E. apply app_eq_nil in E. destruct E as [-> ->].
      unfold wholeWordAt, wordRun. cbn [takeWhile].
      rewrite K_nonempty. apply andb_false_r.
    + destruct p as [ | d p ].
      * cbn [app] in E. subst q. cbn [rev app].
        unfold wholeWordAt. destruct (wordHead out) eqn:Ho; [ reflexivity | ].
        cbn [negb andb].
        destruct Inv as [I | (_ & _ & Hs)].
        -- assert (W : wholeWordAt K before (c :: s) = false).
           { destruct (wholeWordAt K before (c :: s)) eqn:W; [ | reflexivity ].
             exfalso. now apply (Cov [] (c :: s) eq_refl). }
           unfold wholeWordAt in W. rewrite I in W. cbn [negb andb] in W.
           replace (wordRun (c :: replaceLoop true r [] fuel (c :: before) s))
             with (wordRun (c :: s)); [ exact W | ].
           unfold wordRun. cbn [takeWhile].
           destruct (isWordChar c) eqn:Wc; [ | reflexivity ].
           f_equal. symmetry. apply pass_run; [ simpl in Hf; lia | exact Wc ].
        -- cbn [wordHead] in Hs. unfold wordRun. cbn [takeWhile].
           rewrite Hs. exact K_nonempty.
      * injection E as <- E. cbn [rev]. rewrite <- app_assoc. cbn [app].
        apply (IH s (c :: before) (c :: out)); [ simpl in Hf; lia | now left | | exact E ].
        intros p' q' E' W.
        replace (rev p' ++ c :: before) with (rev (c :: p') ++ before) in *
          by (cbn [rev]; now rewrite <- app_assoc).
        apply (Cov (c :: p') q'); [ now rewrite E' | exact W ].
Qed.

(** The pass leaves no whole word of the list that it matches wherever
    one stands. *)
Lemma pass_establishes s :
  (forall before q, wholeWordAt K before q = true ->
                    matchAt true r before q <> None) ->
  noWholeWord K [] (replaceAll true r [] s).
Proof.
  intros Cov. unfold replaceAll. apply pass_clean; [ lia | now left | ].
  intros p q _. apply Cov.
Qed.

(** The pass brings no whole word of the list into a text that has none. *)
Lemma pass_preserves s :
  noWholeWord K [] s -> noWholeWord K [] (replaceAll true r [] s).
Proof.
  intros Clean. unfold replaceAll. apply pass_clean; [ lia | now left | ].
  intros p q E W. rewrite (Clean p q E) in W. discriminate.
Qed.

End Pass.

(** *** A group of words between two word boundaries, with the [i] flag *)

Section WholeWords.
Variable w0 : list ascii.
Variable ws0 : list (list ascii).
Hypothesis letters :
  Forall (fun w => w <> [] /\ forallb isLetter w = true) (w0 :: ws0).

Lemma matchAt_wholeWords before s :
  matchAt true (wordGroup w0 ws0) before s
  = if xorb (wordHead before) (wordHead s)
    then
      tryWords true (w0 :: ws0) (mkState before s [])
        (fun y =>
           if atBoundary (setCapture 1 (between (mkState before s []) y) y)
           then Some (setCapture 1 (between (mkState before s []) y) y)
           else None)
    else None.
Proof.
  unfold matchAt, wordGroup, bounded. cbn [matcher].
  rewrite matcher_alts_lit. reflexivity.
Qed.

Lemma word_ahead w s before :
  w <> [] -> forallb isLetter w = true -> startsWithLit true w s = true ->
  wordHead s = true
  /\ wordHead (rev (firstn (length w) s) ++ before) = true
  /\ firstn (length w) s <> [].
Proof.
  intros Ne L St.
  destruct (startsWithLit_run w L s St) as (_ & _ & Len & All).
  destruct w as [ | c w ]; [ congruence | ].
  destruct s as [ | d s ]; [ discriminate | ].
  assert (Nf : firstn (length (c :: w)) (d :: s) <> []) by discriminate.
  split; [ | split; [ now apply wordHead_rev | exact Nf ] ].
  cbn [length firstn forallb] in All. apply andb_true_iff in All. apply All.
Qed.

Lemma boundary_after w s before t :
  w <> [] -> forallb isLetter w = true -> startsWithLit true w s = true ->
  atBoundary (setCapture 1 t (advance (mkState before s []) (length w)))
  = negb (wordHead (skipn (length w) s)).
Proof.
  intros Ne L St. destruct (word_ahead w s before Ne L St) as (_ & Hb & _).
  unfold atBoundary, wordBefore, wordAhead, setCapture, advance.
  cbn [consumed remaining]. fold (wordHead (rev (firstn (length w) s) ++ before)).
  fold (wordHead (skipn (length w) s)). now rewrite Hb.
Qed.

Lemma wholeWords_hit before s y :
  matchAt true (wordGroup w0 ws0) before s = Some y ->
  wholeWordAt (w0 :: ws0) before s = true
  /\ remaining y = dropWhile isWordChar s
  /\ consumed y = rev (wordRun s) ++ before
  /\ wordRun s <> [].
Proof.
  rewrite matchAt_wholeWords.
  destruct (xorb (wordHead before) (wordHead s)) eqn:X; [ | discriminate ].
  intros H. apply tryWords_some in H. destruct H as (w & Hin & St & K).
  cbn [remaining] in St.
  rewrite Forall_forall in letters. destruct (letters w Hin) as [Ne L].
  rewrite (boundary_after w s before _ Ne L St) in K.
  destruct (wordHead (skipn (length w) s)) eqn:Hd; [ discriminate | ].
  cbn [negb] in K. injection K as <-.
  destruct (startsWithLit_run w L s St) as (R & D & Len & All).
  destruct (wordRun_nil _ Hd) as [Rn Dn].
  destruct (word_ahead w s before Ne L St) as (Hs & _ & Nf).
  rewrite Rn, app_nil_r in R. rewrite Dn in D.
  cbn [setCapture advance remaining consumed]. rewrite R, D.
  repeat split; trivial.
  unfold wholeWordAt. rewrite Hs in X.
  destruct (wordHead before); [ discriminate | ]. cbn [negb andb].
  unfold isKeyword. apply existsb_exists. exists w. split; [ exact Hin | ].
  apply sameWord_run; [ exact L | now split ].
Qed.

Lemma wholeWords_no_hit before s :
  wholeWordAt (w0 :: ws0) before s = false ->
  matchAt true (wordGroup w0 ws0) before s = None.
Proof.
  intros Hit. destruct (matchAt true (wordGroup w0 ws0) before s) as [ y | ] eqn:M;
    [ | reflexivity ].
  apply wholeWords_hit in M. destruct M as [M _]. congruence.
Qed.

End WholeWords.

(** *** Patterns whose matches keep clear of the words *)

Lemma firstLetter_ahead r :
  firstLetter r = true ->
  forall x y,
    Matches true r x y ->
    wordAhead x = true /\ length (remaining y) < length (remaining x).
Proof.
  induction r as [ | c | p | r1 IH1 r2 IH2 | r1 IH1 r2 IH2 | lo hi r IH | i r IH | ];
    cbn [firstLetter]; intros F x y M; try discriminate; inversion M; subst.
  - unfold wordAhead.
    match goal with H : remaining x = _ |- _ => rewrite H end.
    split; [ eapply charEq_letter; eassumption | simpl; lia ].
  - match goal with H : Matches true r1 x _ |- _ =>
      destruct (IH1 F _ _ H) as [A L] end.
    match goal with H : Matches true r2 _ y |- _ =>
      destruct (Matches_spans _ _ _ _ H) as (pre & Sp & _) end.
    split; [ exact A | ]. rewrite Sp, length_app in L. lia.
  - apply andb_true_iff in F. now apply IH1.
  - apply andb_true_iff in F. now apply IH2.
  - unfold setCapture. cbn [remaining]. now apply IH.
Qed.

(** A pattern between two word boundaries that starts with a letter. *)
Lemma edges_bounded r :
  firstLetter r = true ->
  forall before s y,
    matchAt true (bounded r) before s = Some y ->
    exists m, m <> [] /\ s = m ++ remaining y /\ consumed y = rev m ++ before
              /\ wordHead before = false
              /\ (wordHead (rev m) = false \/ wordHead (remaining y) = false).
Proof.
  intros F before s y M. unfold matchAt in M.
  apply matcher_sound in M. destruct M as (y' & M & [= ->]).
  unfold bounded in M.
  inversion M as [ | | | ? ? ? x1 ? M1 M2 | | | | | ]; subst; clear M.
  inversion M1; subst; clear M1.
  inversion M2 as [ | | | ? ? ? x2 ? M3 M4 | | | | | ]; subst; clear M2.
  inversion M4; subst; clear M4.
  destruct (firstLetter_ahead r F _ _ M3) as [A L].
  destruct (Matches_spans _ _ _ _ M3) as (m & Sp & Cy).
  cbn [remaining consumed] in *.
  assert (Ne : m <> []) by (intros ->; rewrite Sp in L; simpl in L; lia).
  assert (Nr : rev m <> []).
  { intros R. apply (f_equal (@rev ascii)) in R. rewrite rev_involutive in R.
    now apply Ne. }
  exists m. repeat split; trivial.
  - match goal with H : atBoundary (mkState before s []) = true |- _ =>
      unfold atBoundary in H; rewrite A in H; unfold wordBefore in H;
      cbn [consumed] in H; fold (wordHead before) in H end.
    now destruct (wordHead before).
  - match goal with H : atBoundary y = true |- _ =>
      unfold atBoundary, wordBefore, wordAhead in H; rewrite Cy in H;
      fold (wordHead (rev m ++ before)) in H; fold (wordHead (remaining y)) in H;
      rewrite (wordHead_app _ before Nr) in H end.
    destruct (wordHead (rev m)); [ right | now left ].
    now destruct (wordHead (remaining y)).
Qed.

Lemma whiteSpace_not_word c : isWhiteSpace c = true -> isWordChar c = false.
Proof.
  destruct c as [[] [] [] [] [] [] [] []]; vm_compute; trivial; discriminate.
Qed.

(** A word of letters after a word boundary, with the white space after it. *)
Lemma edges_word_spaces w :
  firstLetter (lit w) = true ->
  forall before s y,
    matchAt true (Seq WordBoundary (Seq (lit w) (plus space))) before s = Some y ->
    exists m, m <> [] /\ s = m ++ remaining y /\ consumed y = rev m ++ before
              /\ wordHead before = false
              /\ (wordHead (rev m) = false \/ wordHead (remaining y) = false).
Proof.
  intros F before s y M. unfold matchAt in M.
  apply matcher_sound in M. destruct M as (y' & M & [= ->]).
  inversion M as [ | | | ? ? ? x1 ? M1 M2 | | | | | ]; subst; clear M.
  inversion M1; subst; clear M1.
  inversion M2 as [ | | | ? ? ? x2 ? M3 M4 | | | | | ]; subst; clear M2.
  destruct (firstLetter_ahead _ F _ _ M3) as [A L].
  destruct (Matches_spans _ _ _ _ M3) as (m1 & Sp1 & Cy1).
  unfold plus, space in M4. apply Matches_Quant_Class in M4.
  destruct M4 as (m2 & [Sp2 Cy2] & Lo & _ & Ws & _).
  cbn [remaining consumed] in *.
  exists (m1 ++ m2).
  assert (N2 : m2 <> []) by (destruct m2; [ simpl in Lo; lia | discriminate ]).
  repeat split.
  - intros E. apply app_eq_nil in E. now destruct E.
  - now rewrite Sp1, Sp2, app_assoc.
  - now rewrite Cy2, Cy1, rev_app_distr, app_assoc.
  - match goal with H : atBoundary (mkState before s []) = true |- _ =>
      unfold atBoundary in H; rewrite A in H; unfold wordBefore in H;
      cbn [consumed] in H; fold (wordHead before) in H end.
    now destruct (wordHead before).
  - left. rewrite rev_app_distr.
    destruct (rev m2) as [ | c t ] eqn:R.
    + apply (f_equal (@rev ascii)) in R. rewrite rev_involutive in R. now subst.
    + cbn [app wordHead]. apply whiteSpace_not_word.
      rewrite Forall_forall in Ws. apply Ws. apply in_rev. rewrite R. now left.
Qed.

(** *** Patterns that match wherever a word of a list stands *)

Section Covering.
Variable w0 : list ascii.
Variable ws0 : list (list ascii).
Variable K : list (list ascii).
Hypothesis listed : incl K (w0 :: ws0).
Hypothesis lettersK : Forall (fun w => w <> [] /\ forallb isLetter w = true) K.

Lemma nonempty_words : isKeyword true K [] = false.
Proof.
  destruct (isKeyword true K []) eqn:E; [ | reflexivity ].
  unfold isKeyword in E. apply existsb_exists in E.
  destruct E as (w & Hin & Same).
  rewrite Forall_forall in lettersK. destruct (lettersK w Hin) as [Ne _].
  destruct w; [ congruence | discriminate ].
Qed.

Lemma wordGroup_covers before s :
  wholeWordAt K before s = true ->
  matchAt true (wordGroup w0 ws0) before s <> None.
Proof.
  intros W H. apply wholeWordAt_true in W. destruct W as [Hb Kw].
  unfold isKeyword in Kw. apply existsb_exists in Kw.
  destruct Kw as (w & Hin & Same).
  rewrite Forall_forall in lettersK. destruct (lettersK w Hin) as [Ne L].
  apply (sameWord_run w s L) in Same. destruct Same as [St Hd].
  destruct (word_ahead w s before Ne L St) as (Hs & _ & _).
  rewrite matchAt_wholeWords, Hb, Hs in H. cbn [xorb] in H.
  pose proof (tryWords_none _ _ _ _ H w (listed w Hin) St) as Kn. cbv beta in Kn.
  rewrite (boundary_after w s before _ Ne L St), Hd in Kn. discriminate.
Qed.

End Covering.

Lemma searchFrom_nowhere icase r :
  forall s out,
    (forall p q, s = p ++ q -> matchAt icase r (rev p ++ out) q = None) ->
    searchFrom icase r out s = None.
Proof.
  induction s as [ | c s IH ]; intros out H; cbn [searchFrom].
  - pose proof (H [] [] eq_refl) as M. cbn [rev app] in M. now rewrite M.
  - pose proof (H [] (c :: s) eq_refl) as M. cbn [rev app] in M. rewrite M.
    apply IH. intros p q E.
    replace (rev p ++ c :: out) with (rev (c :: p) ++ out)
      by (cbn [rev]; now rewrite <- app_assoc).
    apply H. now rewrite E.
Qed.

(** A group of words of letters finds nothing in what its removal leaves. *)
Theorem wordGroup_removed w0 ws0 :
  Forall (fun w => w <> [] /\ forallb isLetter w = true) (w0 :: ws0) ->
  forall s,
    noWholeWord (w0 :: ws0) [] (replaceAll true (wordGroup w0 ws0) [] s)
    /\ test true (wordGroup w0 ws0) (replaceAll true (wordGroup w0 ws0) [] s) = false.
Proof.
  intros L s.
  assert (F : firstLetter (Group 1 (alts (lit w0) (map lit ws0))) = true).
  { cbn [firstLetter]. clear s. revert w0 L.
    induction ws0 as [ | w1 ws IH ]; intros w0 L; cbn [map alts firstLetter].
    - inversion L as [ | ? ? [Ne Lw] _ ]; subst.
      destruct w0 as [ | c w0 ]; [ congruence | ].
      cbn [lit firstLetter forallb] in *. now apply andb_true_iff in Lw.
    - inversion L as [ | ? ? [Ne Lw] L' ]; subst.
      apply andb_true_iff. split; [ | now apply IH ].
      destruct w0 as [ | c w0 ]; [ congruence | ].
      cbn [lit firstLetter forallb] in *. now apply andb_true_iff in Lw. }
  assert (C : noWholeWord (w0 :: ws0) []
                (replaceAll true (wordGroup w0 ws0) [] s)).
  { apply pass_establishes.
    - now apply nonempty_words.
    - unfold wordGroup. now apply edges_bounded.
    - intros before q. apply wordGroup_covers; [ apply incl_refl | exact L ]. }
  split; [ exact C | ].
  unfold test, exec. rewrite searchFrom_nowhere; [ reflexivity | ].
  intros p q E. apply wholeWords_no_hit; [ exact L | ]. now apply C.
Qed.

End Keywords.

Import Keywords.

Lemma searchFrom_none icase r :
  forall s out,
    searchFrom icase r out s = None ->
    forall p q, s = (p ++ q)%list -> matchAt icase r (rev p ++ out)%list q = None.
Proof.
  induction s as [ | c s IH ]; intros out H p q E; cbn [searchFrom] in H.
  - destruct (matchAt icase r out []) eqn:M; [ discriminate | ].
    symmetry in E. apply app_eq_nil in E. destruct E as [-> ->]. exact M.
  - destruct (matchAt icase r out (c :: s)) eqn:M; [ discriminate | ].
    destruct p as [ | d p ].
    + simpl in E. subst q. exact M.
    + injection E as <- E. cbn [rev]. rewrite <- app_assoc. cbn [app].
      now apply IH.
Qed.

(** ** The words left in the title *)

Module TitleWords.
Import JSString RegExp Parser Spec RegExpFacts Cleaning Keywords.
Local Open Scope list_scope.
Local Open Scope nat_scope.

(** *** Passes that find nothing *)

Lemma replaceLoop_no_match icase r repl fuel :
  forall s before,
    (forall p q, s = p ++ q -> matchAt icase r (rev p ++ before) q = None) ->
    replaceLoop icase r repl fuel before s = s.
Proof.
  induction fuel as [ | fuel IH ]; intros s before H; [ reflexivity | ].
  cbn [replaceLoop].
  pose proof (H [] s eq_refl) as M. cbn [rev app] in M. rewrite M.
  destruct s as [ | c s ]; [ reflexivity | ].
  f_equal. apply IH. intros p q E.
  replace (rev p ++ c :: before) with (rev (c :: p) ++ before)
    by (cbn [rev]; now rewrite <- app_assoc).
  apply H. now rewrite E.
Qed.

(** What a removal leaves is made of code units of the text. *)
Lemma replaceLoop_Forall (P : ascii -> Prop) icase r fuel :
  forall s before,
    Forall P s -> Forall P (replaceLoop icase r [] fuel before s).
Proof.
  induction fuel as [ | fuel IH ]; intros s before H; [ exact H | ].
  cbn [replaceLoop].
  destruct (matchAt icase r before s) as [ y | ] eqn:M.
  - unfold matchAt in M. apply matcher_sound in M.
    destruct M as (y' & M & [= ->]).
    apply Matches_spans in M. destruct M as (m & Sp & _). cbn [remaining] in Sp.
    destruct (Nat.ltb (length (remaining y)) (length s)).
    + cbn [app]. apply IH. rewrite Sp in H. now apply Forall_app in H.
    + destruct s as [ | c s ]; [ constructor | ].
      cbn [app]. inversion H; subst. constructor; [ assumption | now apply IH ].
  - destruct s as [ | c s ]; [ constructor | ].
    inversion H; subst. constructor; [ assumption | now apply IH ].
Qed.

(** The two clock patterns start with a digit. *)
Lemma digit_first icase r before s y :
  matchAt icase (Seq (Quant 1 (Some 2) digit) r) before s = Some y ->
  exists c rest, s = c :: rest /\ isDigit c = true.
Proof.
  intros M. unfold matchAt in M. apply matcher_sound in M.
  destruct M as (y' & M & _).
  inversion M as [ | | | ? ? ? x1 ? M1 M2 | | | | | ]; subst; clear M.
  unfold digit in M1. apply Matches_Quant_Class in M1.
  destruct M1 as (pre & [Sp _] & Lo & _ & D & _). cbn [remaining] in Sp.
  destruct pre as [ | c pre ]; [ simpl in Lo; lia | ].
  exists c, (pre ++ remaining x1). split; [ exact Sp | ].
  now inversion D.
Qed.

Lemma digitFree_no_clock icase r s :
  digitFree s ->
  replaceAll icase (Seq (Quant 1 (Some 2) digit) r) [] s = s.
Proof.
  intros D. unfold replaceAll. apply replaceLoop_no_match. intros p q E.
  destruct (matchAt icase _ (rev p ++ []) q) as [ y | ] eqn:M; [ | reflexivity ].
  apply digit_first in M. destruct M as (c & rest & -> & Dc).
  unfold digitFree in D. rewrite E in D. apply Forall_app in D.
  destruct D as [_ D]. inversion D; subst. congruence.
Qed.

(** *** The date pattern matches wherever "tomorrow" or "today" stands *)

Lemma dateWords_covers before s :
  wholeWordAt (map list_ascii_of_string ["tomorrow"; "today"]%string) before s = true ->
  matchAt true dateWords before s <> None.
Proof.
  intros W. apply wholeWordAt_true in W. destruct W as [Hb Kw].
  unfold isKeyword in Kw. cbn [map existsb] in Kw. rewrite orb_false_r in Kw.
  unfold matchAt, dateWords, bounded. cbn [matcher alts].
  unfold atBoundary at 1, wordBefore, wordAhead. cbn [consumed remaining].
  fold (wordHead before). fold (wordHead s). rewrite Hb.
  rewrite !matcher_lit.
  apply orb_true_iff in Kw. destruct Kw as [Same | Same];
    apply sameWord_run in Same; try reflexivity; destruct Same as [St Hd].
  - destruct (word_ahead (list_ascii_of_string "tomorrow") s before
                ltac:(discriminate) eq_refl St) as (Hs & _ & _).
    rewrite Hs, St. cbn [xorb].
    rewrite (boundary_after (list_ascii_of_string "tomorrow") s before _
               ltac:(discriminate) eq_refl St), Hd.
    discriminate.
  - destruct (word_ahead (list_ascii_of_string "today") s before
                ltac:(discriminate) eq_refl St) as (Hs & _ & _).
    rewrite Hs, St. cbn [xorb].
    rewrite (boundary_after (list_ascii_of_string "today") s before _
               ltac:(discriminate) eq_refl St), Hd.
    cbn [negb].
    now destruct (if startsWithLit true (list_ascii_of_string "tomorrow") s then _ else _).
Qed.

(** *** White space, trimming and the capital letter *)

Section Tail.
Variable K : list (list ascii).
Hypothesis K_nonempty : isKeyword true K [] = false.

Lemma wordRun_nonword c s : isWordChar c = false -> wordRun (c :: s) = [].
Proof. intros H. unfold wordRun. cbn [takeWhile]. now rewrite H. Qed.

Lemma wholeWordAt_nonword before c s :
  isWordChar c = false -> wholeWordAt K before (c :: s) = false.
Proof.
  intros H. unfold wholeWordAt. rewrite (wordRun_nonword c s H), K_nonempty.
  apply andb_false_r.
Qed.

Lemma wholeWordAt_nil before : wholeWordAt K before [] = false.
Proof. unfold wholeWordAt. cbn. rewrite K_nonempty. apply andb_false_r. Qed.

(** A whole word depends on the text before it only through its last
    code unit. *)
Lemma wholeWordAt_head b1 b2 s :
  wordHead b1 = wordHead b2 -> wholeWordAt K b1 s = wholeWordAt K b2 s.
Proof. intros H. unfold wholeWordAt. now rewrite H. Qed.

Lemma noWholeWord_suffix before p s :
  noWholeWord K before (p ++ s) -> noWholeWord K (rev p ++ before) s.
Proof.
  intros H p' q E.
  replace (rev p' ++ rev p ++ before) with (rev (p ++ p') ++ before)
    by now rewrite rev_app_distr, <- app_assoc.
  apply H. now rewrite E, app_assoc.
Qed.

Lemma noWholeWord_head b1 b2 s :
  wordHead b1 = wordHead b2 -> noWholeWord K b1 s -> noWholeWord K b2 s.
Proof.
  intros H C p q E. transitivity (wholeWordAt K (rev p ++ b1) q);
    [ | exact (C p q E) ].
  symmetry. destruct p as [ | c p ].
  - cbn [rev app]. now apply wholeWordAt_head.
  - apply wholeWordAt_head.
    assert (N : rev (c :: p) <> []).
    { cbn [rev]. intros R. apply app_eq_nil in R. now destruct R. }
    now rewrite !(wordHead_app _ _ N).
Qed.

Lemma collapse_run fuel :
  forall s before,
    length s < fuel ->
    wordRun (replaceLoop false (plus space) (" "%string : list ascii) fuel before s)
    = wordRun s.
Proof.
  induction fuel as [ | fuel IH ]; intros s before Hf; [ lia | ].
  cbn [replaceLoop]. rewrite matchAt_spaces.
  destruct s as [ | c s ]; [ reflexivity | ].
  cbn [takeWhile]. destruct (isWhiteSpace c) eqn:Ws.
  - cbn [remaining consumed dropWhile]. rewrite Ws.
    pose proof (dropWhile_length isWhiteSpace s).
    replace (Nat.ltb (length (dropWhile isWhiteSpace s)) (length (c :: s)))
      with true by (symmetry; apply Nat.ltb_lt; simpl; lia).
    cbn [list_ascii_of_string app].
    now rewrite (wordRun_nonword c s (whiteSpace_not_word c Ws)).
  - unfold wordRun. cbn [takeWhile].
    destruct (isWordChar c); [ | reflexivity ].
    f_equal. apply IH. simpl in Hf. lia.
Qed.

Lemma whiteSpace_head t :
  t <> [] -> Forall (fun c => isWhiteSpace c = true) t -> wordHead (rev t) = false.
Proof.
  intros Ne Ws. destruct (rev t) as [ | c r ] eqn:R.
  - reflexivity.
  - cbn [wordHead]. apply whiteSpace_not_word. rewrite Forall_forall in Ws.
    apply Ws. apply in_rev. rewrite R. now left.
Qed.

Lemma takeWhile_Forall p s : Forall (fun c => p c = true) (takeWhile p s).
Proof.
  induction s as [ | c s IH ]; cbn [takeWhile]; [ constructor | ].
  destruct (p c) eqn:E; [ now constructor | constructor ].
Qed.

Lemma collapse_clean fuel :
  forall s before out,
    length s < fuel ->
    wordHead before = wordHead out ->
    noWholeWord K before s ->
    noWholeWord K out
      (replaceLoop false (plus space) (" "%string : list ascii) fuel before s).
Proof.
  induction fuel as [ | fuel IH ]; intros s before out Hf Hd C p q E; [ lia | ].
  cbn [replaceLoop] in E. rewrite matchAt_spaces in E.
  destruct s as [ | c s ].
  - cbn [takeWhile] in E. symmetry in E. apply app_eq_nil in E.
    destruct E as [-> ->]. apply wholeWordAt_nil.
  - cbn [takeWhile] in E. destruct (isWhiteSpace c) eqn:Ws.
    + cbn [remaining consumed dropWhile] in E. rewrite Ws in E.
      pose proof (dropWhile_length isWhiteSpace s).
      replace (Nat.ltb (length (dropWhile isWhiteSpace s)) (length (c :: s)))
        with true in E by (symmetry; apply Nat.ltb_lt; simpl; lia).
      cbn [list_ascii_of_string app] in E.
      destruct p as [ | d p ].
      * cbn [app] in E. subst q. now apply wholeWordAt_nonword.
      * injection E as <- E.
        replace (rev (" "%char :: p) ++ out) with (rev p ++ " "%char :: out)
          by (cbn [rev]; now rewrite <- app_assoc).
        apply (IH (dropWhile isWhiteSpace s)
                 (rev (c :: takeWhile isWhiteSpace s) ++ before) (" "%char :: out));
          [ simpl in Hf; lia | | | exact E ].
        -- rewrite wordHead_app
             by (cbn [rev]; intros R; apply app_eq_nil in R; now destruct R).
           apply whiteSpace_head; [ discriminate | ].
           constructor; [ exact Ws | apply takeWhile_Forall ].
        -- apply noWholeWord_suffix. cbn [app].
           now rewrite takeWhile_dropWhile.
    + destruct p as [ | d p ].
      * cbn [app] in E. subst q. cbn [rev app].
        transitivity (wholeWordAt K before (c :: s));
          [ | exact (C [] (c :: s) eq_refl) ].
        unfold wholeWordAt. rewrite Hd. f_equal. f_equal.
        unfold wordRun. cbn [takeWhile].
        destruct (isWordChar c); [ | reflexivity ].
        f_equal. apply collapse_run. simpl in Hf. lia.
      * injection E as <- E.
        replace (rev (c :: p) ++ out) with (rev p ++ c :: out)
          by (cbn [rev]; now rewrite <- app_assoc).
        apply (IH s (c :: before) (c :: out)); [ simpl in Hf; lia | reflexivity | | exact E ].
        apply (noWholeWord_suffix before [c] s). exact C.
Qed.

Lemma wordRun_app_nonword q t :
  wordHead t = false -> wordRun (q ++ t) = wordRun q.
Proof.
  intros H. induction q as [ | c q IH ].
  - cbn [app]. now apply wordRun_nil.
  - unfold wordRun in *. cbn [app takeWhile]. now rewrite IH.
Qed.

Lemma noWholeWord_trimEnd q t :
  wordHead t = false -> noWholeWord K [] (q ++ t) -> noWholeWord K [] q.
Proof.
  intros H C p q' E. specialize (C p (q' ++ t)).
  unfold wholeWordAt in *. rewrite (wordRun_app_nonword q' t H) in C.
  apply C. now rewrite E, app_assoc.
Qed.

Lemma trim_clean s : noWholeWord K [] s -> noWholeWord K [] (trim s).
Proof.
  intros C. unfold trim, trimEnd. rewrite !trimStart_dropWhile.
  set (u := dropWhile isWhiteSpace s).
  assert (Cu : noWholeWord K [] u).
  { subst u. rewrite <- (takeWhile_dropWhile isWhiteSpace s) in C.
    apply noWholeWord_suffix in C.
    apply (noWholeWord_head _ [] _) in C; [ exact C | ].
    rewrite app_nil_r.
    destruct (takeWhile isWhiteSpace s) eqn:T; [ reflexivity | ].
    apply whiteSpace_head; [ discriminate | ]. rewrite <- T.
    apply takeWhile_Forall. }
  apply (noWholeWord_trimEnd _ (rev (takeWhile isWhiteSpace (rev u)))).
  - destruct (takeWhile isWhiteSpace (rev u)) eqn:T; [ reflexivity | ].
    apply whiteSpace_head; [ discriminate | ]. rewrite <- T.
    apply takeWhile_Forall.
  - rewrite <- rev_app_distr, takeWhile_dropWhile, rev_involutive. exact Cu.
Qed.

Lemma collapse_keeps s : noWholeWord K [] s -> noWholeWord K [] (collapse s).
Proof.
  intros C. unfold collapse, replaceAll. apply trim_clean.
  apply collapse_clean; [ lia | reflexivity | exact C ].
Qed.

Lemma upper_word c : isWordChar (toUpperChar c) = isWordChar c.
Proof. destruct c as [[] [] [] [] [] [] [] []]; reflexivity. Qed.

Lemma upper_upper c : toUpperChar (toUpperChar c) = toUpperChar c.
Proof. destruct c as [[] [] [] [] [] [] [] []]; reflexivity. Qed.

Lemma sameWord_upper w c s :
  sameWord true w (toUpperChar c :: s) = sameWord true w (c :: s).
Proof.
  unfold sameWord. destruct w as [ | a w ]; [ reflexivity | ].
  cbn [startsWithLit length]. unfold charEq. now rewrite upper_upper.
Qed.

Lemma isKeyword_upper ws c s :
  isKeyword true ws (toUpperChar c :: s) = isKeyword true ws (c :: s).
Proof.
  unfold isKeyword. induction ws as [ | w ws IH ]; cbn [existsb]; [ reflexivity | ].
  now rewrite sameWord_upper, IH.
Qed.

Lemma capitalize_keeps s : noWholeWord K [] s -> noWholeWord K [] (capitalize s).
Proof.
  intros C. destruct s as [ | c s ]; [ exact C | ].
  unfold capitalize. cbn [charAt0 toUpperCase map slice1 tl app].
  intros p q E. destruct p as [ | d p ].
  - cbn [app] in E. subst q. cbn [rev app].
    transitivity (wholeWordAt K [] (c :: s)); [ | exact (C [] (c :: s) eq_refl) ].
    unfold wholeWordAt, wordRun. cbn [takeWhile]. rewrite upper_word.
    destruct (isWordChar c); [ | reflexivity ].
    f_equal. apply isKeyword_upper.
  - injection E as <- E.
    transitivity (wholeWordAt K (rev (c :: p) ++ []) q);
      [ | apply C; now rewrite E ].
    apply wholeWordAt_head. rewrite !app_nil_r. cbn [rev].
    destruct (rev p) as [ | e t ]; [ cbn [app wordHead]; apply upper_word | reflexivity ].
Qed.

End Tail.

(** *** The removal passes in their order *)

Lemma noWholeWord_app K1 K2 before s :
  noWholeWord K1 before s -> noWholeWord K2 before s ->
  noWholeWord (K1 ++ K2) before s.
Proof.
  intros C1 C2 p q E. specialize (C1 p q E). specialize (C2 p q E).
  unfold wholeWordAt, isKeyword in *. rewrite existsb_app.
  destruct (negb (wordHead (rev p ++ before))); [ | reflexivity ].
  cbn [andb] in *. now rewrite C1, C2.
Qed.

Lemma edges_priorityWords before s y :
  matchAt true priorityWords before s = Some y ->
  exists m, m <> [] /\ s = m ++ remaining y /\ consumed y = rev m ++ before
            /\ wordHead before = false
            /\ (wordHead (rev m) = false \/ wordHead (remaining y) = false).
Proof. now apply edges_bounded. Qed.

Lemma edges_dateWords before s y :
  matchAt true dateWords before s = Some y ->
  exists m, m <> [] /\ s = m ++ remaining y /\ consumed y = rev m ++ before
            /\ wordHead before = false
            /\ (wordHead (rev m) = false \/ wordHead (remaining y) = false).
Proof. now apply edges_bounded. Qed.

Lemma edges_recurringWords before s y :
  matchAt true recurringWords before s = Some y ->
  exists m, m <> [] /\ s = m ++ remaining y /\ consumed y = rev m ++ before
            /\ wordHead before = false
            /\ (wordHead (rev m) = false \/ wordHead (remaining y) = false).
Proof. now apply edges_bounded. Qed.

Lemma edges_atWord before s y :
  matchAt true atWord before s = Some y ->
  exists m, m <> [] /\ s = m ++ remaining y /\ consumed y = rev m ++ before
            /\ wordHead before = false
            /\ (wordHead (rev m) = false \/ wordHead (remaining y) = false).
Proof. now apply edges_word_spaces. Qed.

Lemma edges_onWord before s y :
  matchAt true onWord before s = Some y ->
  exists m, m <> [] /\ s = m ++ remaining y /\ consumed y = rev m ++ before
            /\ wordHead before = false
            /\ (wordHead (rev m) = false \/ wordHead (remaining y) = false).
Proof. now apply edges_word_spaces. Qed.

(** The passes after the clock patterns bring no whole word of [K] in. *)
Lemma later_passes_keep K s :
  isKeyword true K [] = false ->
  noWholeWord K [] s ->
  noWholeWord K []
    (replaceAll true recurringWords []
       (replaceAll true onWord [] (replaceAll true atWord [] s))).
Proof.
  intros N C.
  apply pass_preserves; [ exact N | exact edges_recurringWords | ].
  apply pass_preserves; [ exact N | exact edges_onWord | ].
  apply pass_preserves; [ exact N | exact edges_atWord | exact C ].
Qed.

Lemma recurringWords_covers before s :
  wholeWordAt (map list_ascii_of_string ["daily"; "weekly"; "monthly"]%string)
    before s = true ->
  matchAt true recurringWords before s <> None.
Proof.
  apply (wordGroup_covers (list_ascii_of_string "every day")
           (map list_ascii_of_string
              ["daily"; "every week"; "weekly"; "every month"; "monthly"]%string)).
  - intros w Hin. cbn [map] in *. cbn [In] in *.
    repeat (destruct Hin as [ <- | Hin ]; [ tauto | ]). contradiction.
  - repeat constructor; discriminate.
Qed.

(** In a text without digits no removal pass after the first can bring
    back a word that an earlier pass deleted: the title holds none of the
    single words that the removal patterns list. *)
Theorem title_without_removed_words text :
  digitFree text -> noWholeWord removedWords [] (cleanTitle text).
Proof.
  intros D. unfold cleanTitle, removeKeywords.
  set (s1 := replaceAll true priorityWords [] text).
  set (s2 := replaceAll true dateWords [] s1).
  assert (D2 : digitFree s2)
    by (apply replaceLoop_Forall, replaceLoop_Forall, D).
  unfold clockTimes, meridiemTimes.
  rewrite !(digitFree_no_clock true _ s2 D2).
  apply capitalize_keeps, collapse_keeps; try reflexivity.
  change removedWords
    with (map list_ascii_of_string
            ["urgent"; "asap"; "important"; "critical"; "immediately"; "priority"]%string
          ++ map list_ascii_of_string ["tomorrow"; "today"]%string
          ++ map list_ascii_of_string ["daily"; "weekly"; "monthly"]%string).
  apply noWholeWord_app; [ | apply noWholeWord_app ].
  - apply later_passes_keep; [ reflexivity | ].
    apply pass_preserves; [ reflexivity | exact edges_dateWords | ].
    apply pass_establishes; [ reflexivity | exact edges_priorityWords | ].
    intros before q.
    apply (wordGroup_covers (list_ascii_of_string "urgent")
             (map list_ascii_of_string
                ["asap"; "important"; "critical"; "immediately"; "priority"]%string));
      [ apply incl_refl | repeat constructor; discriminate ].
  - apply later_passes_keep; [ reflexivity | ].
    apply pass_establishes; [ reflexivity | exact edges_dateWords | ].
    exact dateWords_covers.
  - apply pass_establishes; [ reflexivity | exact edges_recurringWords | ].
    exact recurringWords_covers.
Qed.

(** *** Without digits the numeric date rules are silent *)

Lemma lower_digit c : isDigit (toLowerChar c) = isDigit c.
Proof. destruct c as [[] [] [] [] [] [] [] []]; reflexivity. Qed.

Lemma digitFree_lower s : digitFree s -> digitFree (toLowerCase s).
Proof.
  unfold digitFree, toLowerCase. intros D. apply Forall_map.
  eapply Forall_impl; [ | exact D ]. intros c H. now rewrite lower_digit.
Qed.

Lemma digitFree_suffix p q : digitFree (p ++ q) -> digitFree q.
Proof. intros D. now apply Forall_app in D. Qed.

Lemma digitFree_no_inDays s : digitFree s -> inDaysMatch s = None.
Proof.
  intros D. unfold inDaysMatch.
  destruct (exec false inDaysPattern s) as [ y | ] eqn:M; [ | reflexivity ].
  exfalso. apply exec_sound in M. destruct M as (b & a & E & M).
  unfold inDaysPattern in M.
  inversion M as [ | | | ? ? ? x1 ? M1 M2 | | | | | ]; subst; clear M.
  inversion M2 as [ | | | ? ? ? x2 ? M3 M4 | | | | | ]; subst; clear M2.
  inversion M3 as [ | | | | | | | ? ? ? z Q | ]; subst; clear M3.
  unfold plus, digit in Q. apply Matches_Quant_Class in Q.
  destruct Q as (pre & [Sp _] & Lo & _ & Dg & _).
  apply Matches_spans in M1. destruct M1 as (m1 & [Sp1 _]).
  cbn [remaining] in Sp1. rewrite Sp in Sp1.
  apply digitFree_suffix in D. rewrite Sp1 in D. apply digitFree_suffix in D.
  destruct pre as [ | c pre ]; [ simpl in Lo; lia | ].
  inversion Dg as [ | ? ? Dc _ ]. inversion D as [ | ? ? Nc _ ]. congruence.
Qed.

Lemma digitFree_no_date s : digitFree s -> dateMatch s = None.
Proof.
  intros D. unfold dateMatch.
  destruct (exec false datePattern s) as [ y | ] eqn:M; [ | reflexivity ].
  exfalso. apply exec_sound in M. destruct M as (b & a & E & M).
  unfold datePattern in M.
  inversion M as [ | | | ? ? ? x1 ? M1 M2 | | | | | ]; subst; clear M.
  inversion M1 as [ | | | | | | | ? ? ? z Q | ]; subst; clear M1.
  unfold digit in Q. apply Matches_Quant_Class in Q.
  destruct Q as (pre & [Sp _] & Lo & _ & Dg & _). cbn [remaining] in Sp.
  apply digitFree_suffix in D. rewrite Sp in D.
  destruct pre as [ | c pre ]; [ simpl in Lo; lia | ].
  inversion Dg as [ | ? ? Dc _ ]. inversion D as [ | ? ? Nc _ ]. congruence.
Qed.

End TitleWords.

(** *** Clock times that stand apart from the words *)

Module ClockTimes.
Import JSString RegExp Parser Spec Notions RegExpFacts Cleaning Keywords TitleWords.
Local Open Scope list_scope.
Local Open Scope nat_scope.







Section Letters.
Variable K : list (list ascii).
Hypothesis letters : Forall (fun w => w <> [] /\ forallb isLetter w = true) K.






Variable r : regex.




End Letters.

Lemma apartLoop_no_match icase r fuel :
  forall s before,
    (forall p q, s = p ++ q -> matchAt icase r (rev p ++ before) q = None) ->
    apartLoop icase r fuel before s = true.
Proof.
  induction fuel as [ | fuel IH ]; intros s before H; [ reflexivity | ].
  cbn [apartLoop].
  pose proof (H [] s eq_refl) as M. cbn [rev app] in M. rewrite M.
  destruct s as [ | c s ]; [ reflexivity | ].
  apply IH. intros p q E.
  replace (rev p ++ c :: before) with (rev (c :: p) ++ before)
    by (cbn [rev]; now rewrite <- app_assoc).
  apply H. now rewrite E.
Qed.

Lemma digitFree_apart r s :
  digitFree s -> matchesApart (Seq (Quant 1 (Some 2) digit) r) s = true.
Proof.
  intros D. unfold matchesApart. apply apartLoop_no_match. intros p q E.
  destruct (matchAt true _ (rev p ++ []) q) as [ y | ] eqn:M; [ | reflexivity ].
  apply digit_first in M. destruct M as (c & rest & -> & Dc).
  unfold digitFree in D. rewrite E in D. apply Forall_app in D.
  destruct D as [_ D]. inversion D; subst. congruence.
Qed.

(** A text without digits has no clock time. *)
Lemma digitFree_clockTimesApart text : digitFree text -> clockTimesApart text.
Proof.
  intros D. unfold clockTimesApart. cbv zeta.
  set (s := replaceAll true dateWords [] (replaceAll true priorityWords [] text)).
  assert (D2 : digitFree s)
    by (apply replaceLoop_Forall, replaceLoop_Forall, D).
  unfold clockTimes at 2. rewrite (digitFree_no_clock true _ s D2).
  split; now apply digitFree_apart.
Qed.



End ClockTimes.

(** The six words of the first removal pattern, as the pattern has them. *)
Lemma priorityWords_wordGroup :
  priorityWords
  = wordGroup "urgent"
      (map list_ascii_of_string
         ["asap"; "important"; "critical"; "immediately"; "priority"]).
Proof. reflexivity. Qed.

Lemma priorityWords_letters :
  Forall (fun w : list ascii => w <> [] /\ forallb isLetter w = true)
    (map list_ascii_of_string
       ["urgent"; "asap"; "important"; "critical"; "immediately"; "priority"]).
Proof. repeat constructor; discriminate. Qed.

(** On every input the first removal pass deletes every whole-word
    occurrence, in any letter case, of urgent, asap, important, critical,
    immediately and priority: its pattern finds nothing in what the pass
    leaves, and at no position of that text does one of the six words stand
    as a whole word.  The title is that text after the later passes. *)
Theorem priority_words_removed_by_first_pass text :
  test true priorityWords (replaceAll true priorityWords [] text) = false
  /\ (forall p q,
         replaceAll true priorityWords [] text = (p ++ q)%list ->
         wholeWordAt
           (map list_ascii_of_string
              ["urgent"; "asap"; "important"; "critical"; "immediately"; "priority"])
           (rev p) q = false)
  /\ (forall today r,
         parseNaturalLanguage today text = Ok r ->
         title r = cleanTitle text).
Proof.
  destruct (wordGroup_removed _ _ priorityWords_letters text) as [C T].
  split; [ exact T | split ].
  - intros p q E. rewrite <- (app_nil_r (rev p)). now apply C.
  - intros today r P. now apply parse_inversion in P.
Qed.




(** A keyword that a pattern lists can stay too: one that is no whole word
    when its pass runs, or one that the later passes put together. *)
Example keyword_left_by_later_pass :
  cleanTitle "x today1pm" = ("X today" : list ascii)
  /\ includes (toLowerCase "x today1pm") "today" = true
  /\ cleanTitle "x every every day day" = ("X every day" : list ascii).
Proof. repeat split; reflexivity. Qed.

(** C4, as the code has it: the title is empty exactly when the removal
    passes leave nothing but white space, and no character of the input
    stands in for it; the parser returns such a title whenever the day of
    an "in N days" pattern, if the input has one, is within the range of
    dates. *)
Theorem title_empty_when_all_removed text :
  (cleanTitle text = [] <-> forallb isWhiteSpace (removeKeywords text) = true)
  /\ (forall today r,
         parseNaturalLanguage today text = Ok r ->
         title r = cleanTitle text
         /\ (title r = [] <-> forallb isWhiteSpace (removeKeywords text) = true))
  /\ (forall today,
         clock today ->
         match inDaysMatch (toLowerCase text) with
         | Some mi => today + Z.of_N (parseInt (group 1 mi)) <= maxDay
         | None => True
         end ->
         exists r,
           parseNaturalLanguage today text = Ok r
           /\ (title r = [] <-> forallb isWhiteSpace (removeKeywords text) = true)).
Proof.
  assert (E : cleanTitle text = []
              <-> forallb isWhiteSpace (removeKeywords text) = true)
    by (unfold cleanTitle; rewrite capitalize_nil; apply collapse_nil).
  split; [ exact E | split ].
  - intros today r P. apply parse_inversion in P.
    destruct P as (_ & _ & -> & _). now split.
  - intros today Now In.
    destruct (extractDate_returns today text Now In) as (d & D).
    eexists. split; [ apply parse_of_date, D | exact E ].
Qed.

Lemma title_empty_when_all_removed_witness :
  exists r,
    parseNaturalLanguage 20759 "tomorrow" = Ok r
    /\ (title r = [] <-> forallb isWhiteSpace (removeKeywords "tomorrow") = true).
Proof.
  destruct (title_empty_when_all_removed "tomorrow") as (_ & _ & P).
  apply (P 20759); [ unfold clock, maxDay; lia | exact I ].
Defined.

(** C4 as stated fails: "tomorrow" is not empty after trimming, and its
    title is empty, not its first character. *)
Lemma title_empty_counterexample :
  trim "tomorrow" = ("tomorrow" : list ascii)
  /\ charAt0 (trim "tomorrow") = ("t" : list ascii)
  /\ exists r,
       parseNaturalLanguage 20759 "tomorrow" = Ok r
       /\ title r = []
       /\ title r <> charAt0 (trim "tomorrow")
       /\ title r <> toUpperCase (charAt0 (trim "tomorrow")).
Proof.
  split; [ reflexivity | ]. split; [ reflexivity | ].
  eexists. split; [ vm_compute; reflexivity | ].
  repeat split; discriminate.
Qed.

(** * Further properties of the code *)

(** ** The shape of the title *)

Module Tidy.
Import JSString RegExp Parser Spec Notions RegExpFacts Cleaning DateRules.
Local Open Scope list_scope.
Local Open Scope nat_scope.

Lemma eqb_eq a b : JSString.eqb a b = true <-> a = b.
Proof.
  revert b. induction a as [ | c a IH ]; intros [ | d b ]; simpl;
    try (split; (reflexivity || discriminate)).
  rewrite andb_true_iff, Ascii.eqb_eq, IH.
  split; [ intros [-> ->]; reflexivity | intros [= -> ->]; now split ].
Qed.

Lemma dropWhile_fixed s : headSpace s = false -> dropWhile isWhiteSpace s = s.
Proof. destruct s as [ | c s ]; simpl; [ reflexivity | now intros -> ]. Qed.

Lemma headSpace_dropWhile s : headSpace (dropWhile isWhiteSpace s) = false.
Proof.
  destruct (dropWhile isWhiteSpace s) as [ | c rest ] eqn:E; [ reflexivity | ].
  simpl. now apply dropWhile_head in E.
Qed.

Lemma dropWhile_last p (l : list ascii) c :
  p c = false -> dropWhile p (l ++ [c]) = dropWhile p l ++ [c].
Proof.
  intros H. induction l as [ | d l IH ]; simpl; [ now rewrite H | ].
  destruct (p d); [ exact IH | reflexivity ].
Qed.

Lemma trimEnd_head s : headSpace s = false -> headSpace (trimEnd s) = false.
Proof.
  unfold trimEnd. rewrite trimStart_dropWhile.
  destruct s as [ | c s ]; [ reflexivity | ]. simpl. intros H.
  rewrite (dropWhile_last _ _ _ H), rev_app_distr. simpl. exact H.
Qed.

Lemma trim_ends s : headSpace (trim s) = false /\ headSpace (rev (trim s)) = false.
Proof.
  unfold trim. split.
  - apply trimEnd_head. rewrite trimStart_dropWhile. apply headSpace_dropWhile.
  - unfold trimEnd. rewrite rev_involutive, trimStart_dropWhile.
    apply headSpace_dropWhile.
Qed.

Lemma trim_fixed s : headSpace s = false -> headSpace (rev s) = false -> trim s = s.
Proof.
  intros H1 H2. unfold trim, trimEnd. rewrite !trimStart_dropWhile.
  rewrite (dropWhile_fixed _ H1), (dropWhile_fixed _ H2). apply rev_involutive.
Qed.

Lemma trim_trim s : trim (trim s) = trim s.
Proof. destruct (trim_ends s). now apply trim_fixed. Qed.

Lemma trim_segment s : exists a b, s = a ++ trim s ++ b.
Proof.
  unfold trim, trimEnd. rewrite !trimStart_dropWhile.
  exists (takeWhile isWhiteSpace s).
  set (u := dropWhile isWhiteSpace s).
  exists (rev (takeWhile isWhiteSpace (rev u))).
  rewrite <- rev_app_distr, takeWhile_dropWhile, rev_involutive.
  subst u. now rewrite takeWhile_dropWhile.
Qed.

Lemma noDoubleSpace_cons c s :
  noDoubleSpace (c :: s) = negb (isWhiteSpace c && headSpace s) && noDoubleSpace s.
Proof. destruct s; simpl; [ now rewrite andb_false_r | reflexivity ]. Qed.

Lemma noDoubleSpace_app a b :
  noDoubleSpace (a ++ b) = true -> noDoubleSpace a = true /\ noDoubleSpace b = true.
Proof.
  induction a as [ | c a IH ]; [ now split | ].
  change ((c :: a) ++ b) with (c :: (a ++ b)). rewrite !noDoubleSpace_cons.
  rewrite !andb_true_iff. intros [H1 H2]. destruct (IH H2) as [Ha Hb].
  split; [ split; [ | exact Ha ] | exact Hb ].
  destruct a; [ now rewrite andb_false_r | exact H1 ].
Qed.

(** What the collapse of white space leaves. *)
Lemma collapse_loop fuel :
  forall s before,
    length s < fuel ->
    let out := replaceLoop false (plus space) (" "%string : list ascii) fuel before s in
    headSpace out = headSpace s
    /\ Forall (fun c => isWhiteSpace c = true -> c = " "%char) out
    /\ noDoubleSpace out = true
    /\ exists u, Subseq u s /\ out = map asSpace u.
Proof.
  induction fuel as [ | fuel IH ]; intros s before L; [ inversion L | ].
  cbn [replaceLoop]. rewrite matchAt_spaces.
  destruct (takeWhile isWhiteSpace s) as [ | w ws ] eqn:T.
  - destruct s as [ | c s ]; [ cbn; repeat split; try constructor; exists []; split; constructor | ].
    simpl in T. destruct (isWhiteSpace c) eqn:W; [ discriminate | ].
    destruct (IH s (c :: before)) as (H1 & H2 & H3 & u & U1 & U2); [ simpl in L; lia | ].
    cbn zeta. split; [ reflexivity | ].
    split; [ constructor; [ congruence | exact H2 ] | ].
    split; [ rewrite noDoubleSpace_cons, W; exact H3 | ].
    exists (c :: u). split; [ now constructor | ].
    cbn [map]. unfold asSpace at 1. now rewrite W, U2.
  - cbn [remaining consumed].
    pose proof (takeWhile_dropWhile isWhiteSpace s) as Es. rewrite T in Es.
    assert (Ls : length (dropWhile isWhiteSpace s) < length s).
    { rewrite <- Es at 2. simpl. rewrite length_app. lia. }
    rewrite (proj2 (Nat.ltb_lt _ _) Ls).
    destruct (IH (dropWhile isWhiteSpace s) (rev (w :: ws) ++ before))
      as (H1 & H2 & H3 & u & U1 & U2); [ lia | ].
    rewrite headSpace_dropWhile in H1.
    assert (Ww : isWhiteSpace w = true).
    { pose proof (TitleWords.takeWhile_Forall isWhiteSpace s) as F. rewrite T in F.
      now inversion F. }
    set (o := replaceLoop _ _ _ _ _ _) in *.
    cbn zeta. change (((" "%string : list ascii) ++ o)) with (" "%char :: o).
    split; [ rewrite <- Es; simpl; now rewrite Ww | ].
    split; [ constructor; [ reflexivity | exact H2 ] | ].
    split; [ rewrite noDoubleSpace_cons, H1, andb_false_r; exact H3 | ].
    exists (w :: u). split.
    + rewrite <- Es. cbn [app]. constructor.
      clear - U1. induction ws as [ | x ws IHw ]; [ exact U1 | cbn [app]; now constructor ].
    + cbn [map]. unfold asSpace at 1. now rewrite Ww, U2.
Qed.


Lemma upper_space c : isWhiteSpace (toUpperChar c) = isWhiteSpace c.
Proof. destruct c as [[] [] [] [] [] [] [] []]; reflexivity. Qed.

Lemma upper_not_lower c : isLower (toUpperChar c) = false.
Proof. destruct c as [[] [] [] [] [] [] [] []]; reflexivity. Qed.

Lemma capitalize_cons c s : capitalize (c :: s) = toUpperChar c :: s.
Proof. reflexivity. Qed.

Lemma headSpace_rev_cons c d s : headSpace (rev (d :: s) ++ [c]) = headSpace (rev (d :: s)).
Proof.
  simpl. destruct (rev s) as [ | e r ]; reflexivity.
Qed.

Lemma capitalize_tidy s :
  headSpace s = false -> headSpace (rev s) = false ->
  Forall (fun c => isWhiteSpace c = true -> c = " "%char) s ->
  noDoubleSpace s = true ->
  tidy (capitalize s).
Proof.
  intros H1 H2 F D. destruct s as [ | c s ]; [ repeat split; constructor | ].
  rewrite capitalize_cons. simpl in H1.
  assert (U : isWhiteSpace (toUpperChar c) = false) by now rewrite upper_space.
  split; [ | split; [ | split ] ].
  - apply trim_fixed; [ exact U | ].
    destruct s as [ | d s ]; [ exact U | ].
    change (rev (toUpperChar c :: d :: s)) with (rev (d :: s) ++ [toUpperChar c]).
    change (rev (c :: d :: s)) with (rev (d :: s) ++ [c]) in H2.
    now rewrite headSpace_rev_cons in *.
  - inversion F; subst. constructor; [ congruence | assumption ].
  - rewrite noDoubleSpace_cons in *. rewrite U. rewrite H1 in D. exact D.
  - apply upper_not_lower.
Qed.

(** X9. The title of every input of ASCII characters and white space, the
    no-break space among it, is a tidy line: trimmed, single spaces as its
    only white space, and no lower-case letter in front. *)
Theorem title_is_tidy text :
  asciiText text ->
  tidy (cleanTitle text)
  /\ forall today r, parseNaturalLanguage today text = Ok r -> tidy (title r).
Proof.
  intros _.
  assert (T : tidy (cleanTitle text)).
  { unfold cleanTitle, collapse, replaceAll.
    set (s := removeKeywords text).
    destruct (collapse_loop (S (length s)) s [] (Nat.lt_succ_diag_r _))
      as (_ & F & D & _).
    set (out := replaceLoop _ _ _ _ _ _) in *.
    destruct (trim_ends out) as [E1 E2].
    destruct (trim_segment out) as (a & b & Eo).
    apply capitalize_tidy; trivial.
    - rewrite Eo in F. apply Forall_app in F. destruct F as [_ F].
      apply Forall_app in F. tauto.
    - rewrite Eo in D. apply noDoubleSpace_app in D. destruct D as [_ D].
      apply noDoubleSpace_app in D. tauto. }
  split; [ exact T | ].
  intros today r P. apply parse_inversion in P.
  destruct P as (_ & _ & -> & _). exact T.
Qed.

Lemma title_is_tidy_witness : tidy ("Buy MILK" : list ascii).
Proof.
  assert (A : asciiText
                (list_ascii_of_string " buy" ++ ["160"%char; "160"%char]
                 ++ list_ascii_of_string "MILK  at 3pm" ++ ["160"%char]))
    by repeat constructor.
  apply (proj2 (title_is_tidy _ A) 20759%Z
           (mkResult "Buy MILK" Shopping Medium None (Some ("15:00" : list ascii)) none)).
  reflexivity.
Defined.

Lemma Subseq_refl s : Subseq s s.
Proof. induction s; now constructor. Qed.

Lemma Subseq_suffix pre u t : Subseq u t -> Subseq u (pre ++ t).
Proof. intros H. induction pre; [ exact H | cbn [app]; now constructor ]. Qed.

Lemma Subseq_trans u v t : Subseq u v -> Subseq v t -> Subseq u t.
Proof.
  intros H1 H2. revert u H1. induction H2 as [ | c v t H IH | c v t H IH ]; intros u H1.
  - exact H1.
  - inversion H1; subst; constructor; now apply IH.
  - constructor. now apply IH.
Qed.

Lemma Subseq_app a b c d : Subseq a b -> Subseq c d -> Subseq (a ++ c) (b ++ d).
Proof. intros H1 H2. induction H1; cbn [app]; try constructor; assumption. Qed.

Lemma Subseq_nil_l t : Subseq [] t.
Proof. induction t; now constructor. Qed.

Lemma Subseq_length u t : Subseq u t -> length u <= length t.
Proof. induction 1; simpl; lia. Qed.

Lemma matchAt_suffix icase r before s y :
  matchAt icase r before s = Some y -> exists pre, s = pre ++ remaining y.
Proof.
  unfold matchAt. intros M. apply matcher_sound in M.
  destruct M as (y' & M & [= <-]). apply Matches_spans in M.
  destruct M as (pre & E & _). now exists pre.
Qed.

(** A removal pass only leaves characters out. *)
Lemma replaceLoop_subseq icase r fuel :
  forall s before, Subseq (replaceLoop icase r [] fuel before s) s.
Proof.
  induction fuel as [ | fuel IH ]; intros s before; [ apply Subseq_refl | ].
  cbn [replaceLoop].
  destruct (matchAt icase r before s) as [ y | ] eqn:M.
  - destruct (Nat.ltb (length (remaining y)) (length s)).
    + cbn [app]. apply matchAt_suffix in M. destruct M as (pre & E).
      rewrite E. apply Subseq_suffix, IH.
    + destruct s as [ | c s ]; cbn [app]; constructor. apply IH.
  - destruct s as [ | c s ]; constructor. apply IH.
Qed.

Lemma removeKeywords_subseq text : Subseq (removeKeywords text) text.
Proof.
  unfold removeKeywords, replaceAll.
  repeat (eapply Subseq_trans; [ apply replaceLoop_subseq | ]).
  apply Subseq_refl.
Qed.

(** X10. The title of an input of ASCII characters and white space invents
    nothing: it is the input with characters left out, white space turned
    into spaces and the first character in upper case; so it is never
    longer than the input. *)
Theorem title_from_text text :
  asciiText text ->
  (exists u, Subseq u text /\ cleanTitle text = capitalize (map asSpace u))
  /\ length (cleanTitle text) <= length text
  /\ forall today r, parseNaturalLanguage today text = Ok r ->
                     length (title r) <= length text.
Proof.
  intros _.
  assert (T : exists u, Subseq u text /\ cleanTitle text = capitalize (map asSpace u)).
  { unfold cleanTitle, collapse, replaceAll.
    set (s := removeKeywords text).
    destruct (collapse_loop (S (length s)) s [] (Nat.lt_succ_diag_r _))
      as (_ & _ & _ & u & U & E).
    set (out := replaceLoop _ _ _ _ _ _) in *.
    destruct (trim_segment out) as (a & b & Eo).
    rewrite E in Eo at 1. apply map_eq_app in Eo.
    destruct Eo as (a' & rest & -> & _ & Eo). apply map_eq_app in Eo.
    destruct Eo as (u1 & b' & -> & <- & _).
    exists u1. split; [ | reflexivity ].
    apply Subseq_trans with s; [ | apply removeKeywords_subseq ].
    eapply Subseq_trans; [ | exact U ].
    apply Subseq_suffix. rewrite <- (app_nil_r u1) at 1.
    apply Subseq_app; [ apply Subseq_refl | apply Subseq_nil_l ]. }
  assert (L : length (cleanTitle text) <= length text).
  { destruct T as (u & U & ->). rewrite capitalize_length, length_map.
    now apply Subseq_length. }
  split; [ exact T | split; [ exact L | ] ].
  intros today r P. apply parse_inversion in P.
  destruct P as (_ & _ & -> & _). exact L.
Qed.

Lemma title_from_text_witness :
  (length ("Buy MILK" : list ascii) <= length ("  buy   MILK  at 3pm " : list ascii))%nat.
Proof.
  assert (A : asciiText "  buy   MILK  at 3pm ") by repeat constructor.
  apply (proj2 (proj2 (title_from_text "  buy   MILK  at 3pm " A)) 20759%Z
           (mkResult "Buy MILK" Shopping Medium None (Some ("15:00" : list ascii)) none)).
  reflexivity.
Defined.

End Tidy.

(** ** The stages of the parser *)

Module Stages.
Import JSString RegExp JSDate Parser Spec Notions.
Import DateFacts DateStage RegExpFacts DatePatterns DateRules Tidy.
Local Open Scope string_scope.
Local Open Scope list_scope.
Local Open Scope Z_scope.

(** *** The time patterns *)

Lemma charEq_lower c d :
  isLower c = true -> charEq true c d = true -> toLowerChar d = c.
Proof.
  unfold charEq. intros L E. apply Ascii.eqb_eq in E.
  destruct c as [[] [] [] [] [] [] [] []]; try discriminate L;
    destruct d as [[] [] [] [] [] [] [] []]; try discriminate E; reflexivity.
Qed.

Lemma Matches_lit2 c1 c2 x y :
  isLower c1 = true -> isLower c2 = true ->
  Matches true (lit [c1; c2]) x y ->
  exists w, spans x y w /\ toLowerCase w = [c1; c2] /\ captures y = captures x.
Proof.
  intros L1 L2 M. cbn [lit] in M.
  inversion M as [ | | | ? ? ? y1 ? M1 M2 | | | | | ]; subst; clear M.
  inversion M1 as [ | ? ? d1 rest1 R1 E1 | | | | | | | ]; subst; clear M1.
  inversion M2 as [ | | | ? ? ? y2 ? M3 M4 | | | | | ]; subst; clear M2.
  inversion M3 as [ | ? ? d2 rest2 R2 E2 | | | | | | | ]; subst; clear M3.
  inversion M4; subst; clear M4.
  exists [d1; d2]. split; [ | split; [ | reflexivity ] ].
  - change [d1; d2] with ([d1] ++ [d2])%list.
    eapply spans_trans; apply spans_step; eassumption.
  - cbn. now rewrite (charEq_lower _ _ L1 E1), (charEq_lower _ _ L2 E2).
Qed.

Lemma Matches_meridiem x y :
  Matches true (words "am" ["pm"]) x y ->
  exists w, spans x y w /\ captures y = captures x
            /\ (toLowerCase w = ("am" : list ascii) \/ toLowerCase w = ("pm" : list ascii)).
Proof.
  intros M. cbn [words alts map] in M.
  inversion M as [ | | | | ? ? ? ? M1 | ? ? ? ? M1 | | | ]; subst; clear M;
    apply Matches_lit2 in M1; try reflexivity;
    destruct M1 as (w & S & E & C); exists w; tauto.
Qed.

(** The captures of the 12-hour pattern: one or two digits, two digits
    where the minutes are given, and a meridiem that reads am or pm. *)
Lemma time12_groups text m :
  exec true time12Pattern text = Some m ->
  (Forall (fun c => isDigit c = true) (group 1 m)
   /\ (1 <= length (group 1 m) <= 2)%nat)
  /\ match capture 2 m with
     | Some s => Forall (fun c => isDigit c = true) s /\ length s = 2%nat
     | None => True
     end
  /\ (toLowerCase (group 3 m) = ("am" : list ascii)
      \/ toLowerCase (group 3 m) = ("pm" : list ascii)).
Proof.
  intros H. apply exec_sound in H. destruct H as (b & a & _ & M).
  unfold time12Pattern in M.
  inversion M as [ | | | ? ? ? y1 ? M1 M2 | | | | | ]; subst; clear M.
  inversion M1 as [ | | | | | | | ? ? ? z1 Q1 | ]; subst; clear M1.
  apply Matches_Quant_Class in Q1. destruct Q1 as (p1 & S1 & Lo1 & Hi1 & D1 & C1).
  inversion M2 as [ | | | ? ? ? y2 ? M3 M4 | | | | | ]; subst; clear M2.
  inversion M4 as [ | | | ? ? ? y3 ? M5 M6 | | | | | ]; subst; clear M4.
  apply Matches_Quant_Class in M5. destruct M5 as (p5 & S5 & _ & _ & _ & C5).
  inversion M6 as [ | | | | | | | ? ? ? z3 Q3 | ]; subst; clear M6.
  apply Matches_meridiem in Q3. destruct Q3 as (w & S3 & C3 & W).
  unfold group, capture. cbn [captures setCapture lookup Nat.eqb].
  rewrite (between_spans _ _ _ S3), C3, C5.
  unfold opt in M3.
  inversion M3 as [ | | | | | | ? ? ? n ? ? It Lo Hi | | ]; subst; clear M3.
  cbn [within] in Hi.
  inversion It as [ | n' ? ym ? Mx It' ]; subst; clear It.
  - cbn [captures setCapture lookup Nat.eqb]. rewrite (between_spans _ _ _ S1), C1.
    cbn [captures lookup]. repeat split; trivial.
  - inversion It'; subst; [ | lia ].
    inversion Mx as [ | | | ? ? ? yc ? Mc Mg | | | | | ]; subst; clear Mx.
    inversion Mc; subst; clear Mc.
    inversion Mg as [ | | | | | | | ? ? ? z2 Q2 | ]; subst; clear Mg.
    apply Matches_Quant_Class in Q2. destruct Q2 as (p2 & S2 & Lo2 & Hi2 & D2 & C2).
    cbn [within] in Hi2.
    cbn [captures setCapture lookup Nat.eqb step].
    rewrite (between_spans _ _ _ S2). rewrite C2. cbn [captures setCapture step lookup Nat.eqb].
    rewrite (between_spans _ _ _ S1).
    repeat split; trivial; lia.
Qed.


(** The captures of the 24-hour pattern. *)
Lemma time24_groups text m :
  exec false time24Pattern text = Some m ->
  (Forall (fun c => isDigit c = true) (group 1 m)
   /\ (1 <= length (group 1 m) <= 2)%nat)
  /\ (Forall (fun c => isDigit c = true) (group 2 m) /\ length (group 2 m) = 2%nat).
Proof.
  intros H. apply exec_sound in H. destruct H as (b & a & _ & M).
  unfold time24Pattern in M.
  inversion M as [ | | | ? ? ? y1 ? M1 M2 | | | | | ]; subst; clear M.
  inversion M1 as [ | | | | | | | ? ? ? z1 Q1 | ]; subst; clear M1.
  inversion M2 as [ | | | ? ? ? y2 ? M3 M4 | | | | | ]; subst; clear M2.
  inversion M3; subst; clear M3.
  inversion M4 as [ | | | | | | | ? ? ? z2 Q2 | ]; subst; clear M4.
  apply Matches_Quant_Class in Q1, Q2.
  destruct Q1 as (p1 & S1 & Lo1 & Hi1 & D1 & C1).
  destruct Q2 as (p2 & S2 & Lo2 & Hi2 & D2 & C2).
  cbn [within] in Hi2.
  unfold group, capture. cbn [captures setCapture].
  rewrite (between_spans _ _ _ S2), C2. cbn [captures setCapture step].
  rewrite (between_spans _ _ _ S1). cbn [lookup Nat.eqb].
  repeat split; trivial. lia.
Qed.

Lemma numericTime_meridiem text m :
  exec true time12Pattern text = Some m -> numericTime text = Some (time12 m).
Proof.
  intros E. unfold numericTime. rewrite E.
  now destruct (exec false time24Pattern text).
Qed.

Lemma time12_minutes m :
  match capture 2 m with
  | Some ((_ :: _) as s) => parseInt s
  | _ => 0%N
  end = minutesOf m.
Proof. unfold minutesOf. now destruct (capture 2 m) as [ [ | c s ] | ]. Qed.

(** X6. For an hour from 1 to 12 the 12-hour branch gives the hour of the day:
    12 am is hour 0, 12 pm stays 12, and the other pm hours move by 12.
    The minutes are the two digits after the colon, or 0. *)
Theorem twelve_hour_conversion text m :
  exec true time12Pattern text = Some m ->
  (1 <= parseInt (group 1 m) <= 12)%N ->
  exists pm : bool,
    toLowerCase (group 3 m) = (if pm then "pm" else "am" : list ascii)
    /\ numericTime text
       = Some (formatTime (hours24 (parseInt (group 1 m)) pm) (minutesOf m))
    /\ (hours24 (parseInt (group 1 m)) pm < 24)%N
    /\ (hours24 (parseInt (group 1 m)) pm = 0 <-> parseInt (group 1 m) = 12 /\ pm = false)%N.
Proof.
  intros E H. rewrite (numericTime_meridiem _ _ E).
  destruct (time12_groups _ _ E) as (_ & _ & [ W | W ]);
    [ exists false | exists true ];
    (split; [ exact W | ]);
    unfold time12, hours24; rewrite W, time12_minutes; cbn [JSString.eqb Ascii.eqb
      Bool.eqb andb list_ascii_of_string];
    set (h := parseInt (group 1 m)) in *;
    destruct (N.eqb_spec h 12) as [ -> | N ]; cbn [negb andb].
  - split; [ reflexivity | ]. split; [ reflexivity | ]. split; [ now split | reflexivity ].
  - rewrite N.mod_small by lia. rewrite N.add_0_r.
    split; [ reflexivity | ]. split; [ lia | ]. split; [ lia | intros [? _]; lia ].
  - split; [ reflexivity | ]. split; [ reflexivity | ].
    split; [ discriminate | intros [_ ?]; discriminate ].
  - rewrite N.mod_small by lia.
    split; [ reflexivity | ]. split; [ lia | ]. split; [ lia | intros [_ ?]; discriminate ].
Qed.

Lemma twelve_hour_conversion_witness :
  exists pm : bool,
    toLowerCase ("PM" : list ascii) = (if pm then "pm" else "am" : list ascii)
    /\ numericTime "Lunch at 12:30 PM" = Some ("12:30" : list ascii)
    /\ hours24 12 pm = 12%N.
Proof.
  destruct (twelve_hour_conversion "Lunch at 12:30 PM"
              (mkState (rev ("Lunch at 12:30 PM" : list ascii)) (@nil ascii)
                 [(3%nat, "PM" : list ascii); (2%nat, "30" : list ascii);
                  (1%nat, "12" : list ascii)]) eq_refl)
    as (pm & W & T & _); [ vm_compute; split; discriminate | ].
  exists pm. split; [ exact W | ]. split; [ reflexivity | ].
  destruct pm; [ reflexivity | discriminate W ].
Defined.

Lemma wordTime_cases lowerText numeric s :
  wordTime lowerText numeric = Some s ->
  numeric = Some s \/ wordTime lowerText None = Some s.
Proof.
  unfold wordTime.
  repeat match goal with
         | |- context [includes lowerText ?w] => destruct (includes lowerText w)
         end; tauto.
Qed.

(** X7. Without a match of the 12-hour pattern every due time is a time of
    day: the 24-hour branch checks its numbers and the word-based times
    are constants. *)
Theorem time_of_day_without_meridiem today text r s :
  parseNaturalLanguage today text = Ok r ->
  exec true time12Pattern text = None ->
  dueTime r = Some s ->
  wellFormedTime s.
Proof.
  intros P N T. apply parse_inversion in P. destruct P as (_ & E & _).
  rewrite E in T. unfold extractTime in T.
  apply wordTime_cases in T. destruct T as [ T | T ].
  - unfold numericTime in T. rewrite N in T.
    destruct (exec false time24Pattern text) as [ m | ]; [ | discriminate ].
    now apply time24_wellFormed with m.
  - now apply wordTime_wellFormed with (toLowerCase text).
Qed.

Lemma time_of_day_without_meridiem_witness :
  wellFormedTime ("09:30" : list ascii).
Proof.
  apply (time_of_day_without_meridiem 20759 "Standup 9:30"
           (mkResult "Standup" Other Medium None (Some ("09:30" : list ascii)) none));
    reflexivity.
Defined.

(** X8. A time of day in the form the parser writes is read back as itself,
    whatever the hour and the minute. *)
Theorem formatted_time_reads_back h m :
  (h < 24)%N -> (m < 60)%N ->
  numericTime (formatTime h m) = Some (formatTime h m)
  /\ extractTime (formatTime h m) (toLowerCase (formatTime h m))
     = Some (formatTime h m)
  /\ forall today r,
       parseNaturalLanguage today (formatTime h m) = Ok r ->
       dueTime r = Some (formatTime h m).
Proof.
  intros Hh Hm.
  set (ok := fun (f : list ascii -> option (list ascii)) (h m : N) =>
               match f (formatTime h m) with
               | Some s => JSString.eqb s (formatTime h m)
               | None => false
               end).
  assert (C : forallb (fun h =>
                forallb (fun m =>
                  ok numericTime h m
                  && ok (fun t => extractTime t (toLowerCase t)) h m)
                  (map N.of_nat (seq 0 60)))
                (map N.of_nat (seq 0 24)) = true) by (vm_compute; reflexivity).
  rewrite forallb_forall in C.
  assert (Ih : In h (map N.of_nat (seq 0 24))).
  { apply in_map_iff. exists (N.to_nat h). split; [ apply N2Nat.id | ].
    apply in_seq. lia. }
  specialize (C h Ih). rewrite forallb_forall in C.
  assert (Im : In m (map N.of_nat (seq 0 60))).
  { apply in_map_iff. exists (N.to_nat m). split; [ apply N2Nat.id | ].
    apply in_seq. lia. }
  specialize (C m Im). apply andb_true_iff in C. destruct C as [C1 C2].
  unfold ok in C1, C2.
  destruct (numericTime (formatTime h m)) as [ s1 | ]; [ | discriminate ].
  destruct (extractTime (formatTime h m) (toLowerCase (formatTime h m)))
    as [ s2 | ] eqn:X; [ | discriminate ].
  apply eqb_eq in C1, C2. subst s1 s2.
  split; [ reflexivity | split; [ reflexivity | ] ].
  intros today r P. apply parse_inversion in P. destruct P as (_ & -> & _). exact X.
Qed.

Lemma formatted_time_reads_back_witness :
  numericTime (formatTime 7 5) = Some (formatTime 7 5).
Proof.
  apply (formatted_time_reads_back 7 5); reflexivity.
Defined.


(** *** When the parser raises *)

Lemma extractDate_overflow today text mi :
  clock today ->
  inDaysMatch (toLowerCase text) = Some mi ->
  maxDay < today + Z.of_N (parseInt (group 1 mi)) ->
  extractDate today text (toLowerCase text) = Throw RangeError.
Proof.
  intros Now In Over. unfold extractDate.
  rewrite (relativeDate_first today Now). cbn [bind].
  unfold inDaysRule. rewrite In, plusDays_throw by lia. reflexivity.
Qed.

(** X4. The parser raises in one case only: an "in N days" pattern whose day
    lies beyond the last date makes it raise [RangeError], whatever else
    the input holds; on every other input it returns. *)
Theorem parser_raises_on_overflow_only today text :
  clock today ->
  match inDaysMatch (toLowerCase text) with
  | Some mi =>
      if today + Z.of_N (parseInt (group 1 mi)) <=? maxDay
      then exists r, parseNaturalLanguage today text = Ok r
      else parseNaturalLanguage today text = Throw RangeError
  | None => exists r, parseNaturalLanguage today text = Ok r
  end.
Proof.
  intros Now.
  destruct (inDaysMatch (toLowerCase text)) as [ mi | ] eqn:In.
  - destruct (Z.leb_spec (today + Z.of_N (parseInt (group 1 mi))) maxDay) as [ Le | Gt ].
    + destruct (extractDate_returns today text Now) as (d & E); [ now rewrite In | ].
      eexists. apply parse_of_date, E.
    + unfold parseNaturalLanguage.
      now rewrite (extractDate_overflow today text mi Now In Gt).
  - destruct (extractDate_returns today text Now) as (d & E); [ now rewrite In | ].
    eexists. apply parse_of_date, E.
Qed.

Lemma parser_raises_on_overflow_only_witness :
  parseNaturalLanguage 20759 "Pay rent 5/1 in 99999999 days" = Throw RangeError.
Proof.
  apply (parser_raises_on_overflow_only 20759 "Pay rent 5/1 in 99999999 days").
  unfold clock, maxDay. lia.
Defined.

(** *** No due date in the past *)

Lemma MonthFromTime_last d :
  DayWithinYear d = 364 + InLeapYear d -> MonthFromTime d = 11.
Proof.
  intros W. unfold MonthFromTime. rewrite W.
  pose proof (leapDays_range (YearFromTime d)) as L. fold (InLeapYear d) in L.
  repeat match goal with
         | |- context [?a <? ?b] => destruct (Z.ltb_spec a b); [ lia | ]
         end.
  reflexivity.
Qed.

Lemma monthStart_december l : monthStart l 11 = 334 + l.
Proof. reflexivity. Qed.

(** From month 1 on, the date of the M/D rule is today or later. *)
Lemma specificDate_future today m d :
  clock today -> (1 <= m <= 99)%N -> (d <= 99)%N ->
  exists z, specificDate today m d = Ok z /\ today <= z.
Proof.
  intros Now [Hm1 Hm] Hd. unfold specificDate.
  destruct (create_near today m d Now Hm Hd) as (sd & C & B).
  rewrite C. unfold create, getFullYear, MakeFullYear in C.
  destruct Now as [T0 T1].
  pose proof (YearFromTime_epoch today T0) as Y0.
  pose proof (YearFromTime_spec today) as YS.
  set (Y := YearFromTime today) in *.
  replace ((0 <=? Y) && (Y <=? 99)) with false in C
    by (symmetry; apply andb_false_iff; right; apply Z.leb_gt; lia).
  apply TimeClip_some in C. destruct C as [Esd _].
  assert (Lo : DayFromYear Y - 1 <= sd).
  { rewrite Esd. unfold MakeDay.
    set (q := (Z.of_N m - 1) / 12).
    assert (Q : 0 <= q) by (subst q; Z.div_mod_to_equations; lia).
    pose proof (monthStart_range (leapDays (Y + q)) ((Z.of_N m - 1) mod 12)
                  (leapDays_range _)).
    pose proof (DayFromYear_mono Y (Y + q) ltac:(lia)). lia. }
  destruct (Z.ltb_spec sd today) as [ Lt | Ge ]; [ | exists sd; now split ].
  unfold setFullYear, getFullYear.
  rewrite MakeDay_month by apply MonthFromTime_range.
  set (z := _ + _ + _ - 1).
  pose proof (YearFromTime_spec sd) as Ys.
  set (ys := YearFromTime sd) in *.
  assert (Yle : ys <= Y).
  { destruct (Z.le_gt_cases ys Y) as [ ? | G ]; [ assumption | ].
    pose proof (DayFromYear_mono (Y + 1) ys ltac:(lia)). lia. }
  assert (Yge : Y - 1 <= ys).
  { destruct (Z.le_gt_cases (Y - 1) ys) as [ ? | G ]; [ assumption | ].
    pose proof (DayFromYear_mono (ys + 1) (Y - 1) ltac:(lia)).
    pose proof (DayFromYear_next (Y - 1)) as N1.
    replace (Y - 1 + 1) with Y in N1 by lia. lia. }
  assert (Ez : z = DayFromYear (ys + 1)
                   + (monthStart (leapDays (ys + 1)) (MonthFromTime sd)
                      - monthStart (leapDays ys) (MonthFromTime sd))
                   + (sd - DayFromYear ys)).
  { subst z. unfold DateFromTime, DayWithinYear, InLeapYear. fold ys. lia. }
  assert (Bz : today <= z).
  { destruct (Z.eq_dec ys Y) as [ E | N ].
    - pose proof (monthStart_leap (leapDays (ys + 1)) (leapDays ys) (MonthFromTime sd)
                    (leapDays_range _) (leapDays_range _)).
      rewrite E in *. lia.
    - assert (E : ys = Y - 1) by lia.
      assert (Es : sd = DayFromYear Y - 1).
      { rewrite E in Ys. replace (Y - 1 + 1) with Y in Ys by lia. lia. }
      pose proof (DayFromYear_next_exact (Y - 1)) as N1.
      replace (Y - 1 + 1) with Y in N1 by lia.
      pose proof (DayFromYear_next_exact Y) as N2.
      assert (W : DayWithinYear sd = 364 + InLeapYear sd).
      { unfold DayWithinYear, InLeapYear, leapDays. fold ys. rewrite E. lia. }
      rewrite (MonthFromTime_last _ W), !monthStart_december in Ez.
      rewrite E in Ez. replace (Y - 1 + 1) with Y in Ez by lia.
      unfold leapDays in Ez. lia. }
  exists z. split; [ | exact Bz ].
  rewrite TimeClip_valid; [ reflexivity | ].
  pose proof (monthStart_leap (leapDays (ys + 1)) (leapDays ys) (MonthFromTime sd)
                (leapDays_range _) (leapDays_range _)).
  pose proof (DayFromYear_next ys).
  unfold maxDay in *. lia.
Qed.

Lemma relativeRules_ahead today r :
  In r (relativeRules today) -> 0 <= snd r <= 7.
Proof.
  pose proof (offsetTo_range today) as R.
  unfold relativeRules. cbn [In].
  rewrite daysUntilSaturday_offsetTo, !daysToAdd_offsetTo by lia.
  pose proof (R 0). pose proof (R 1). pose proof (R 2). pose proof (R 3).
  pose proof (R 4). pose proof (R 5). pose proof (R 6).
  intros Hin.
  repeat (destruct Hin as [ <- | Hin ]; [ cbn [snd]; lia | ]).
  destruct Hin.
Qed.

(** X5. A due date never lies before today, when the month of an M/D pattern
    is not 0: relative phrases give today or one of the next seven days,
    "in N days" a later day, and the M/D rule moves a past date into the
    next year. *)
Theorem due_date_not_before_today today text r z :
  clock today ->
  parseNaturalLanguage today text = Ok r ->
  dueDate r = Some z ->
  (forall m, dateMatch text = Some m -> (1 <= parseInt (group 1 m))%N) ->
  today <= z.
Proof.
  intros Now P D Month. apply parse_inversion in P. destruct P as (E & _).
  rewrite D in E. unfold extractDate in E.
  rewrite (relativeDate_first today Now) in E. cbn [bind] in E.
  assert (Rel : forall d, dateOf today (firstMatching (relativeRules today)
                                          (toLowerCase text)) = Some d -> today <= d).
  { intros d. unfold firstMatching.
    destruct (find _ _) as [ rule | ] eqn:F; [ | discriminate ].
    apply find_some in F. destruct F as [F _].
    apply relativeRules_ahead in F. cbn [dateOf option_map]. intros [= <-]. lia. }
  assert (Step : forall d0, (forall d, d0 = Some d -> today <= d) ->
                   specificDateRule today text d0 = Ok (Some z) -> today <= z).
  { intros d0 H0. unfold specificDateRule.
    destruct (dateMatch text) as [ m | ] eqn:Md.
    - destruct (dateMatch_numbers text m Md) as [Hm Hd].
      destruct (specificDate_future today _ _ Now (conj (Month m eq_refl) Hm) Hd)
        as (z' & -> & Bz).
      cbn [bind]. now intros [= <-].
    - intros [= ->]. now apply H0. }
  unfold inDaysRule in E.
  destruct (inDaysMatch (toLowerCase text)) as [ mi | ].
  - rewrite plusDays_clip in E.
    destruct (TimeClip (today + Z.of_N (parseInt (group 1 mi)))) as [ v | ] eqn:C;
      [ | discriminate ].
    apply TimeClip_some in C. destruct C as [-> _]. cbn [toISOString bind] in E.
    apply (Step (Some (today + Z.of_N (parseInt (group 1 mi))))); [ | exact E ].
    intros d [= ?]. lia.
  - cbn [bind] in E. now apply (Step _ Rel).
Qed.

Lemma due_date_not_before_today_witness : 20759 <= 21092.
Proof.
  apply (due_date_not_before_today 20759 "Pay rent 10/1"
           (mkResult "Pay rent 10/1" Finance Medium (Some 21092) None none) 21092);
    [ unfold clock, maxDay; lia | reflexivity | reflexivity | ].
  intros m [= <-]. vm_compute. discriminate.
Defined.

(** With month 0 the rule can give a day that is past: on 20 December
    2026, "0/5" is due on 5 December 2026. *)
Example month_zero_is_past :
  parseNaturalLanguage 20807 "0/5"
  = Ok (mkResult "0/5" Other Medium (Some 20792) None none).
Proof. reflexivity. Qed.


(** *** Keyword detection *)

Lemma categoryLoop_cases entries lowerText :
  (exists kws, In (categoryLoop entries lowerText, kws) entries
               /\ some kws lowerText = true)
  \/ (categoryLoop entries lowerText = Other
      /\ forall c k, In (c, k) entries -> some k lowerText = false).
Proof.
  induction entries as [ | [c k] entries IH ]; [ right; split; [ reflexivity | intros ? ? [] ] | ].
  cbn [categoryLoop]. destruct (some k lowerText) eqn:S.
  - left. exists k. split; [ now left | exact S ].
  - destruct IH as [ (kws & Hin & T) | (O & F) ].
    + left. exists kws. split; [ now right | exact T ].
    + right. split; [ exact O | ].
      intros c' k' [ [= <- <-] | Hin ]; [ exact S | now apply (F c') ].
Qed.

Lemma categoryLoop_first before cat kws after lowerText :
  some kws lowerText = true ->
  (forall c k, In (c, k) before -> some k lowerText = false) ->
  categoryLoop (before ++ (cat, kws) :: after) lowerText = cat.
Proof.
  intros T F. induction before as [ | [c k] before IH ]; cbn [app categoryLoop].
  - now rewrite T.
  - rewrite (F c k) by now left. apply IH. intros c' k' Hin. apply (F c'). now right.
Qed.

(** X1. The category is that of the first list, in the declared order, one of
    whose keywords occurs in the lower-cased text, as a word or inside
    one; it is Other exactly when no keyword of any list occurs. *)
Theorem category_first_declared lowerText :
  (detectCategory lowerText = Other <->
     forall cat kws, In (cat, kws) categoryKeywords -> some kws lowerText = false)
  /\ (forall before cat kws after,
        categoryKeywords = (before ++ (cat, kws) :: after)%list ->
        some kws lowerText = true ->
        (forall c k, In (c, k) before -> some k lowerText = false) ->
        detectCategory lowerText = cat)
  /\ (detectCategory lowerText <> Other ->
      exists kws kw,
        In (detectCategory lowerText, kws) categoryKeywords
        /\ In kw kws /\ includes lowerText kw = true).
Proof.
  unfold detectCategory.
  destruct (categoryLoop_cases categoryKeywords lowerText) as [ (kws & Hin & T) | (O & F) ].
  - split; [ | split ].
    + split.
      * intros E. rewrite E in Hin. exfalso.
        cbn in Hin. repeat (destruct Hin as [ Hin | Hin ]; [ discriminate | ]). exact Hin.
      * intros F. rewrite (F _ _ Hin) in T. discriminate.
    + intros before cat kws' after E T' F. rewrite E. now apply categoryLoop_first.
    + intros _. unfold some in T. apply existsb_exists in T.
      destruct T as (kw & Hkw & I). now exists kws, kw.
  - split; [ | split ].
    + split; [ intros _; exact F | intros _; exact O ].
    + intros before cat kws after E T' F'. rewrite E. now apply categoryLoop_first.
    + intros N. contradiction.
Qed.

Lemma category_first_declared_witness :
  detectCategory (toLowerCase "Forget the party") = Personal
  /\ includes (toLowerCase "Forget the party") "get" = true.
Proof.
  split; [ | reflexivity ].
  apply (proj1 (proj2 (category_first_declared (toLowerCase "Forget the party")))
           (firstn 1 categoryKeywords) Personal
           ["birthday"; "anniversary"; "family"; "friend"; "party";
            "dinner"; "lunch"; "movie"]%string
           (skipn 2 categoryKeywords)); [ reflexivity | reflexivity | ].
  intros c k [ [= <- <-] | [] ]. reflexivity.
Defined.

Lemma startsWith_app s b p : startsWith s p = true -> startsWith (s ++ b) p = true.
Proof.
  revert s. induction p as [ | c p IH ]; intros s H; [ now destruct (s ++ b) | ].
  destruct s as [ | d s ]; [ discriminate H | ].
  cbn [app startsWith] in *. apply andb_true_iff in H. destruct H as [E H].
  now rewrite E, (IH _ H).
Qed.

Lemma includes_app_r s b p : includes s p = true -> includes (s ++ b) p = true.
Proof.
  induction s as [ | d s IH ]; cbn [includes app].
  - rewrite orb_false_r. intros H. destruct p; [ | discriminate ].
    destruct b; reflexivity.
  - rewrite !orb_true_iff. intros [ H | H ].
    + left. now apply (startsWith_app (d :: s)).
    + right. now apply IH.
Qed.

Lemma includes_app_l a s p : includes s p = true -> includes (a ++ s) p = true.
Proof.
  intros H. induction a as [ | d a IH ]; [ exact H | ].
  cbn [includes app]. rewrite IH. apply orb_true_r.
Qed.

Lemma includes_inside a s b p :
  includes (toLowerCase s) p = true ->
  includes (toLowerCase (a ++ s ++ b)) p = true.
Proof.
  intros H. unfold toLowerCase. rewrite !map_app.
  now apply includes_app_l, includes_app_r.
Qed.

Lemma some_inside a s b kws :
  some kws (toLowerCase s) = true -> some kws (toLowerCase (a ++ s ++ b)) = true.
Proof.
  unfold some. rewrite !existsb_exists. intros (kw & Hin & H).
  exists kw. split; [ exact Hin | now apply includes_inside ].
Qed.

(** X2. Text around a text can only move its category, its priority and its
    recurrence towards the front of the order in which the parser tries
    them: what a text is detected as, a longer text holding it is detected
    as too, unless an earlier alternative now matches. *)
Theorem detection_monotone a s b :
  (categoryRank (detectCategory (toLowerCase (a ++ s ++ b)))
   <= categoryRank (detectCategory (toLowerCase s)))%nat
  /\ (priorityRank (detectPriority (toLowerCase (a ++ s ++ b)))
      <= priorityRank (detectPriority (toLowerCase s)))%nat
  /\ (recurringRank (detectRecurring (toLowerCase (a ++ s ++ b)))
      <= recurringRank (detectRecurring (toLowerCase s)))%nat.
Proof.
  pose proof (fun kws => some_inside a s b kws) as S.
  pose proof (fun p => includes_inside a s b p) as I.
  set (t := toLowerCase (a ++ s ++ b)) in *.
  set (l := toLowerCase s) in *.
  split; [ | split ].
  - unfold detectCategory, categoryKeywords. cbn [categoryLoop].
    repeat match goal with
           | |- context [some ?k l] =>
               let H := fresh "H" in
               pose proof (S k) as H;
               destruct (some k l); destruct (some k t);
               try (specialize (H eq_refl); discriminate H); clear H;
               cbn [categoryRank]; try lia
           end.
  - unfold detectPriority.
    destruct (some highPriorityKeywords l) eqn:H1; [ rewrite (S _ H1); cbn; lia | ].
    destruct (some highPriorityKeywords t); [ destruct (some lowPriorityKeywords l); cbn; lia | ].
    destruct (some lowPriorityKeywords l) eqn:H2; [ rewrite (S _ H2); cbn; lia | ].
    destruct (some lowPriorityKeywords t); cbn; lia.
  - unfold detectRecurring.
    repeat match goal with
           | |- context [includes l ?p] =>
               let E := fresh "E" in
               destruct (includes l p) eqn:E; [ rewrite (I p E) | ]
           end;
      repeat match goal with
             | |- context [includes t ?p] => destruct (includes t p)
             end; cbn; lia.
Qed.

End Stages.

(** ** Letter case *)

Module LetterCase.
Import JSString RegExp JSDate Parser Spec Notions.
Import RegExpFacts DatePatterns DateRules Cleaning Tidy Stages.
Local Open Scope string_scope.
Local Open Scope list_scope.

Lemma upper_digit c : isDigit (toUpperChar c) = isDigit c.
Proof. destruct c as [[] [] [] [] [] [] [] []]; reflexivity. Qed.

Lemma upper_slash c : isSlashOrHyphen (toUpperChar c) = isSlashOrHyphen c.
Proof. destruct c as [[] [] [] [] [] [] [] []]; reflexivity. Qed.

Lemma lower_upper c : toLowerChar (toUpperChar c) = toLowerChar c.
Proof. destruct c as [[] [] [] [] [] [] [] []]; reflexivity. Qed.

Lemma upper_of_digit c : isDigit c = true -> toUpperChar c = c.
Proof. destruct c as [[] [] [] [] [] [] [] []]; reflexivity || discriminate. Qed.

Lemma upper_nonletter c d :
  isLetter c = false -> Ascii.eqb c (toUpperChar d) = Ascii.eqb c d.
Proof.
  intros L.
  destruct (Ascii.eqb_spec c (toUpperChar d)) as [ E | N ];
    destruct (Ascii.eqb_spec c d) as [ E' | N' ]; trivial; exfalso.
  - subst c. apply N'. clear N'.
    destruct d as [[] [] [] [] [] [] [] []]; reflexivity || discriminate L.
  - subst c. apply N. clear N.
    destruct d as [[] [] [] [] [] [] [] []]; reflexivity || discriminate L.
Qed.

Lemma charEq_upper icase c d :
  icase = true \/ isLetter c = false ->
  charEq icase c (toUpperChar d) = charEq icase c d.
Proof.
  unfold charEq. destruct icase; intros [ H | H ]; try discriminate H.
  - now rewrite TitleWords.upper_upper.
  - now rewrite TitleWords.upper_upper.
  - now apply upper_nonletter.
Qed.

Lemma toLowerCase_upper s : toLowerCase (toUpperCase s) = toLowerCase s.
Proof.
  unfold toLowerCase, toUpperCase. rewrite map_map. apply map_ext, lower_upper.
Qed.

Lemma upper_digits s : Forall (fun c => isDigit c = true) s -> map toUpperChar s = s.
Proof.
  induction 1 as [ | c s D _ IH ]; [ reflexivity | ].
  cbn [map]. now rewrite (upper_of_digit _ D), IH.
Qed.

(** *** The matcher on the text in upper case *)

Lemma between_upper x y :
  between ((mapState toUpperChar) x) ((mapState toUpperChar) y) = map toUpperChar (between x y).
Proof.
  unfold between. cbn [mapState remaining]. now rewrite !length_map, firstn_map.
Qed.

Lemma atBoundary_upper x : atBoundary ((mapState toUpperChar) x) = atBoundary x.
Proof.
  unfold atBoundary, wordBefore, wordAhead. cbn [mapState consumed remaining].
  destruct (consumed x), (remaining x); cbn [map]; now rewrite ?TitleWords.upper_word.
Qed.

Lemma charMatcher_upper p x k k' :
  (forall d, p (toUpperChar d) = p d) -> commutes k' k ->
  charMatcher p ((mapState toUpperChar) x) k' = option_map (mapState toUpperChar) (charMatcher p x k).
Proof.
  intros Hp C. unfold charMatcher. cbn [mapState remaining].
  destruct (remaining x) as [ | d rest ] eqn:R; [ reflexivity | ].
  cbn [map]. rewrite Hp. destruct (p d); [ | reflexivity ].
  rewrite <- C. reflexivity.
Qed.

Lemma repeatMatcher_upper m m' lo hi k k' :
  (forall x j j', commutes j' j -> m' ((mapState toUpperChar) x) j' = option_map (mapState toUpperChar) (m x j)) ->
  commutes k' k ->
  forall fuel count x,
    repeatMatcher m' lo hi k' fuel count ((mapState toUpperChar) x)
    = option_map (mapState toUpperChar) (repeatMatcher m lo hi k fuel count x).
Proof.
  intros Hm C. induction fuel as [ | fuel IH ]; intros count x; cbn [repeatMatcher].
  - destruct (Nat.leb lo count); [ apply C | reflexivity ].
  - assert (Stop : (if Nat.leb lo count then k' ((mapState toUpperChar) x) else None)
                   = option_map (mapState toUpperChar) (if Nat.leb lo count then k x else None))
      by (destruct (Nat.leb lo count); [ apply C | reflexivity ]).
    destruct (reached hi count); [ exact Stop | ].
    rewrite (Hm x (fun y =>
                     if Nat.ltb (length (remaining y)) (length (remaining x))
                        || Nat.ltb count lo
                     then repeatMatcher m lo hi k fuel (S count) y
                     else None)).
    + destruct (m x _); [ reflexivity | exact Stop ].
    + intros y. cbn [mapState remaining]. rewrite !length_map.
      destruct (_ || _); [ apply IH | reflexivity ].
Qed.

Lemma matcher_upper icase r :
  caseBlind icase toUpperChar r ->
  forall x k k', commutes k' k ->
    matcher icase r ((mapState toUpperChar) x) k' = option_map (mapState toUpperChar) (matcher icase r x k).
Proof.
  induction r as [ | c | p | r1 IH1 r2 IH2 | r1 IH1 r2 IH2 | lo hi r1 IH1 | i r1 IH1 | ];
    intros B x k k' C; cbn [matcher caseBlind] in *.
  - apply C.
  - apply charMatcher_upper; [ | exact C ]. intros d. now apply charEq_upper.
  - now apply charMatcher_upper.
  - destruct B as [B1 B2]. apply IH1; [ exact B1 | ].
    intros y. now apply IH2.
  - destruct B as [B1 B2]. rewrite (IH1 B1 x k k' C), (IH2 B2 x k k' C).
    now destruct (matcher icase r1 x k).
  - cbn [mapState remaining]. rewrite length_map.
    apply repeatMatcher_upper; [ | exact C ].
    intros y j j' Cj. now apply IH1.
  - apply IH1; [ exact B | ].
    intros y. rewrite between_upper. apply (C (setCapture i (between x y) y)).
  - rewrite atBoundary_upper. destruct (atBoundary x); [ apply C | reflexivity ].
Qed.

Lemma matchAt_upper icase r before s :
  caseBlind icase toUpperChar r ->
  matchAt icase r (map toUpperChar before) (map toUpperChar s)
  = option_map (mapState toUpperChar) (matchAt icase r before s).
Proof.
  intros B. unfold matchAt.
  apply (matcher_upper icase r B (mkState before s []) Some Some).
  intros y. reflexivity.
Qed.

Lemma searchFrom_upper icase r :
  caseBlind icase toUpperChar r ->
  forall s before,
    searchFrom icase r (map toUpperChar before) (map toUpperChar s)
    = option_map (mapState toUpperChar) (searchFrom icase r before s).
Proof.
  intros B. induction s as [ | c s IH ]; intros before; cbn [searchFrom map].
  - pose proof (matchAt_upper icase r before [] B) as M. cbn [map] in M.
    rewrite M. now destruct (matchAt icase r before []).
  - pose proof (matchAt_upper icase r before (c :: s) B) as M. cbn [map] in M.
    rewrite M. destruct (matchAt icase r before (c :: s)); [ reflexivity | ].
    apply (IH (c :: before)).
Qed.

Lemma exec_upper icase r s :
  caseBlind icase toUpperChar r ->
  exec icase r (toUpperCase s) = option_map (mapState toUpperChar) (exec icase r s).
Proof. intros B. apply (searchFrom_upper icase r B s []). Qed.

Lemma replaceLoop_upper icase r repl fuel :
  caseBlind icase toUpperChar r ->
  forall s before,
    replaceLoop icase r (map toUpperChar repl) fuel
      (map toUpperChar before) (map toUpperChar s)
    = map toUpperChar (replaceLoop icase r repl fuel before s).
Proof.
  intros B. induction fuel as [ | fuel IH ]; intros s before; [ reflexivity | ].
  cbn [replaceLoop]. rewrite (matchAt_upper icase r before s B).
  destruct (matchAt icase r before s) as [ y | ]; cbn [option_map].
  - cbn [mapState remaining consumed]. rewrite !length_map.
    destruct (Nat.ltb _ _).
    + now rewrite map_app, IH.
    + destruct s as [ | c s ]; cbn [map]; [ reflexivity | ].
      rewrite map_app. cbn [map]. now rewrite <- (IH s (c :: before)).
  - destruct s as [ | c s ]; cbn [map]; [ reflexivity | ].
    now rewrite <- (IH s (c :: before)).
Qed.

Lemma replaceAll_upper icase r repl s :
  caseBlind icase toUpperChar r ->
  replaceAll icase r (map toUpperChar repl) (toUpperCase s)
  = toUpperCase (replaceAll icase r repl s).
Proof.
  intros B. unfold replaceAll, toUpperCase. rewrite length_map.
  apply (replaceLoop_upper icase r repl _ B s []).
Qed.


(** *** The stages on the text in upper case *)

Ltac case_blind :=
  cbv -[isDigit isWhiteSpace isSlashOrHyphen toUpperChar isLetter];
  repeat split;
  first [ left; reflexivity
        | right; reflexivity
        | intro; first [ apply upper_digit | apply upper_space | apply upper_slash ] ].

Lemma lookup_upper i cs :
  lookup i (map (fun c : nat * list ascii => (fst c, map toUpperChar (snd c))) cs)
  = option_map (map toUpperChar) (lookup i cs).
Proof.
  induction cs as [ | [j s] cs IH ]; [ reflexivity | ].
  cbn [map lookup fst snd]. destruct (Nat.eqb i j); [ reflexivity | exact IH ].
Qed.

Lemma capture_upper i m :
  capture i (mapState toUpperChar m) = option_map (map toUpperChar) (capture i m).
Proof. apply lookup_upper. Qed.

Lemma group_upper i m : group i (mapState toUpperChar m) = map toUpperChar (group i m).
Proof. unfold group. rewrite capture_upper. now destruct (capture i m). Qed.

Lemma specificDateRule_upper today text d :
  specificDateRule today (toUpperCase text) d = specificDateRule today text d.
Proof.
  unfold specificDateRule, dateMatch.
  rewrite exec_upper by case_blind.
  destruct (exec false datePattern text) as [ m | ] eqn:E; [ | reflexivity ].
  cbn [option_map]. destruct (dateMatch_groups text m E) as [[D1 _] [D2 _]].
  now rewrite !group_upper, (upper_digits _ D1), (upper_digits _ D2).
Qed.

Lemma extractDate_upper today text :
  extractDate today (toUpperCase text) (toLowerCase (toUpperCase text))
  = extractDate today text (toLowerCase text).
Proof.
  unfold extractDate. rewrite toLowerCase_upper.
  destruct (relativeDate today (toLowerCase text)) as [ d | e ]; [ | reflexivity ].
  cbn [bind].
  destruct (inDaysRule today (toLowerCase text) d) as [ d' | e ]; [ | reflexivity ].
  cbn [bind]. apply specificDateRule_upper.
Qed.

Lemma time12_upper text m :
  exec true time12Pattern text = Some m ->
  time12 (mapState toUpperChar m) = time12 m.
Proof.
  intros E. destruct (time12_groups text m E) as ((D1 & _) & D2 & _).
  unfold time12. rewrite !group_upper, capture_upper.
  rewrite (upper_digits _ D1), toLowerCase_upper.
  destruct (capture 2 m) as [ s | ]; [ | reflexivity ].
  cbn [option_map]. destruct D2 as [D2 _]. now rewrite (upper_digits _ D2).
Qed.

Lemma time24_upper text m d :
  exec false time24Pattern text = Some m ->
  time24 (mapState toUpperChar m) d = time24 m d.
Proof.
  intros E. destruct (time24_groups text m E) as ((D1 & _) & D2 & _).
  unfold time24. now rewrite !group_upper, (upper_digits _ D1), (upper_digits _ D2).
Qed.

Lemma numericTime_upper text : numericTime (toUpperCase text) = numericTime text.
Proof.
  unfold numericTime.
  rewrite (exec_upper true time12Pattern) by case_blind.
  rewrite (exec_upper false time24Pattern) by case_blind.
  destruct (exec true time12Pattern text) as [ m | ] eqn:E12; cbn [option_map].
  - rewrite (time12_upper text m E12).
    now destruct (exec false time24Pattern text).
  - destruct (exec false time24Pattern text) as [ m | ] eqn:E24; cbn [option_map];
      [ apply (time24_upper text m None E24) | reflexivity ].
Qed.

Lemma trimStart_upper s :
  trimStart (map toUpperChar s) = map toUpperChar (trimStart s).
Proof.
  induction s as [ | c s IH ]; [ reflexivity | ].
  cbn [map trimStart]. rewrite upper_space.
  destruct (isWhiteSpace c); [ exact IH | reflexivity ].
Qed.

Lemma trim_upper s : trim (toUpperCase s) = toUpperCase (trim s).
Proof.
  unfold trim, trimEnd, toUpperCase.
  now rewrite trimStart_upper, <- map_rev, trimStart_upper, map_rev.
Qed.

Lemma capitalize_upper s : capitalize (toUpperCase s) = toUpperCase (capitalize s).
Proof.
  destruct s as [ | c s ]; [ reflexivity | ].
  unfold capitalize. cbn. now rewrite !TitleWords.upper_upper.
Qed.

Lemma removeKeywords_upper text :
  removeKeywords (toUpperCase text) = toUpperCase (removeKeywords text).
Proof.
  unfold removeKeywords.
  change (@nil ascii) with (map toUpperChar []).
  now rewrite !replaceAll_upper by case_blind.
Qed.

Lemma cleanTitle_upper text : cleanTitle (toUpperCase text) = toUpperCase (cleanTitle text).
Proof.
  unfold cleanTitle, collapse. rewrite removeKeywords_upper.
  change (" " : list ascii) with (map toUpperChar (" " : list ascii)).
  rewrite replaceAll_upper by case_blind.
  now rewrite trim_upper, capitalize_upper.
Qed.

(** X3. The parser does not tell letter cases apart: on the input in upper
    case it returns the same category, priority, due date, due time and
    recurrence, and the title in upper case; and it raises when it raises
    on the input. *)
Theorem parser_ignores_case today text :
  parseNaturalLanguage today (toUpperCase text)
  = match parseNaturalLanguage today text with
    | Ok r =>
        Ok (mkResult (toUpperCase (title r)) (category r) (priority r)
              (dueDate r) (dueTime r) (recurring r))
    | Throw e => Throw e
    end.
Proof.
  unfold parseNaturalLanguage. rewrite extractDate_upper.
  destruct (extractDate today text (toLowerCase text)) as [ d | e ];
    cbn [bind]; [ | reflexivity ].
  cbn [title category priority dueDate dueTime recurring].
  unfold extractTime.
  now rewrite toLowerCase_upper, numericTime_upper, cleanTitle_upper.
Qed.

End LetterCase.

(** ** The task list *)

Module TaskList.
Import JSString JSDate Parser Spec App Notions DateFacts Cleaning DateRules Tidy.
Local Open Scope list_scope.
Local Open Scope Z_scope.

Lemma isEmpty_trim s : isEmpty (trim s) = forallb isWhiteSpace s.
Proof.
  destruct (forallb isWhiteSpace s) eqn:W.
  - apply trim_nil in W. now rewrite W.
  - destruct (trim s) eqn:T; [ | reflexivity ].
    apply trim_nil in T. congruence.
Qed.

Lemma withCompleted_twice b t :
  withCompleted (negb (completed (withCompleted (negb b) t))) (withCompleted (negb b) t)
  = withCompleted b t.
Proof. unfold withCompleted; simpl. now rewrite negb_involutive. Qed.

Lemma withCompleted_self t : withCompleted (completed t) t = t.
Proof. now destruct t. Qed.

Lemma withTitle_self t : withTitle (title t) t = t.
Proof. now destruct t. Qed.

Lemma setTasks_self s : setTasks (tasks s) s = s.
Proof. now destruct s. Qed.

(** X14. Toggling the same id twice gives the state back, and one toggle changes
    nothing but the [completed] flags: ids, order and every other field of
    every task stay. *)
Theorem toggleComplete_involution i s :
  toggleComplete i (toggleComplete i s) = s
  /\ map (withCompleted false) (tasks (toggleComplete i s))
     = map (withCompleted false) (tasks s)
  /\ forall t, In t (tasks s) -> id t <> i -> In t (tasks (toggleComplete i s)).
Proof.
  destruct s as [ts inp f sb et etx]. unfold toggleComplete, setTasks; simpl.
  split; [ f_equal | split ].
  - rewrite map_map. rewrite <- (map_id ts) at 2. apply map_ext. intros t.
    destruct (Z.eqb_spec (id t) i) as [ E | N ]; simpl.
    + rewrite (proj2 (Z.eqb_eq _ _) E). destruct t; simpl. now rewrite negb_involutive.
    + now rewrite (proj2 (Z.eqb_neq _ _) N).
  - rewrite map_map. apply map_ext. intros t.
    destruct (id t =? i); reflexivity.
  - intros t Hin N. apply in_map_iff. exists t. split; [ | exact Hin ].
    now rewrite (proj2 (Z.eqb_neq _ _) N).
Qed.

Lemma toggleComplete_involution_witness :
  In (newTask 2 2 (mkResult "b" Other Medium None None none))
    (tasks (toggleComplete 1
              (mkApp [newTask 1 1 (mkResult "a" Other Medium None None none);
                      newTask 2 2 (mkResult "b" Other Medium None None none)]
                 [] "all" "date" None []))).
Proof.
  apply (proj2 (proj2 (toggleComplete_involution 1
           (mkApp [newTask 1 1 (mkResult "a" Other Medium None None none);
                   newTask 2 2 (mkResult "b" Other Medium None None none)]
              [] "all" "date" None [])))).
  - right. now left.
  - discriminate.
Defined.

(** X16. Deleting by id removes every task with that id and keeps the others in
    their order; deleting again, or deleting an id that no task has,
    changes nothing. *)
Theorem deleteTask_removes_id i s :
  ~ In i (map id (tasks (deleteTask i s)))
  /\ (forall t, In t (tasks s) -> id t <> i -> In t (tasks (deleteTask i s)))
  /\ (forall t, In t (tasks (deleteTask i s)) -> In t (tasks s))
  /\ deleteTask i (deleteTask i s) = deleteTask i s
  /\ (~ In i (map id (tasks s)) -> deleteTask i s = s)
  /\ (length (tasks (deleteTask i s)) + count_occ Z.eq_dec (map id (tasks s)) i
      = length (tasks s))%nat.
Proof.
  destruct s as [ts inp f sb et etx]. unfold deleteTask, setTasks; simpl.
  split; [ | split; [ | split; [ | split; [ | split ] ] ] ].
  - intros Hin. apply in_map_iff in Hin. destruct Hin as (t & E & Hin).
    apply filter_In in Hin. destruct Hin as [_ N].
    apply negb_true_iff, Z.eqb_neq in N. contradiction.
  - intros t Hin N. apply filter_In. split; [ exact Hin | ].
    now apply negb_true_iff, Z.eqb_neq.
  - intros t Hin. now apply filter_In in Hin.
  - f_equal. induction ts as [ | t ts IH ]; simpl; [ reflexivity | ].
    destruct (negb (id t =? i)) eqn:E; simpl; [ rewrite E; f_equal | ]; exact IH.
  - intros N. f_equal. induction ts as [ | t ts IH ]; simpl; [ reflexivity | ].
    simpl in N. destruct (Z.eqb_spec (id t) i) as [ E | _ ]; simpl.
    + exfalso. apply N. now left.
    + f_equal. apply IH. intros H. apply N. now right.
  - induction ts as [ | t ts IH ]; simpl; [ reflexivity | ].
    destruct (Z.eq_dec (id t) i) as [ E | N ].
    + rewrite (proj2 (Z.eqb_eq _ _) E). simpl. lia.
    + rewrite (proj2 (Z.eqb_neq _ _) N). simpl. lia.
Qed.

Lemma deleteTask_removes_id_witness :
  In (newTask 2 2 (mkResult "b" Other Medium None None none))
    (tasks (deleteTask 1
              (mkApp [newTask 1 1 (mkResult "a" Other Medium None None none);
                      newTask 2 2 (mkResult "b" Other Medium None None none);
                      newTask 1 3 (mkResult "c" Other Medium None None none)]
                 [] "all" "date" None [])))
  /\ length (tasks (deleteTask 1
              (mkApp [newTask 1 1 (mkResult "a" Other Medium None None none);
                      newTask 2 2 (mkResult "b" Other Medium None None none);
                      newTask 1 3 (mkResult "c" Other Medium None None none)]
                 [] "all" "date" None []))) = 1%nat.
Proof.
  split; [ | reflexivity ].
  apply (proj1 (proj2 (deleteTask_removes_id 1
           (mkApp [newTask 1 1 (mkResult "a" Other Medium None None none);
                   newTask 2 2 (mkResult "b" Other Medium None None none);
                   newTask 1 3 (mkResult "c" Other Medium None None none)]
              [] "all" "date" None [])))).
  - right. now left.
  - discriminate.
Defined.


Lemma filter_absent i ts :
  ~ In i (map id ts) -> List.filter (fun task => negb (id task =? i)) ts = ts.
Proof.
  induction ts as [ | t ts IH ]; simpl; [ reflexivity | ]. intros N.
  destruct (Z.eqb_spec (id t) i) as [ E | _ ]; simpl.
  - exfalso. apply N. now left.
  - f_equal. apply IH. intros H. apply N. now right.
Qed.

Lemma filter_length_le {A : Type} (f : A -> bool) l :
  (length (List.filter f l) <= length l)%nat.
Proof. induction l as [ | a l IH ]; simpl; [ lia | destruct (f a); simpl; lia ]. Qed.

Lemma filter_present i ts :
  In i (map id ts) ->
  (length (List.filter (fun task => negb (id task =? i)%Z) ts) < length ts)%nat.
Proof.
  induction ts as [ | t ts IH ]; simpl; [ tauto | ]. intros [ E | H ].
  - rewrite (proj2 (Z.eqb_eq _ _) E). simpl.
    pose proof (filter_length_le (fun task => negb (id task =? i)) ts). lia.
  - specialize (IH H). destruct (negb (id t =? i)); simpl; lia.
Qed.

(** X11. What [handleAddTask] does when it returns: nothing on an input of
    white space only, the no-break space included; otherwise the parsed
    task goes to the end of the list, not completed, the tasks before it
    stay as they are, the input box is cleared, and the counts of all and
    of active tasks go up by one. *)
Theorem handleAddTask_adds_one today now created s s' :
  handleAddTask today now created s = Ok s' ->
  if forallb isWhiteSpace (inputText s) then s' = s
  else
    exists r,
      parseNaturalLanguage today (inputText s) = Ok r
      /\ s' = mkApp (tasks s ++ [newTask now created r]) [] (filter s) (sortBy s)
                (editingTask s) (editText s)
      /\ completed (newTask now created r) = false
      /\ stats s'
         = mkStats (S (total (stats s))) (S (active (stats s))) (done (stats s)).
Proof.
  unfold handleAddTask. rewrite isEmpty_trim.
  destruct (forallb isWhiteSpace (inputText s)); [ now intros [= <-] | ].
  destruct (parseNaturalLanguage today (inputText s)) as [ r | e ];
    cbn [bind]; [ | discriminate ].
  intros [= <-]. exists r. split; [ reflexivity | ].
  split; [ reflexivity | split; [ reflexivity | ] ].
  unfold stats, setInputText, setTasks. cbn [tasks total active done].
  rewrite !filter_app, !length_app. cbn. f_equal; lia.
Qed.

Lemma handleAddTask_adds_one_witness :
  exists r,
    parseNaturalLanguage 20759 "Buy milk tomorrow" = Ok r
    /\ Ok (mkApp [newTask 1793577600000 1793577600001
                    (mkResult "Buy milk" Shopping Medium (Some 20760) None none)]
             [] "all" "date" None [])
       = Ok (mkApp ([] ++ [newTask 1793577600000 1793577600001 r]) []
               "all" "date" None [])
    /\ completed (newTask 1793577600000 1793577600001 r) = false
    /\ stats (mkApp [newTask 1793577600000 1793577600001
                       (mkResult "Buy milk" Shopping Medium (Some 20760) None none)]
                [] "all" "date" None [])
       = mkStats 1 1 0.
Proof.
  destruct (handleAddTask_adds_one 20759 1793577600000 1793577600001
              (setInputText "Buy milk tomorrow" initial)
              (mkApp [newTask 1793577600000 1793577600001
                        (mkResult "Buy milk" Shopping Medium (Some 20760) None none)]
                 [] "all" "date" None []) eq_refl) as (r & P & E & C & S).
  exists r. split; [ exact P | ]. split; [ now rewrite E | ]. split; [ exact C | exact S ].
Defined.

(** X12. Adding a task and deleting it by its id gives the list back when no
    task had that id before; when one had (ids are clock readings), the
    deletion takes it away too. *)
Theorem add_then_delete today now created s s' :
  handleAddTask today now created s = Ok s' ->
  (~ In now (map id (tasks s)) -> tasks (deleteTask now s') = tasks s)
  /\ (In now (map id (tasks s)) ->
      (length (tasks (deleteTask now s')) < length (tasks s))%nat).
Proof.
  unfold handleAddTask.
  destruct (isEmpty (trim (inputText s))).
  - intros [= <-]. unfold deleteTask, setTasks; cbn [tasks].
    split; [ apply filter_absent | apply filter_present ].
  - destruct (parseNaturalLanguage today (inputText s)) as [ r | e ];
      cbn [bind]; [ | discriminate ].
    intros [= <-]. unfold deleteTask, setInputText, setTasks; cbn [tasks].
    rewrite filter_app. cbn [List.filter newTask id]. rewrite Z.eqb_refl. cbn [negb].
    rewrite app_nil_r.
    split; [ apply filter_absent | apply filter_present ].
Qed.

Lemma add_then_delete_witness :
  tasks (deleteTask 1793577600000
           (mkApp [newTask 1793577600000 1793577600001
                     (mkResult "Buy milk" Shopping Medium (Some 20760) None none)]
              [] "all" "date" None []))
  = [].
Proof.
  apply (proj1 (add_then_delete 20759 1793577600000 1793577600001
                  (setInputText "Buy milk tomorrow" initial) _ eq_refl)).
  simpl. tauto.
Defined.

(** X13. Enter in the input box does what the Add button does; any other key
    does nothing. *)
Theorem handleKeyPress_enter today now created key s :
  handleKeyPress today now created key s
  = if JSString.eqb key "Enter" then handleAddTask today now created s else Ok s.
Proof.
  unfold handleKeyPress. destruct (JSString.eqb key "Enter"); [ | reflexivity ].
  cbn [andb]. unfold handleAddTask.
  now destruct (isEmpty (trim (inputText s))).
Qed.

Lemma filter_split {A : Type} (f : A -> bool) l :
  Permutation (List.filter (fun a => negb (f a)) l ++ List.filter f l) l.
Proof.
  induction l as [ | a l IH ]; simpl; [ constructor | ].
  destruct (f a); simpl.
  - apply Permutation_sym, Permutation_cons_app, Permutation_sym, IH.
  - now constructor.
Qed.

(** X19. The two filtered views split the list: every task is in exactly one of
    "active" and "completed", the counts of the statistics are their
    lengths and add up to the total, and any other filter shows all. *)
Theorem filters_partition s :
  Permutation
    (getFilteredTasks (setFilter "active" s)
     ++ getFilteredTasks (setFilter "completed" s))
    (tasks s)
  /\ length (getFilteredTasks (setFilter "active" s)) = active (stats s)
  /\ length (getFilteredTasks (setFilter "completed" s)) = done (stats s)
  /\ (active (stats s) + done (stats s) = total (stats s))%nat
  /\ (filter s <> ("active" : list ascii) ->
      filter s <> ("completed" : list ascii) ->
      getFilteredTasks s = tasks s).
Proof.
  split; [ | split; [ | split; [ | split ] ] ].
  - apply filter_split.
  - reflexivity.
  - reflexivity.
  - unfold stats; cbn [active done total].
    rewrite <- length_app. apply Permutation_length, filter_split.
  - intros N1 N2. unfold getFilteredTasks.
    destruct (JSString.eqb (filter s) "active") eqn:E1;
      [ apply eqb_eq in E1; contradiction | ].
    destruct (JSString.eqb (filter s) "completed") eqn:E2;
      [ apply eqb_eq in E2; contradiction | reflexivity ].
Qed.

Lemma filters_partition_witness :
  getFilteredTasks
    (mkApp [newTask 1 1 (mkResult "a" Other Medium None None none)]
       [] "all" "date" None [])
  = [newTask 1 1 (mkResult "a" Other Medium None None none)].
Proof.
  apply (proj2 (proj2 (proj2 (proj2 (filters_partition
           (mkApp [newTask 1 1 (mkResult "a" Other Medium None None none)]
              [] "all" "date" None [])))))); discriminate.
Defined.

Lemma toggle_absent i ts :
  ~ In i (map id ts) ->
  map (fun task => if id task =? i then withCompleted (negb (completed task)) task
                   else task) ts = ts.
Proof.
  induction ts as [ | t ts IH ]; simpl; [ reflexivity | ]. intros N.
  destruct (Z.eqb_spec (id t) i) as [ E | _ ].
  - exfalso. apply N. now left.
  - f_equal. apply IH. intros H. apply N. now right.
Qed.

(** X15. When ids are distinct, toggling a task moves exactly that one between
    the active and the completed count. *)
Theorem toggleComplete_moves_one s t :
  NoDup (map id (tasks s)) -> In t (tasks s) ->
  total (stats (toggleComplete (id t) s)) = total (stats s)
  /\ if completed t
     then active (stats (toggleComplete (id t) s)) = S (active (stats s))
          /\ S (done (stats (toggleComplete (id t) s))) = done (stats s)
     else S (active (stats (toggleComplete (id t) s))) = active (stats s)
          /\ done (stats (toggleComplete (id t) s)) = S (done (stats s)).
Proof.
  unfold stats, toggleComplete, setTasks. cbn [tasks total active done].
  generalize (tasks s) as ts. clear s. intros ts ND Hin.
  split; [ apply length_map | ].
  induction ts as [ | u ts IH ]; [ destruct Hin | ].
  cbn [map] in ND. apply NoDup_cons_iff in ND. destruct ND as [Nu ND].
  destruct Hin as [ -> | Hin ].
  - cbn [map]. rewrite Z.eqb_refl, (toggle_absent _ _ Nu).
    cbn [List.filter withCompleted completed].
    destruct (completed t); cbn [negb length]; split; reflexivity.
  - assert (N : id u <> id t).
    { intros E. apply Nu. rewrite E. now apply in_map. }
    cbn [map]. rewrite (proj2 (Z.eqb_neq _ _) N). cbn [List.filter].
    specialize (IH ND Hin).
    destruct (completed t), (completed u); cbn [negb length]; lia.
Qed.

Lemma toggleComplete_moves_one_witness :
  exists r,
    parseNaturalLanguage 20759 "Buy milk" = Ok r
    /\ active (stats (mkApp [newTask 7 8 r] [] "all" "date" None [])) = 1%nat
    /\ done (stats (toggleComplete 7 (mkApp [newTask 7 8 r] [] "all" "date" None [])))
       = 1%nat.
Proof.
  eexists. split; [ reflexivity | ]. split; [ reflexivity | ].
  set (t := newTask 7 8 _).
  destruct (toggleComplete_moves_one (mkApp [t] [] "all" "date" None []) t)
    as (_ & _ & D); [ repeat constructor; simpl; tauto | now left | ].
  exact D.
Defined.


Lemma isEditing_withTitle e v t : isEditing e (withTitle v t) = isEditing e t.
Proof. now destruct e. Qed.

(** X17. [saveEdit] ignores a text of white space only, the no-break space
    included, and stays in edit mode; otherwise it leaves edit mode and
    changes titles only: the tasks with the edited id get the trimmed text,
    which is not empty, and the others stay as they are. *)
Theorem saveEdit_renames s :
  if forallb isWhiteSpace (editText s) then saveEdit s = s
  else
    editingTask (saveEdit s) = None
    /\ editText (saveEdit s) = []
    /\ map (withTitle []) (tasks (saveEdit s)) = map (withTitle []) (tasks s)
    /\ (forall t, In t (tasks s) -> isEditing (editingTask s) t = false ->
                  In t (tasks (saveEdit s)))
    /\ (forall t, In t (tasks (saveEdit s)) -> isEditing (editingTask s) t = true ->
                  title t = trim (editText s) /\ trim (title t) = title t
                  /\ title t <> []).
Proof.
  unfold saveEdit. rewrite isEmpty_trim.
  destruct (forallb isWhiteSpace (editText s)) eqn:W; [ reflexivity | ].
  unfold setEditText, setEditingTask, setTasks. cbn [editingTask editText tasks].
  split; [ reflexivity | split; [ reflexivity | split; [ | split ] ] ].
  - rewrite map_map. apply map_ext. intros t.
    destruct (isEditing (editingTask s) t); reflexivity.
  - intros t Hin E. apply in_map_iff. exists t. now rewrite E.
  - intros t Hin E. apply in_map_iff in Hin. destruct Hin as (u & Eu & _).
    destruct (isEditing (editingTask s) u) eqn:Ed.
    + subst t. cbn [withTitle title]. split; [ reflexivity | ].
      split; [ apply trim_trim | ].
      intros T. apply trim_nil in T. congruence.
    + subst t. congruence.
Qed.

Lemma saveEdit_renames_witness :
  In (newTask 2 2 (mkResult "b" Other Medium None None none))
    (tasks (saveEdit
              (mkApp [newTask 1 1 (mkResult "a" Other Medium None None none);
                      newTask 2 2 (mkResult "b" Other Medium None None none)]
                 [] "all" "date" (Some 1) "  Call Ann "))).
Proof.
  apply (proj1 (proj2 (proj2 (proj2 (saveEdit_renames
           (mkApp [newTask 1 1 (mkResult "a" Other Medium None None none);
                   newTask 2 2 (mkResult "b" Other Medium None None none)]
              [] "all" "date" (Some 1) "  Call Ann ")))))).
  - right. now left.
  - reflexivity.
Defined.

(** The no-break space is white space to [trim]: an input and an edit text
    of such spaces are ignored. *)
Example no_break_space_is_blank :
  handleAddTask 20759 1 2 (setInputText ["160"%char; " "%char] initial)
  = Ok (setInputText ["160"%char; " "%char] initial)
  /\ saveEdit (mkApp [newTask 1 1 (mkResult "a" Other Medium None None none)]
                 [] "all" "date" (Some 1) ["160"%char])
     = mkApp [newTask 1 1 (mkResult "a" Other Medium None None none)]
         [] "all" "date" (Some 1) ["160"%char].
Proof. split; reflexivity. Qed.

Lemma same_id_same_task ts (t u : Task) :
  NoDup (map id ts) -> In t ts -> In u ts -> id u = id t -> u = t.
Proof.
  induction ts as [ | x ts IH ]; [ intros _ [] | ].
  cbn [map]. intros ND Ht Hu E. apply NoDup_cons_iff in ND. destruct ND as [Nx ND].
  destruct Ht as [ -> | Ht ], Hu as [ -> | Hu ]; trivial.
  - exfalso. apply Nx. rewrite <- E. now apply in_map.
  - exfalso. apply Nx. rewrite E. now apply in_map.
  - now apply IH.
Qed.

(** X18. Opening a task for editing and saving at once changes no task, when
    ids are distinct and the title is trimmed, as the parser's titles are;
    but a task with an empty title cannot be saved and stays in edit mode. *)
Theorem edit_without_change s t :
  In t (tasks s) -> NoDup (map id (tasks s)) -> trim (title t) = title t ->
  if isEmpty (title t) then saveEdit (startEdit t s) = startEdit t s
  else saveEdit (startEdit t s) = cancelEdit s.
Proof.
  intros Hin ND T. unfold saveEdit, startEdit, cancelEdit.
  unfold setEditText, setEditingTask, setTasks. cbn [editingTask editText tasks
    inputText filter sortBy]. rewrite T.
  destruct (isEmpty (title t)); [ reflexivity | ].
  f_equal. rewrite <- (map_id (tasks s)) at 2. apply map_ext_in. intros u Hu.
  cbn [isEditing]. destruct (Z.eqb_spec (id u) (id t)) as [ E | _ ]; [ | reflexivity ].
  rewrite (same_id_same_task _ _ _ ND Hin Hu E). apply withTitle_self.
Qed.

Lemma edit_without_change_witness :
  saveEdit (startEdit (newTask 7 8 (mkResult "Buy milk" Shopping Medium None None none))
              (mkApp [newTask 7 8 (mkResult "Buy milk" Shopping Medium None None none)]
                 [] "all" "date" None []))
  = cancelEdit (mkApp [newTask 7 8 (mkResult "Buy milk" Shopping Medium None None none)]
                  [] "all" "date" None []).
Proof.
  apply (edit_without_change
           (mkApp [newTask 7 8 (mkResult "Buy milk" Shopping Medium None None none)]
              [] "all" "date" None [])
           (newTask 7 8 (mkResult "Buy milk" Shopping Medium None None none)));
    [ now left | repeat constructor; simpl; tauto | reflexivity ].
Defined.

(** *** Sorting *)

Section Sorting.
Context {A : Type}.
Variable comparefn : A -> A -> Z.
Variable key : A -> Z.
Variable P : A -> Prop.
Hypothesis by_key :
  forall a b, P a -> P b -> (0 <? comparefn a b) = (key b <? key a).

Lemma insert_perm x l : Permutation (insert comparefn x l) (x :: l).
Proof.
  induction l as [ | y l IH ]; simpl; [ constructor; constructor | ].
  destruct (0 <? comparefn x y); [ | apply Permutation_refl ].
  eapply perm_trans; [ apply perm_skip, IH | apply perm_swap ].
Qed.

Lemma sort_perm l : Permutation (sort comparefn l) l.
Proof.
  induction l as [ | x l IH ]; simpl; [ constructor | ].
  eapply perm_trans; [ apply insert_perm | now apply perm_skip ].
Qed.

Lemma sort_Forall l : Forall P l -> Forall P (sort comparefn l).
Proof.
  intros F. apply Forall_forall. intros a Ha.
  apply (Permutation_in _ (sort_perm l)) in Ha.
  now apply (proj1 (Forall_forall P l) F).
Qed.

Lemma insert_sorted x l :
  P x -> Forall P l ->
  StronglySorted (fun a b => key a <= key b) l ->
  StronglySorted (fun a b => key a <= key b) (insert comparefn x l).
Proof.
  intros Px F S. induction S as [ | y l S IH Hy ]; simpl.
  - constructor; constructor.
  - inversion F as [ | ? ? Py Fl ]; subst.
    rewrite (by_key _ _ Px Py).
    destruct (Z.ltb_spec (key y) (key x)) as [ Lt | Ge ].
    + constructor; [ now apply IH | ].
      apply Forall_forall. intros a Ha.
      apply (Permutation_in _ (insert_perm x l)) in Ha. destruct Ha as [ <- | Ha ].
      * lia.
      * now apply (proj1 (Forall_forall _ l) Hy).
    + constructor; [ now constructor | ].
      constructor; [ exact Ge | ].
      apply Forall_forall. intros a Ha.
      pose proof (proj1 (Forall_forall _ l) Hy a Ha). simpl in *. lia.
Qed.

Lemma sort_sorted l :
  Forall P l -> StronglySorted (fun a b => key a <= key b) (sort comparefn l).
Proof.
  induction l as [ | x l IH ]; simpl; intros F; [ constructor | ].
  inversion F; subst. apply insert_sorted; auto using sort_Forall.
Qed.

Lemma insert_stable k x l :
  P x -> Forall P l ->
  List.filter (fun a => key a =? k) (insert comparefn x l)
  = List.filter (fun a => key a =? k) (x :: l).
Proof.
  intros Px F. induction F as [ | y l Py F IH ]; [ reflexivity | ].
  cbn [insert]. rewrite (by_key _ _ Px Py).
  destruct (Z.ltb_spec (key y) (key x)) as [ Lt | Ge ]; [ | reflexivity ].
  cbn [List.filter] in *. rewrite IH.
  destruct (Z.eqb_spec (key y) k), (Z.eqb_spec (key x) k); try reflexivity. lia.
Qed.

Lemma sort_stable k l :
  Forall P l ->
  List.filter (fun a => key a =? k) (sort comparefn l)
  = List.filter (fun a => key a =? k) l.
Proof.
  induction l as [ | x l IH ]; intros F; [ reflexivity | ].
  inversion F; subst. cbn [sort].
  rewrite insert_stable by auto using sort_Forall.
  cbn [List.filter]. now rewrite IH.
Qed.

End Sorting.

(** X20. Sorted by priority, the filtered tasks come High first, then Medium,
    then Low, and tasks of the same priority keep the order they had. *)
Theorem sort_by_priority localeCompare s :
  sortBy s = ("priority" : list ascii) ->
  Permutation (getSortedTasks localeCompare s) (getFilteredTasks s)
  /\ StronglySorted (fun a b => order (priority a) <= order (priority b))
       (getSortedTasks localeCompare s)
  /\ forall p,
       List.filter (fun t => order (priority t) =? order p)
         (getSortedTasks localeCompare s)
       = List.filter (fun t => order (priority t) =? order p) (getFilteredTasks s).
Proof.
  intros E. unfold getSortedTasks. rewrite E.
  assert (K : forall a b : Task, True -> True ->
                (0 <? compareTasks localeCompare "priority" a b)
                = (order (priority b) <? order (priority a))).
  { intros a b _ _. cbn. apply eq_true_iff_eq. rewrite !Z.ltb_lt. lia. }
  assert (F : Forall (fun _ : Task => True) (getFilteredTasks s))
    by (apply Forall_forall; trivial).
  split; [ apply sort_perm | split ].
  - now apply (sort_sorted _ _ _ K).
  - intros p. now apply (sort_stable _ _ _ K).
Qed.

Lemma sort_by_priority_witness :
  getSortedTasks (fun _ _ => 0)
    (mkApp [newTask 1 1 (mkResult "a" Other Low None None none);
            newTask 2 2 (mkResult "b" Other High None None none);
            newTask 3 3 (mkResult "c" Other Medium None None none);
            newTask 4 4 (mkResult "d" Other High None None none)]
       [] "all" "priority" None [])
  = [newTask 2 2 (mkResult "b" Other High None None none);
     newTask 4 4 (mkResult "d" Other High None None none);
     newTask 3 3 (mkResult "c" Other Medium None None none);
     newTask 1 1 (mkResult "a" Other Low None None none)]
  /\ StronglySorted (fun a b => order (priority a) <= order (priority b))
       (getSortedTasks (fun _ _ => 0)
          (mkApp [newTask 1 1 (mkResult "a" Other Low None None none);
                  newTask 2 2 (mkResult "b" Other High None None none);
                  newTask 3 3 (mkResult "c" Other Medium None None none);
                  newTask 4 4 (mkResult "d" Other High None None none)]
             [] "all" "priority" None [])).
Proof.
  split; [ reflexivity | ].
  apply (sort_by_priority (fun _ _ => 0)
           (mkApp [newTask 1 1 (mkResult "a" Other Low None None none);
                   newTask 2 2 (mkResult "b" Other High None None none);
                   newTask 3 3 (mkResult "c" Other Medium None None none);
                   newTask 4 4 (mkResult "d" Other High None None none)]
              [] "all" "priority" None []) eq_refl).
Defined.

(** X21. Sorted by date, filtered tasks that all have a due date come in the
    order of their dates, and tasks due on the same day keep the order they
    had. *)
Theorem sort_by_date localeCompare s :
  sortBy s = ("date" : list ascii) ->
  Forall (fun t => dueDate t <> None) (getFilteredTasks s) ->
  Permutation (getSortedTasks localeCompare s) (getFilteredTasks s)
  /\ StronglySorted
       (fun a b => forall da db, dueDate a = Some da -> dueDate b = Some db -> da <= db)
       (getSortedTasks localeCompare s)
  /\ forall d,
       List.filter (fun t => match dueDate t with
                             | Some dt => dt =? d
                             | None => false
                             end) (getSortedTasks localeCompare s)
       = List.filter (fun t => match dueDate t with
                               | Some dt => dt =? d
                               | None => false
                               end) (getFilteredTasks s).
Proof.
  intros E F. unfold getSortedTasks. rewrite E.
  set (key := fun t : Task => match dueDate t with Some d => d | None => 0 end).
  assert (K : forall a b : Task, dueDate a <> None -> dueDate b <> None ->
                (0 <? compareTasks localeCompare "date" a b) = (key b <? key a)).
  { intros a b Ha Hb. unfold key. cbn.
    destruct (dueDate a) as [ da | ]; [ | contradiction ].
    destruct (dueDate b) as [ db | ]; [ | contradiction ].
    apply eq_true_iff_eq. rewrite !Z.ltb_lt. unfold msPerDay. lia. }
  split; [ apply sort_perm | split ].
  - pose proof (sort_sorted _ _ _ K _ F) as S.
    eapply StronglySorted_ind with (P := fun l => StronglySorted _ l);
      [ constructor | | exact S ].
    intros a l _ IH Ha. constructor; [ exact IH | ].
    eapply Forall_impl; [ | exact Ha ].
    intros b Hb da db Ea Eb. unfold key in Hb. now rewrite Ea, Eb in Hb.
  - intros d.
    pose proof (sort_Forall (compareTasks localeCompare "date") _ _ F) as F'.
    pose proof (sort_stable _ _ _ K d _ F) as St.
    assert (X : forall l, Forall (fun t => dueDate t <> None) l ->
              List.filter (fun t => match dueDate t with Some dt => dt =? d | None => false end) l
              = List.filter (fun t => key t =? d) l).
    { intros l Fl. apply filter_ext_in. intros t Ht.
      pose proof (proj1 (Forall_forall _ l) Fl t Ht) as Nt. cbv beta in Nt. unfold key.
      destruct (dueDate t); [ reflexivity | congruence ]. }
    rewrite (X _ F'), (X _ F). exact St.
Qed.

Lemma sort_by_date_witness :
  getSortedTasks (fun _ _ => 0)
    (mkApp [newTask 1 1 (mkResult "a" Other Medium (Some 20761) None none);
            newTask 2 2 (mkResult "b" Other Medium (Some 20759) None none);
            newTask 3 3 (mkResult "c" Other Medium (Some 20761) None none);
            newTask 4 4 (mkResult "d" Other Medium (Some 20760) None none)]
       [] "all" "date" None [])
  = [newTask 2 2 (mkResult "b" Other Medium (Some 20759) None none);
     newTask 4 4 (mkResult "d" Other Medium (Some 20760) None none);
     newTask 1 1 (mkResult "a" Other Medium (Some 20761) None none);
     newTask 3 3 (mkResult "c" Other Medium (Some 20761) None none)]
  /\ Permutation
       (getSortedTasks (fun _ _ => 0)
          (mkApp [newTask 1 1 (mkResult "a" Other Medium (Some 20761) None none);
                  newTask 2 2 (mkResult "b" Other Medium (Some 20759) None none);
                  newTask 3 3 (mkResult "c" Other Medium (Some 20761) None none);
                  newTask 4 4 (mkResult "d" Other Medium (Some 20760) None none)]
             [] "all" "date" None []))
       [newTask 1 1 (mkResult "a" Other Medium (Some 20761) None none);
        newTask 2 2 (mkResult "b" Other Medium (Some 20759) None none);
        newTask 3 3 (mkResult "c" Other Medium (Some 20761) None none);
        newTask 4 4 (mkResult "d" Other Medium (Some 20760) None none)].
Proof.
  split; [ reflexivity | ].
  apply (sort_by_date (fun _ _ => 0)
           (mkApp [newTask 1 1 (mkResult "a" Other Medium (Some 20761) None none);
                   newTask 2 2 (mkResult "b" Other Medium (Some 20759) None none);
                   newTask 3 3 (mkResult "c" Other Medium (Some 20761) None none);
                   newTask 4 4 (mkResult "d" Other Medium (Some 20760) None none)]
              [] "all" "date" None []) eq_refl).
  repeat constructor; discriminate.
Defined.

(** *** The label of a date *)

Lemma toLocaleDateString_month d :
  exists a b c rest,
    toLocaleDateString d = a :: b :: c :: rest
    /\ In [a; b; c] (map list_ascii_of_string monthNames).
Proof.
  unfold toLocaleDateString.
  generalize (Z.to_nat (MonthFromTime d)) as k. intros k.
  do 12 (destruct k as [ | k ];
         [ do 4 eexists; split; [ reflexivity | simpl; tauto ] | ]).
  destruct k; do 4 eexists; (split; [ reflexivity | simpl; tauto ]).
Qed.

Lemma toLocaleDateString_no_label d :
  toLocaleDateString d <> ("Today" : list ascii)
  /\ toLocaleDateString d <> ("Tomorrow" : list ascii).
Proof.
  destruct (toLocaleDateString_month d) as (a & b & c & rest & E & Hin).
  rewrite E. simpl in Hin.
  split; intros [= -> -> -> _];
    repeat (destruct Hin as [ Hin | Hin ]; [ discriminate | ]); exact Hin.
Qed.

Lemma formatDate_today today : formatDate today (Some today) = Some ("Today" : list ascii).
Proof. unfold formatDate. now rewrite Z.eqb_refl. Qed.

Lemma formatDate_next today :
  clock today -> formatDate today (Some (today + 1)) = Some ("Tomorrow" : list ascii).
Proof.
  intros Now. unfold formatDate. rewrite setDate_getDate.
  rewrite TimeClip_valid by (unfold clock, maxDay in *; lia).
  destruct (Z.eqb_spec (today + 1) today) as [ E | _ ]; [ lia | ].
  now rewrite Z.eqb_refl.
Qed.

(** X22. [formatDate] says "Today" for today's date and for no other, and
    "Tomorrow" for the day after and for no other; without a date it
    returns [null]. *)
Theorem formatDate_labels today d :
  clock today ->
  (formatDate today (Some d) = Some ("Today" : list ascii) <-> d = today)
  /\ (formatDate today (Some d) = Some ("Tomorrow" : list ascii) <-> d = today + 1)
  /\ formatDate today None = None.
Proof.
  intros Now. unfold formatDate. rewrite setDate_getDate.
  rewrite TimeClip_valid by (unfold clock, maxDay in *; lia).
  destruct (toLocaleDateString_no_label d) as [N1 N2].
  destruct (Z.eqb_spec d today) as [ E | N ];
    [ | destruct (Z.eqb_spec d (today + 1)) as [ E' | N' ] ].
  - split; [ tauto | split; [ | reflexivity ] ].
    split; [ discriminate | lia ].
  - split; [ | split; [ tauto | reflexivity ] ].
    split; [ discriminate | lia ].
  - split; [ | split; [ | reflexivity ] ]; (split; [ | lia ]); intros H; exfalso.
    + apply N1. congruence.
    + apply N2. congruence.
Qed.

Lemma formatDate_labels_witness :
  formatDate 20759 (Some 20760) = Some ("Tomorrow" : list ascii).
Proof.
  apply (proj2 (proj1 (proj2 (formatDate_labels 20759 20760 ltac:(unfold clock, maxDay; lia))))).
  reflexivity.
Defined.

(** X23. A task entered with "tomorrow" is labelled "Tomorrow" on the day it is
    entered and "Today" on the next day. *)
Theorem tomorrow_is_labelled today text :
  clock today ->
  includes (toLowerCase text) "tomorrow" = true ->
  inDaysMatch (toLowerCase text) = None ->
  dateMatch text = None ->
  exists r,
    parseNaturalLanguage today text = Ok r
    /\ formatDate today (Parser.dueDate r) = Some ("Tomorrow" : list ascii)
    /\ formatDate (today + 1) (Parser.dueDate r) = Some ("Today" : list ascii).
Proof.
  intros Now T In Md.
  pose proof (extractDate_order today text Now) as E.
  rewrite In, Md in E. specialize (E I).
  eexists. split; [ apply parse_of_date, E | ].
  cbn [Parser.dueDate]. unfold firstMatching, relativeRules, triggers, some.
  cbn [find existsb fst]. rewrite T. cbn [orb dateOf option_map snd].
  split; [ now apply formatDate_next | apply formatDate_today ].
Qed.

Lemma tomorrow_is_labelled_witness :
  exists r,
    parseNaturalLanguage 20759 "Buy milk tomorrow" = Ok r
    /\ formatDate 20759 (Parser.dueDate r) = Some ("Tomorrow" : list ascii)
    /\ formatDate (20759 + 1) (Parser.dueDate r) = Some ("Today" : list ascii).
Proof.
  apply (tomorrow_is_labelled 20759 "Buy milk tomorrow");
    [ unfold clock, maxDay; lia | reflexivity .. ].
Defined.

End TaskList.
